(** * The content-generation pipeline of [scrap_chat_wiki.py]

    A shallow embedding of the Wikipedia client, the client-side throttle,
    the generation retry engine, the pair persistence and the batch loop,
    followed by the properties established about them.

    Conventions of the embedding:
    - a Python [str] is the list of its Unicode code points, so that [len]
      and slicing count what Python counts;
    - a Python [float] holding a time or a delay is an exact rational [Q];
    - the outside world (HTTP server, generation model, file system faults,
      passage of time, encoding of the standard output, recursion limit) is
      an explicit oracle [Env]; the mutable process state is an explicit
      [World] threaded through a state and exception monad;
    - [print] raises [UnicodeEncodeError] on a line the standard output
      cannot encode, and [time.sleep] raises on a delay it does not accept;
      what they do otherwise is recorded in the world's trace;
    - exceptions that do not derive from [Exception] (an interrupt, a
      request to exit) pass through [except Exception]; they reach the
      program from the calls the oracle answers (a GET, a generation call,
      a file operation), and the run is taken as not interrupted
      elsewhere. *)


From Stdlib Require Import ZArith NArith QArith Qminmax List String Ascii Bool Lia.
From Stdlib Require Import DecimalString Lqa Qpower.
From stdpp Require Import gmap.
Import ListNotations.

Set Default Proof Using "Type".

(** ** Python strings *)

Module PyStr.

(** A character is a code point, a string a list of them. *)
Abbreviation char := N.
Abbreviation str := (list N).

(** Decoding of the UTF-8 bytes of a source literal into code points. *)
Fixpoint utf8_decode (bs : list N) : str :=
  match bs with
  | [] => []
  | b :: r =>
      if (b <? 128)%N then b :: utf8_decode r
      else if (b <? 224)%N then
        match r with
        | b1 :: r1 => ((b - 192) * 64 + (b1 - 128))%N :: utf8_decode r1
        | _ => []
        end
      else if (b <? 240)%N then
        match r with
        | b1 :: b2 :: r2 =>
            ((b - 224) * 4096 + (b1 - 128) * 64 + (b2 - 128))%N :: utf8_decode r2
        | _ => []
        end
      else
        match r with
        | b1 :: b2 :: b3 :: r3 =>
            ((b - 240) * 262144 + (b1 - 128) * 4096 + (b2 - 128) * 64 + (b3 - 128))%N
              :: utf8_decode r3
        | _ => []
        end
  end.

Definition lit (s : string) : str :=
  utf8_decode (map N_of_ascii (list_ascii_of_string s)).

Definition ch (a : ascii) : char := N_of_ascii a.

(** [str.isspace] on one code point, the class behind [\s] and [str.strip()]. *)
Definition is_space (c : char) : bool :=
  ((9 <=? c) && (c <=? 13) || (28 <=? c) && (c <=? 32) || (c =? 133) || (c =? 160)
   || (c =? 5760) || (8192 <=? c) && (c <=? 8202) || (c =? 8232) || (c =? 8233)
   || (c =? 8239) || (c =? 8287) || (c =? 12288))%N.

(** The character class [[0-9]]. *)
Definition is_digit (c : char) : bool := ((48 <=? c) && (c <=? 57))%N.

Definition ascii_lower (c : char) : char :=
  if ((65 <=? c) && (c <=? 90))%N then (c + 32)%N else c.

(** [re.IGNORECASE] comparison of a lower-case ASCII pattern letter [p]
    with a subject character [c]: the two ASCII cases, plus the characters
    the [re] module treats as case-equivalent to an ASCII letter
    (U+0130 and U+0131 for i, U+017F for s, U+212A for k). *)
Definition ci_eq (p c : char) : bool :=
  ((ascii_lower c =? p)
   || (p =? 105) && ((c =? 304) || (c =? 305))
   || (p =? 115) && (c =? 383)
   || (p =? 107) && (c =? 8490))%N.

(** Longest prefix of [s] whose characters satisfy [p], and the rest. *)
Fixpoint span (p : char -> bool) (s : str) : str * str :=
  match s with
  | [] => ([], [])
  | c :: r => if p c then let '(a, b) := span p r in (c :: a, b) else ([], s)
  end.

Fixpoint lstrip (p : char -> bool) (s : str) : str :=
  match s with
  | [] => []
  | c :: r => if p c then lstrip p r else s
  end.

Definition rstrip (p : char -> bool) (s : str) : str := rev (lstrip p (rev s)).

(** [s.strip()] and [s.strip(chars)] with the set of characters as a predicate. *)
Definition strip_with (p : char -> bool) (s : str) : str := rstrip p (lstrip p s).
Definition strip (s : str) : str := strip_with is_space s.

(** [s[:n]] for a non-negative [n]. *)
Definition slice_to (n : nat) (s : str) : str := firstn n s.

(** Truthiness of a string: [bool(s)]. *)
Definition truthy (s : str) : bool := match s with [] => false | _ => true end.

(** [str(n)] for a non-negative integer. *)
Definition str_of_nat (n : nat) : str :=
  map N_of_ascii (list_ascii_of_string (NilEmpty.string_of_uint (Nat.to_uint n))).

End PyStr.
Import PyStr.

(** ** Configuration constants and pure helpers *)

Definition WIKI_LANG : str := Eval cbv in lit "pt".
Definition INTRO_ONLY : bool := false.
Definition SAVE_DIR : str := Eval cbv in lit "saida_wiki".
Definition MAX_CHARS_PROMPT : nat := Z.to_nat 12000.

(** [re.sub(pattern, repl, s)] for a pattern of the form [[class]+]: every
    maximal run of characters of the class is replaced by [repl]. *)
Fixpoint sub_runs (cls : char -> bool) (repl : str) (in_run : bool) (s : str) : str :=
  match s with
  | [] => []
  | c :: r =>
      if cls c then
        (if in_run then sub_runs cls repl true r else repl ++ sub_runs cls repl true r)
      else c :: sub_runs cls repl false r
  end.

Section Slug.

(** [str.isalnum] on one code point: the Unicode database behind [\w],
    which is not part of the repository. *)
Variable alnum : char -> bool.

Definition is_word (c : char) : bool := alnum c || (c =? 95)%N.

(** Characters kept by [re.sub(r"[^\w\s-]", "", s)]. *)
Definition slug_keep (c : char) : bool := is_word c || is_space c || (c =? 45)%N.

(** The class [[\s_-]]. *)
Definition slug_sep (c : char) : bool := is_space c || (c =? 95)%N || (c =? 45)%N.

Definition slugify (s : str) : str :=
  let s := filter slug_keep s in
  let s := strip_with (fun c => (c =? 95)%N) (sub_runs slug_sep [95%N] false s) in
  slice_to 100 s.

End Slug.

Definition truncation_marker : str :=
  Eval cbv in [10%N; 10%N] ++ lit "[Texto truncado por comprimento.]".

Definition truncate_for_prompt (text : str) (max_chars : nat) : str :=
  if (length text <=? max_chars)%nat then text
  else slice_to max_chars text ++ truncation_marker.

(** ** The retry hint: [_parse_retry_seconds_from_error] *)

Module RetryHint.

Definition kw : str := Eval cbv in lit "retry in".

(** Case-insensitive match of a literal at the head of [s]; the rest of [s]. *)
Fixpoint match_lit (pat s : str) : option str :=
  match pat with
  | [] => Some s
  | p :: pat' =>
      match s with
      | c :: s' => if ci_eq p c then match_lit pat' s' else None
      | [] => None
      end
  end.

(** The pattern [retry in\s+([0-9]+(?:\.[0-9]+)?)s] anchored at the head of
    [s]; the result is the text of group 1. Greedy [\s+] and [[0-9]+] take
    the whole run: a shorter run is followed by a character of the same
    class, on which the next pattern element cannot match, so backtracking
    never finds another match. *)
Definition match_here (s : str) : option str :=
  match match_lit kw s with
  | None => None
  | Some s1 =>
      let '(ws, s2) := span is_space s1 in
      let '(ds, s3) := span is_digit s2 in
      match ws, ds, s3 with
      | _ :: _, _ :: _, c :: s4 =>
          if (c =? 46)%N then
            let '(fs, s5) := span is_digit s4 in
            match fs, s5 with
            | _ :: _, c' :: _ => if ci_eq 115%N c' then Some (ds ++ 46%N :: fs) else None
            | _, _ => None
            end
          else if ci_eq 115%N c then Some ds else None
      | _, _, _ => None
      end
  end.

(** [re.search]: the match at the leftmost position that has one. *)
Fixpoint re_search (s : str) : option str :=
  match match_here s with
  | Some g => Some g
  | None => match s with [] => None | _ :: r => re_search r end
  end.

Definition digits_val (ds : str) : N :=
  fold_left (fun acc c => (acc * 10 + (c - 48))%N) ds 0%N.

(** [float(g)] on the unsigned decimal numerals that group 1 can hold
    ([digits] or [digits.digits]), as the exact rational the numeral
    denotes; [float] returns the double nearest to it, which is that
    rational for the integers up to 2^53. For a numeral beyond the range
    of a double [float] returns [inf], a delay that [time.sleep] refuses
    like the value held here. [None] stands for the [ValueError] of any
    other text. *)
Definition py_float (g : str) : option Q :=
  let '(ip, rest) := span is_digit g in
  match ip, rest with
  | _ :: _, [] => Some (Z.of_N (digits_val ip) # 1)
  | _ :: _, c :: fp =>
      if (c =? 46)%N && forallb is_digit fp && truthy fp
      then Some (Z.of_N (digits_val (ip ++ fp)) # Pos.pow 10 (Pos.of_nat (length fp)))
      else None
  | _, _ => None
  end.

Definition _parse_retry_seconds_from_error (err_msg : str) : option Q :=
  match re_search err_msg with
  | Some g => py_float g     (* try: float(m.group(1)); except: None *)
  | None => None
  end.

(** The delay chosen in the [except] branch of [call_gemini_with_retry].
    The power is the exact one; on floats [backoff ** (attempt - 1)] has a
    value up to the exponent 1023 only, which the [except] branch checks
    with [pow_overflows] before it takes the delay. *)
Definition backoff : Q := 2.

Definition retry_delay (msg : str) (attempt : Z) : Q :=
  match _parse_retry_seconds_from_error msg with
  | Some retry_s => retry_s
  | None => Qmin (Qpower backoff (attempt - 1)) 60
  end.

End RetryHint.
Import RetryHint.

(** ** The literals of the program *)

Definition msg_recursion : str := Eval cbv in lit "maximum recursion depth exceeded".
Definition msg_not_found : str := Eval cbv in lit "Não encontrado na Wikipedia: '".
Definition msg_page_not_found : str := Eval cbv in lit "Página não encontrada: '".
Definition msg_no_content : str := Eval cbv in lit "Artigo sem conteúdo legível: '".
Definition msg_none : str := Eval cbv in lit "None".
Definition msg_wiki_failed : str := Eval cbv in lit "Falha na Wikipedia após ".
Definition msg_attempts_colon : str := Eval cbv in lit " tentativas: ".
Definition msg_empty_response : str := Eval cbv in lit "Resposta vazia do modelo.".
Definition msg_failed_after : str := Eval cbv in lit "Falhou após ".
Definition msg_attempts_dot : str := Eval cbv in lit " tentativas.".
Definition prompt_line_1 : str := Eval cbv in lit "Reescreva o texto abaixo de forma objetiva, neutra e enciclopédica,".
Definition prompt_line_2 : str := Eval cbv in lit "sem incluir títulos ou seções, sem linguagem promocional,".
Definition prompt_line_3 : str := Eval cbv in lit "sem estrutura de artigo didático.".
Definition prompt_line_4 : str := Eval cbv in lit "Estilo desejado: semelhante ao da Wikipédia.".
Definition prompt_line_5 : str := Eval cbv in lit "Texto de base:".
Definition prompt_alternate : str := Eval cbv in lit "Reformule de modo autoral e objetivo o texto a seguir, mantendo precisão:".


(** Texts of the interpreter: class names and the messages of the errors
    raised by [time.sleep], by [**] on floats and by the encoder of the
    standard output. *)
Definition name_RuntimeError : str := Eval cbv in lit "RuntimeError".
Definition name_ValueError : str := Eval cbv in lit "ValueError".
Definition name_RecursionError : str := Eval cbv in lit "RecursionError".
Definition name_OverflowError : str := Eval cbv in lit "OverflowError".
Definition name_UnicodeEncodeError : str := Eval cbv in lit "UnicodeEncodeError".
Definition name_KeyboardInterrupt : str := Eval cbv in lit "KeyboardInterrupt".
Definition name_SystemExit : str := Eval cbv in lit "SystemExit".
Definition msg_sleep_negative : str := Eval cbv in lit "sleep length must be non-negative".
Definition msg_sleep_overflow : str :=
  Eval cbv in lit "timestamp too large to convert to C _PyTime_t".
Definition msg_pow_overflow : str := Eval cbv in lit "(34, 'Numerical result out of range')".
Definition msg_cannot_encode : str := Eval cbv in lit "codec can't encode character".

(** ** Exceptions, the outside world and the process state *)

Inductive exn_class : Type :=
| RuntimeError
| ValueError
| RecursionError
| OverflowError
| UnicodeEncodeError
| OtherError (name : str)   (* any other subclass of [Exception] *)
| KeyboardInterrupt         (* derived from [BaseException], *)
| SystemExit.               (* not from [Exception] *)

(** An exception: [type(e)] and [str(e)]. *)
Record exn : Type := Exn { exn_type : exn_class; exn_msg : str }.

(** [isinstance(e, Exception)]: what [except Exception] catches. *)
Definition is_exception (e : exn) : bool :=
  match exn_type e with
  | KeyboardInterrupt | SystemExit => false
  | _ => true
  end.

(** [type(e).__name__]. *)
Definition class_name (c : exn_class) : str :=
  match c with
  | RuntimeError => name_RuntimeError
  | ValueError => name_ValueError
  | RecursionError => name_RecursionError
  | OverflowError => name_OverflowError
  | UnicodeEncodeError => name_UnicodeEncodeError
  | OtherError name => name
  | KeyboardInterrupt => name_KeyboardInterrupt
  | SystemExit => name_SystemExit
  end.

Inductive Result (A : Type) : Type :=
| Ok (a : A)
| Raise (e : exn).
Arguments Ok {A} a.
Arguments Raise {A} e.

(** The [params] dictionaries the program builds. *)
Inductive Request : Type :=
| ReqQuery (titles : str) (exintro : bool)   (* action=query, prop=extracts, redirects=1, ... *)
| ReqOpenSearch (search : str).              (* action=opensearch, limit=1, namespace=0 *)

(** One entry of [query.pages], by the keys the program reads with [.get]. *)
Record Page : Type := {
  p_missing : option str;     (* page.get("missing") *)
  p_pageid : option Z;        (* page.get("pageid") *)
  p_title : option str;       (* page.get("title") *)
  p_extract : option str      (* page.get("extract") *)
}.

(** A decoded JSON document, by the two views the program takes of it. *)
Record WikiData : Type := {
  d_pages : list Page;        (* data.get("query", {}).get("pages", {}).values() *)
  d_titles : list str         (* data[1] if len(data) > 1 else [] *)
}.

(** What [requests.get] does: it raises, or returns a response with a
    status code, the [HTTPError] that [raise_for_status] would build from
    it, and the outcome of [resp.json()]. *)
Inductive HttpResult : Type :=
| GetRaises (e : exn)
| GetReturns (status_code : Z) (http_error : exn) (json : Result WikiData).

(** What [model.generate_content(prompt)] followed by reading [resp.text]
    does: it raises, or yields the text; [None] stands for a falsy
    response and for a missing or [None] [text] attribute. *)
Inductive GenOutcome : Type :=
| GenRaises (e : exn)
| GenReturns (text : option str).

(** A fault of the file system on one operation: the error raised and,
    for a file being written, how many characters reached the file
    ([None]: the file could not even be opened). *)
Record Fault : Type := { fault_exn : exn; fault_written : option nat }.

Record Env : Type := {
  alnum : char -> bool;
  FREE_TIER_RPM : Z;
  ENFORCE_CLIENT_THROTTLE : bool;
  requests_get : nat -> Request -> str -> HttpResult;   (* k-th GET: params, lang *)
  generate_content : nat -> str -> str -> GenOutcome;   (* k-th call: model name, prompt *)
  fs_fault : nat -> str -> option Fault;                (* k-th file operation: path *)
  elapsed : nat -> Q;                                   (* duration of the k-th step *)
  stdout_encodes : char -> bool;    (* the characters [sys.stdout.encoding] can encode *)
  recursion_limit : nat             (* nested resolutions the stack has room for *)
}.

Inductive LogLine : Type :=
| LogThrottle (wait_s : Q) (rpm : Z)
| LogRetry (e : exn) (retry_s : Q) (attempt max_retries : nat)
| LogSaved (base : str)
| LogCollecting (raw_title : str)
| LogFailed (raw_title : str) (e : exn)
| LogModel (model_name : str)
| LogLang (lang : str) (intro_only : bool).

Inductive Event : Type :=
| EvGet (params : Request) (lang : str)
| EvGenerate (at_time : Q) (model_name prompt : str)   (* issued when the clock shows [at_time] *)
| EvSleep (secs : Q)
| EvPrint (line : LogLine).

Record World : Type := {
  clock : Q;                    (* what [time.time()] returns now *)
  _last_call_ts : Q;            (* the module global *)
  files : gmap str str;         (* path to content *)
  dirs : gset str;
  n_get : nat;
  n_gen : nat;
  n_io : nat;
  n_step : nat;
  trace : list Event
}.

(** ** A state and exception monad *)

Definition M (A : Type) : Type := World -> Result A * World.

Definition ret {A} (a : A) : M A := fun w => (Ok a, w).

Definition raise {A} (e : exn) : M A := fun w => (Raise e, w).

Definition bind {A B} (m : M A) (k : A -> M B) : M B :=
  fun w => match m w with
           | (Ok a, w') => k a w'
           | (Raise e, w') => (Raise e, w')
           end.

(** [try: body  except Exception as e: handler e]: an exception that is
    not an instance of [Exception] is not caught. *)
Definition try_except {A} (body : M A) (handler : exn -> M A) : M A :=
  fun w => match body w with
           | (Ok a, w') => (Ok a, w')
           | (Raise e, w') => if is_exception e then handler e w' else (Raise e, w')
           end.

Declare Scope py_scope.
Delimit Scope py_scope with py.
Notation "x <- c1 ;; c2" := (bind c1 (fun x => c2))
  (at level 100, c1 at next level, right associativity) : py_scope.
Notation "c1 ;; c2" := (bind c1 (fun _ => c2))
  (at level 100, right associativity) : py_scope.
Open Scope py_scope.

Definition emit (ev : Event) : M unit := fun w =>
  (Ok tt, {| clock := clock w; _last_call_ts := _last_call_ts w; files := files w;
             dirs := dirs w; n_get := n_get w; n_gen := n_gen w; n_io := n_io w;
             n_step := n_step w; trace := trace w ++ [ev] |}).

(** The characters of a printed line other than the ASCII text of its
    format string and of the numbers it formats. *)
Definition line_chars (line : LogLine) : str :=
  match line with
  | LogThrottle _ _ => []
  | LogRetry e _ _ _ => class_name (exn_type e) ++ exn_msg e ++ [8594%N]   (* U+2192 *)
  | LogSaved base => [10003%N] ++ base ++ base                            (* U+2713 *)
  | LogCollecting raw_title => raw_title
  | LogFailed raw_title e => [10007%N] ++ raw_title ++ exn_msg e          (* U+2717 *)
  | LogModel model_name => model_name
  | LogLang lang _ => lang
  end.

(** Every encoding of the standard output has the ASCII characters. *)
Definition encodable (env : Env) (c : char) : bool := (c <? 128)%N || stdout_encodes env c.

Definition printable (env : Env) (line : LogLine) : bool :=
  forallb (encodable env) (line_chars line).

Definition encode_error : exn := Exn UnicodeEncodeError msg_cannot_encode.

(** [print(line)]: the line is encoded as a whole before anything is
    written. *)
Definition print (env : Env) (line : LogLine) : M unit :=
  if printable env line then emit (EvPrint line) else raise encode_error.

(** Time passes: the clock moves by [extra] plus the duration of the step. *)
Definition pass_time (env : Env) (extra : Q) : M unit := fun w =>
  (Ok tt, {| clock := clock w + extra + elapsed env (n_step w);
             _last_call_ts := _last_call_ts w; files := files w;
             dirs := dirs w; n_get := n_get w; n_gen := n_gen w; n_io := n_io w;
             n_step := S (n_step w); trace := trace w |}).

Definition time_time (env : Env) : M Q :=
  pass_time env 0 ;; (fun w => (Ok (clock w), w)).

(** The longest delay [time.sleep] accepts: 2^63 - 1 nanoseconds. *)
Definition SLEEP_MAX : Q := 9223372036.854775807.

(** The error [time.sleep(secs)] raises, if any: [OverflowError] when the
    delay does not fit the interpreter's nanosecond clock, [ValueError]
    when it is negative. *)
Definition sleep_error (secs : Q) : option exn :=
  if Qle_bool (- SLEEP_MAX) secs && Qle_bool secs SLEEP_MAX then
    if Qle_bool 0 secs then None else Some (Exn ValueError msg_sleep_negative)
  else Some (Exn OverflowError msg_sleep_overflow).

Definition time_sleep (env : Env) (secs : Q) : M unit :=
  match sleep_error secs with
  | Some e => raise e
  | None => emit (EvSleep secs) ;; pass_time env secs
  end.

Definition set_last_call_ts (t : Q) : M unit := fun w =>
  (Ok tt, {| clock := clock w; _last_call_ts := t; files := files w;
             dirs := dirs w; n_get := n_get w; n_gen := n_gen w; n_io := n_io w;
             n_step := n_step w; trace := trace w |}).

Definition get_last_call_ts : M Q := fun w => (Ok (_last_call_ts w), w).

Definition http_get (env : Env) (params : Request) (lang : str) : M HttpResult :=
  emit (EvGet params lang) ;;
  pass_time env 0 ;;
  (fun w =>
     (Ok (requests_get env (n_get w) params lang),
      {| clock := clock w; _last_call_ts := _last_call_ts w; files := files w;
         dirs := dirs w; n_get := S (n_get w); n_gen := n_gen w; n_io := n_io w;
         n_step := n_step w; trace := trace w |})).

Definition model_generate (env : Env) (model_name prompt : str) : M GenOutcome :=
  (fun w => emit (EvGenerate (clock w) model_name prompt) w) ;;
  pass_time env 0 ;;
  (fun w =>
     (Ok (generate_content env (n_gen w) model_name prompt),
      {| clock := clock w; _last_call_ts := _last_call_ts w; files := files w;
         dirs := dirs w; n_get := n_get w; n_gen := S (n_gen w); n_io := n_io w;
         n_step := n_step w; trace := trace w |})).

(** One file-system operation: consult the fault oracle, then apply [upd]. *)
Definition next_fault (env : Env) (path : str) : M (option Fault) := fun w =>
  (Ok (fs_fault env (n_io w) path),
   {| clock := clock w; _last_call_ts := _last_call_ts w; files := files w;
      dirs := dirs w; n_get := n_get w; n_gen := n_gen w; n_io := S (n_io w);
      n_step := n_step w; trace := trace w |}).

Definition put_file (path content : str) : M unit := fun w =>
  (Ok tt, {| clock := clock w; _last_call_ts := _last_call_ts w;
             files := <[path := content]> (files w);
             dirs := dirs w; n_get := n_get w; n_gen := n_gen w; n_io := n_io w;
             n_step := n_step w; trace := trace w |}).

Definition put_dir (path : str) : M unit := fun w =>
  (Ok tt, {| clock := clock w; _last_call_ts := _last_call_ts w; files := files w;
             dirs := {[path]} ∪ dirs w; n_get := n_get w; n_gen := n_gen w;
             n_io := n_io w; n_step := n_step w; trace := trace w |}).

(** ** The Wikipedia client *)

(** Outcome of one iteration of a retry loop. *)
Inductive Step (A : Type) : Type :=
| Return (a : A)        (* [return a] inside the [try] *)
| Continue              (* [continue] *)
| Caught (e : exn).     (* the [except] branch ran *)
Arguments Return {A} a.
Arguments Continue {A}.
Arguments Caught {A} e.

Definition raise_for_status (status_code : Z) (http_error : exn) : M unit :=
  if ((400 <=? status_code) && (status_code <? 600))%Z then raise http_error else ret tt.

Definition lift_result {A} (r : Result A) : M A :=
  match r with Ok a => ret a | Raise e => raise e end.

(** [str(last_err)] in the final message of [wiki_request]. *)
Definition str_of_last_err (last_err : option exn) : str :=
  match last_err with
  | None => msg_none
  | Some e => exn_msg e
  end.

Definition wiki_failure (retries : nat) (last_err : option exn) : exn :=
  Exn RuntimeError
      (msg_wiki_failed ++ str_of_nat retries
         ++ msg_attempts_colon ++ str_of_last_err last_err).

(** Body of the [for i in range(retries)] loop of [wiki_request]. *)
Definition wiki_attempt (env : Env) (params : Request) (lang : str)
    (backoff : Q) (i : nat) : M (Step WikiData) :=
  try_except
    (resp <- http_get env params lang ;;
     match resp with
     | GetRaises e => raise e
     | GetReturns status_code http_error json =>
         if (status_code =? 403)%Z then
           time_sleep env (Qpower backoff (Z.of_nat i + 1)) ;;
           ret Continue
         else
           raise_for_status status_code http_error ;;
           data <- lift_result json ;;
           ret (Return data)
     end)
    (fun e =>
       time_sleep env (Qpower backoff (Z.of_nat i + 1)) ;;
       ret (Caught e)).

Fixpoint wiki_loop (env : Env) (params : Request) (lang : str) (retries : nat)
    (backoff : Q) (range : list nat) (last_err : option exn) : M WikiData :=
  match range with
  | [] => raise (wiki_failure retries last_err)
  | i :: rest =>
      r <- wiki_attempt env params lang backoff i ;;
      match r with
      | Return data => ret data
      | Continue => wiki_loop env params lang retries backoff rest last_err
      | Caught e => wiki_loop env params lang retries backoff rest (Some e)
      end
  end.

Definition wiki_request (env : Env) (params : Request) (lang : str)
    (retries : nat) (backoff : Q) : M WikiData :=
  wiki_loop env params lang retries backoff (seq 0 retries) None.

(** Default arguments of [wiki_request]. *)
Definition default_retries : nat := 3.
Definition default_backoff : Q := 1.5.

Definition search_wikipedia_title (env : Env) (query lang : str) : M (option str) :=
  data <- wiki_request env (ReqOpenSearch query) lang default_retries default_backoff ;;
  let titles := d_titles data in
  ret (match titles with t :: _ => Some t | [] => None end).

(** [not alt] for an [Optional[str]]. *)
Definition falsy (alt : option str) : bool :=
  match alt with None => true | Some s => negb (truthy s) end.

Definition quoted (prefix s : str) : str := prefix ++ s ++ [39%N].

Definition page_is_missing (page : Page) : bool :=
  match p_missing page with Some [] => true | _ => false end
  || match p_pageid page with Some (-1)%Z => true | _ => false end.

Definition recursion_error : exn := Exn RecursionError msg_recursion.

(** The outside world as a call finds it once the interpreter's stack is
    used up: the library call [requests.get] cannot run and raises
    [RecursionError]. *)
Definition out_of_stack (env : Env) : Env :=
  {| alnum := alnum env; FREE_TIER_RPM := FREE_TIER_RPM env;
     ENFORCE_CLIENT_THROTTLE := ENFORCE_CLIENT_THROTTLE env;
     requests_get := fun _ _ _ => GetRaises recursion_error;
     generate_content := generate_content env; fs_fault := fs_fault env;
     elapsed := elapsed env; stdout_encodes := stdout_encodes env;
     recursion_limit := recursion_limit env |}.

(** The outside world at a given [depth] of stack left: with none left,
    the stack is used up. *)
Definition stack_left (env : Env) (depth : nat) : Env :=
  match depth with
  | O => out_of_stack env
  | S _ => env
  end.

(** [depth] bounds the nesting of the recursive calls, as the interpreter's
    recursion limit does. Of the calls of a resolution, the GET of its
    search runs deepest: one frame below the GET of its own lookup, and as
    deep as the GET of the lookup of the nested resolution. So the stack
    runs out first in a search, inside [requests.get] and under the [try]
    of [wiki_request]: at [depth] 0 the lookup still runs, and the search
    goes through the retries of [wiki_request] with every GET raising
    [RecursionError]. Its nested call stands for one that is never made,
    that search having raised. *)
Fixpoint get_wikipedia_article (env : Env) (depth : nat) (title lang : str)
    (intro_only : bool) : M (str * str) :=
  let nested (alt : str) : M (str * str) :=
    match depth with
    | O => raise recursion_error
    | S depth' => get_wikipedia_article env depth' alt lang intro_only
    end in
  data <- wiki_request env (ReqQuery title intro_only) lang
            default_retries default_backoff ;;
  match d_pages data with
  | [] =>
      alt <- search_wikipedia_title (stack_left env depth) title lang ;;
      match alt with
      | Some a =>
          if truthy a then nested a
          else raise (Exn ValueError (quoted msg_not_found title))
      | None => raise (Exn ValueError (quoted msg_not_found title))
      end
  | page :: _ =>
      if page_is_missing page then
        alt <- search_wikipedia_title (stack_left env depth) title lang ;;
        match alt with
        | Some a =>
            if truthy a then nested a
            else raise (Exn ValueError (quoted msg_page_not_found title))
        | None => raise (Exn ValueError (quoted msg_page_not_found title))
        end
      else
        let normalized_title := default title (p_title page) in
        let extract := default [] (p_extract page) in
        if negb (truthy extract) then
          raise (Exn ValueError
                   (quoted msg_no_content normalized_title))
        else ret (normalized_title, extract)
  end.

(** ** The throttle and the generation retry engine *)

Definition _client_throttle_sleep (env : Env) : M unit :=
  if negb (ENFORCE_CLIENT_THROTTLE env) || (FREE_TIER_RPM env <=? 0)%Z then ret tt
  else
    let min_interval := (60 / inject_Z (FREE_TIER_RPM env))%Q in
    now <- time_time env ;;
    last <- get_last_call_ts ;;
    let elapsed := (now - last)%Q in
    (if Qlt_le_dec elapsed min_interval then
       let wait_s := (min_interval - elapsed)%Q in
       print env (LogThrottle wait_s (FREE_TIER_RPM env)) ;;
       time_sleep env wait_s
     else ret tt) ;;
    t <- time_time env ;;
    set_last_call_ts t.

Definition empty_response : exn := Exn RuntimeError msg_empty_response.

(** What the [try] block makes of the model's answer: the exception of the
    call, the "empty response" error when [not resp or not resp.text], and
    otherwise [resp.text.strip()]. *)
Definition response_text (resp : GenOutcome) : Result str :=
  match resp with
  | GenRaises e => Raise e
  | GenReturns text =>
      match text with
      | Some t => if truthy t then Ok (strip t) else Raise empty_response
      | None => Raise empty_response
      end
  end.

(** [backoff ** (attempt - 1)] on floats raises [OverflowError] from the
    exponent 1024 on; it is evaluated only when the message has no hint. *)
Definition pow_overflows (msg : str) (attempt : nat) : bool :=
  match _parse_retry_seconds_from_error msg with
  | Some _ => false
  | None => (1024 <? attempt)%nat
  end.

(** The [try] block of the [for attempt in range(1, max_retries + 1)]
    loop. *)
Definition gemini_try (env : Env) (model_name prompt : str) : M (Step str) :=
  _client_throttle_sleep env ;;
  resp <- model_generate env model_name prompt ;;
  text <- lift_result (response_text resp) ;;
  ret (Return text).

(** Its [except Exception as e] branch. *)
Definition gemini_except (env : Env) (max_retries attempt : nat) (e : exn)
  : M (Step str) :=
  let msg := exn_msg e in
  (if pow_overflows msg attempt then raise (Exn OverflowError msg_pow_overflow)
   else ret tt) ;;
  let retry_s := retry_delay msg (Z.of_nat attempt) in
  print env (LogRetry e retry_s attempt max_retries) ;;
  time_sleep env retry_s ;;
  ret (Caught e).

Definition gemini_attempt (env : Env) (model_name prompt : str)
    (max_retries attempt : nat) : M (Step str) :=
  try_except (gemini_try env model_name prompt) (gemini_except env max_retries attempt).

Definition gemini_failure (max_retries : nat) : exn :=
  Exn RuntimeError (msg_failed_after ++ str_of_nat max_retries ++ msg_attempts_dot).

Fixpoint gemini_loop (env : Env) (model_name prompt : str) (max_retries : nat)
    (range : list nat) : M str :=
  match range with
  | [] => raise (gemini_failure max_retries)
  | attempt :: rest =>
      r <- gemini_attempt env model_name prompt max_retries attempt ;;
      match r with
      | Return text => ret text
      | _ => gemini_loop env model_name prompt max_retries rest
      end
  end.

Definition call_gemini_with_retry (env : Env) (model_name prompt : str)
    (max_retries : nat) : M str :=
  gemini_loop env model_name prompt max_retries (seq 1 max_retries).

Definition primary_prompt (base_text : str) : str :=
  prompt_line_1 ++ [10%N]
  ++ prompt_line_2 ++ [10%N]
  ++ prompt_line_3 ++ [10%N]
  ++ prompt_line_4 ++ [10%N; 10%N]
  ++ prompt_line_5 ++ [10%N]
  ++ base_text ++ [10%N].

Definition alternate_prompt (base_text : str) : str :=
  prompt_alternate
  ++ [10%N; 10%N] ++ base_text.

Definition generate_text_with_gemini (env : Env) (base_text model_name : str) : M str :=
  let prompt := primary_prompt base_text in
  try_except
    (call_gemini_with_retry env model_name prompt 6)
    (fun _ =>
       let alt := alternate_prompt base_text in
       call_gemini_with_retry env model_name alt 6).

(** ** Files and the pipeline *)

Definition ensure_dir (env : Env) (path : str) : M unit :=
  fault <- next_fault env path ;;
  match fault with
  | Some f => raise (fault_exn f)
  | None => put_dir path
  end.

(** [with open(path, "w", encoding="utf-8") as f: f.write(content)]. *)
Definition write_file (env : Env) (path content : str) : M unit :=
  fault <- next_fault env path ;;
  match fault with
  | None => put_file path content
  | Some f =>
      match fault_written f with
      | None => raise (fault_exn f)
      | Some n => put_file path (firstn n content) ;; raise (fault_exn f)
      end
  end.

(** [os.path.join(base_dir, name)] for a relative [name]. *)
Definition path_join (base_dir name : str) : str := base_dir ++ [47%N] ++ name.

Definition original_suffix : str := Eval cbv in lit "__original.txt".
Definition ia_suffix : str := Eval cbv in lit "__ia.txt".

Definition save_texts (env : Env) (base_dir title original generated : str) : M unit :=
  ensure_dir env base_dir ;;
  let base := slugify (alnum env) title in
  write_file env (path_join base_dir (base ++ original_suffix)) original ;;
  write_file env (path_join base_dir (base ++ ia_suffix)) generated ;;
  print env (LogSaved base).

(** The [try] block of [collect_and_generate_for_title]. *)
Definition collect_body (env : Env) (raw_title lang : str) (intro_only : bool)
    (model_name : str) : M unit :=
  article <- get_wikipedia_article env (recursion_limit env) raw_title lang intro_only ;;
  let '(norm_title, original_text) := article in
  let prompt_text := truncate_for_prompt original_text MAX_CHARS_PROMPT in
  generated <- generate_text_with_gemini env prompt_text model_name ;;
  save_texts env SAVE_DIR norm_title original_text generated.

Definition collect_and_generate_for_title (env : Env) (raw_title lang : str)
    (intro_only : bool) (model_name : str) : M unit :=
  print env (LogCollecting raw_title) ;;
  try_except
    (collect_body env raw_title lang intro_only model_name)
    (fun e => print env (LogFailed raw_title e)).

(** The [for t in articles] loop. *)
Fixpoint for_articles (env : Env) (articles : list str) (model_name : str) : M unit :=
  match articles with
  | [] => ret tt
  | t :: rest =>
      collect_and_generate_for_title env t WIKI_LANG INTRO_ONLY model_name ;;
      for_articles env rest model_name
  end.

(** [main] once the start-up configuration has produced [model_name]; the
    literal topic list is the parameter [articles]. *)
Definition main (env : Env) (articles : list str) (model_name : str) : M unit :=
  print env (LogModel model_name) ;;
  print env (LogLang WIKI_LANG INTRO_ONLY) ;;
  for_articles env articles model_name.

(** ** Declarative reading of the retry hint

    These definitions follow the words of the specification ("a numeric
    seconds value embedded in the error text"); they are compared below
    with the matcher translated from the source. *)

Module HintSpec.

Definition all (p : char -> bool) (s : str) : Prop := Forall (fun c => p c = true) s.

(** [w] spells the literal [pat] up to letter case. *)
Definition ci_word (pat w : str) : Prop := Forall2 (fun p c => ci_eq p c = true) pat w.

(** An unsigned decimal numeral: digits, optionally a point and digits. *)
Inductive numeral : str -> Prop :=
| numeral_int ds :
    ds <> [] -> all is_digit ds -> numeral ds
| numeral_frac ds fs :
    ds <> [] -> fs <> [] -> all is_digit ds -> all is_digit fs ->
    numeral (ds ++ 46%N :: fs).

(** [s] begins with "retry in", white space, the numeral [g] and an "s". *)
Definition hint_at (s g : str) : Prop :=
  exists w ws c rest,
    ci_word kw w /\ ws <> [] /\ all is_space ws /\ numeral g /\
    ci_eq 115%N c = true /\ s = w ++ ws ++ g ++ c :: rest.

(** The first hint embedded in [msg] carries the numeral [g]. *)
Definition first_hint (msg g : str) : Prop :=
  exists pre suf,
    msg = pre ++ suf /\ hint_at suf g /\
    forall pre' suf' g', msg = pre' ++ suf' -> (length pre' < length pre)%nat ->
                         ~ hint_at suf' g'.

Definition no_hint (msg : str) : Prop :=
  forall pre suf g, msg = pre ++ suf -> ~ hint_at suf g.

(** The rational a numeral denotes: integer part plus fraction. *)
Definition numeral_value (ds fs : str) : Q :=
  inject_Z (Z.of_N (digits_val ds))
  + (Z.of_N (digits_val fs) # Pos.pow 10 (Pos.of_nat (length fs))).

(** The numeral [g] denotes the rational [v]. *)
Inductive denotes : str -> Q -> Prop :=
| denotes_int ds v :
    ds <> [] -> all is_digit ds ->
    (v == inject_Z (Z.of_N (digits_val ds)))%Q -> denotes ds v
| denotes_frac ds fs v :
    ds <> [] -> fs <> [] -> all is_digit ds -> all is_digit fs ->
    (v == numeral_value ds fs)%Q -> denotes (ds ++ 46%N :: fs) v.

End HintSpec.
Import HintSpec.

(** ** Observations of a run *)

(** The requests, prompts, waits and log lines recorded in a trace. *)
Definition gets (tr : list Event) : list Request :=
  flat_map (fun ev => match ev with EvGet r _ => [r] | _ => [] end) tr.

Definition prompts (tr : list Event) : list str :=
  flat_map (fun ev => match ev with EvGenerate _ _ p => [p] | _ => [] end) tr.

(** The instants at which the generation calls were issued. *)
Definition gen_times (tr : list Event) : list Q :=
  flat_map (fun ev => match ev with EvGenerate t _ _ => [t] | _ => [] end) tr.

Definition sleeps (tr : list Event) : list Q :=
  flat_map (fun ev => match ev with EvSleep d => [d] | _ => [] end) tr.

Definition log (tr : list Event) : list LogLine :=
  flat_map (fun ev => match ev with EvPrint l => [l] | _ => [] end) tr.

(** The searches among the requests. *)
Definition searches (tr : list Event) : list str :=
  flat_map (fun r => match r with ReqOpenSearch q => [q] | _ => [] end) (gets tr).

(** What one GET is worth to [wiki_request]: the decoded document when the
    status is neither 403 nor an error status and the body decodes. *)
Definition attempt_data (r : HttpResult) : option WikiData :=
  match r with
  | GetRaises _ => None
  | GetReturns status_code _ json =>
      if ((status_code =? 403) || (400 <=? status_code) && (status_code <? 600))%Z
      then None
      else match json with Ok d => Some d | Raise _ => None end
  end.

(** The exception raised inside the [try] of [wiki_request] on an attempt,
    if any: a 403 response is retried without raising. *)
Definition attempt_error (r : HttpResult) : option exn :=
  match r with
  | GetRaises e => Some e
  | GetReturns status_code http_error json =>
      if (status_code =? 403)%Z then None
      else if ((400 <=? status_code) && (status_code <? 600))%Z then Some http_error
      else match json with Raise e => Some e | Ok _ => None end
  end.

(** The attempt raises nothing that [except Exception] lets through. *)
Definition catchable (r : HttpResult) : Prop :=
  forall e, attempt_error r = Some e -> is_exception e = true.

(** The trace of failed attempts [is] of [wiki_request]: a GET, then a wait. *)
Definition failed_gets (params : Request) (lang : str) (backoff : Q)
    (range : list nat) : list Event :=
  flat_map (fun i => [EvGet params lang; EvSleep (Qpower backoff (Z.of_nat i + 1))]) range.

(** The first index in [start, start + n) at which [f] yields something. *)
Fixpoint first_some {A} (f : nat -> option A) (start n : nat) : option (nat * A) :=
  match n with
  | O => None
  | S n' =>
      match f start with
      | Some a => Some (start, a)
      | None => first_some f (S start) n'
      end
  end.

(** What [w'] keeps of [w] across a call that only talks to Wikipedia. *)
Definition wiki_frame (w w' : World) : Prop :=
  _last_call_ts w' = _last_call_ts w /\ files w' = files w /\ dirs w' = dirs w /\
  n_gen w' = n_gen w /\ n_io w' = n_io w /\
  prompts (trace w') = prompts (trace w) /\ log (trace w') = log (trace w) /\
  gen_times (trace w') = gen_times (trace w).


(** The error of a failed generation attempt. *)
Definition attempt_failure (resp : GenOutcome) : option exn :=
  match response_text resp with
  | Ok _ => None
  | Raise e => Some e
  end.

(** What [w'] keeps of [w] across a call that only talks to the model. *)
Definition gen_frame (w w' : World) : Prop :=
  files w' = files w /\ dirs w' = dirs w /\ n_get w' = n_get w /\ n_io w' = n_io w /\
  gets (trace w') = gets (trace w).

(** The minimum spacing the throttle enforces. *)
Definition min_interval (env : Env) : Q := 60 / inject_Z (FREE_TIER_RPM env).

(** Time never runs backwards and no step takes negative time. *)
Definition steady (env : Env) : Prop := forall k, (0 <= elapsed env k)%Q.

(** The timestamp the throttle recorded last is not in the future. *)
Definition timely (w : World) : Prop := (_last_call_ts w <= clock w)%Q.

(** The standard output can encode every character, as UTF-8 does. *)
Definition stdout_any (env : Env) : Prop := forall c, encodable env c = true.

(** A hint, if the message has one, is a delay [time.sleep] accepts. *)
Definition hint_ok (msg : str) : Prop :=
  match _parse_retry_seconds_from_error msg with
  | Some retry_s => (retry_s <= SLEEP_MAX)%Q
  | None => True
  end.


(** Nothing outside [Exception] reaches the program: the run is not
    interrupted and nothing asks the interpreter to exit. *)
Definition uninterrupted (env : Env) : Prop :=
  (forall k r lang, catchable (requests_get env k r lang)) /\
  (forall k m p e, attempt_failure (generate_content env k m p) = Some e ->
                   is_exception e = true) /\
  (forall k p f, fs_fault env k p = Some f -> is_exception (fault_exn f) = true).

(** The two files of a pair. *)
Definition original_path (env : Env) (base_dir title : str) : str :=
  path_join base_dir (slugify (alnum env) title ++ original_suffix).

Definition ia_path (env : Env) (base_dir title : str) : str :=
  path_join base_dir (slugify (alnum env) title ++ ia_suffix).

(** What [w'] keeps of [w] across a call that only touches the file system. *)
Definition save_frame (w w' : World) : Prop :=
  clock w' = clock w /\ _last_call_ts w' = _last_call_ts w /\
  n_get w' = n_get w /\ n_gen w' = n_gen w /\
  gets (trace w') = gets (trace w) /\ prompts (trace w') = prompts (trace w) /\
  gen_times (trace w') = gen_times (trace w).

(** The world once [line] has been printed. *)
Definition after_print (env : Env) (line : LogLine) (w : World) : World :=
  snd (print env line w).

(** No file of [w] is gone in [w']. *)
Definition files_kept (w w' : World) : Prop :=
  forall p, is_Some (files w !! p) -> is_Some (files w' !! p).

(** Consecutive instants of [ts] are at least [d] apart. *)
Fixpoint spaced (d : Q) (ts : list Q) : Prop :=
  match ts with
  | t1 :: rest =>
      match rest with
      | t2 :: _ => (t1 + d <= t2)%Q /\ spaced d rest
      | [] => True
      end
  | [] => True
  end.

(** The generation calls made so far are spaced by [min_interval], and
    none was issued after the timestamp the throttle recorded last. *)
Definition paced (env : Env) (w : World) : Prop :=
  spaced (min_interval env) (gen_times (trace w)) /\
  forall t, In t (gen_times (trace w)) -> (t <= _last_call_ts w)%Q.

(** ** Properties named by the specification *)

(** "The per-attempt delay doubles": each wait is twice the one before. *)
Definition doubling (ds : list Q) : Prop :=
  forall i d d', nth_error ds i = Some d -> nth_error ds (S i) = Some d' -> (d' == 2 * d)%Q.

(** The waits [wiki_request] takes after failed attempts [0 .. n-1]. *)
Definition wiki_delays (backoff : Q) (n : nat) : list Q :=
  map (fun i => Qpower backoff (Z.of_nat i + 1)) (seq 0 n).

(** The title lookup reports no page, or a missing page. *)
Definition lookup_missing (data : WikiData) : bool :=
  match d_pages data with
  | [] => true
  | page :: _ => page_is_missing page
  end.

(** The not-found error of a lookup whose search fallback found nothing. *)
Definition not_found (data : WikiData) (title : str) : exn :=
  match d_pages data with
  | [] => Exn ValueError (quoted msg_not_found title)
  | _ :: _ => Exn ValueError (quoted msg_page_not_found title)
  end.

(** "At most one search-fallback hop": the only search a resolution ever
    issues is the fallback for the topic itself. *)
Definition one_search_hop (topic : str) (tr : list Event) : Prop :=
  forall q, In q (searches tr) -> q = topic.

(** "All-or-nothing per pair": both files of the pair exist, or neither. *)
Definition all_or_nothing (fs : gmap str str) (po pi : str) : Prop :=
  (is_Some (fs !! po) /\ is_Some (fs !! pi)) \/ (fs !! po = None /\ fs !! pi = None).



(** ** Concrete environments *)

Module Scenario.

Definition ascii_alnum (c : char) : bool :=
  ((48 <=? c) && (c <=? 57) || (65 <=? c) && (c <=? 90) || (97 <=? c) && (c <=? 122))%N.

Definition world0 : World :=
  {| clock := 1700000000; _last_call_ts := 0; files := ∅; dirs := ∅;
     n_get := 0; n_gen := 0; n_io := 0; n_step := 0; trace := [] |}.

Definition timeout : exn := Exn (OtherError (lit "ConnectTimeout")) (lit "timed out").

(** An environment with the given server, model and file system, the
    throttle of the source at 15 requests per minute, steps that take no
    time and a standard output in UTF-8. *)
Definition env_with (get : nat -> Request -> str -> HttpResult)
    (gen : nat -> str -> str -> GenOutcome) (fault : nat -> str -> option Fault) : Env :=
  {| alnum := ascii_alnum; FREE_TIER_RPM := 15; ENFORCE_CLIENT_THROTTLE := true;
     requests_get := get; generate_content := gen; fs_fault := fault;
     elapsed := fun _ => 0%Q; stdout_encodes := fun _ => true; recursion_limit := 1000 |}.

(** Every GET times out, the model returns no text; no file fault. *)
Definition env_down : Env :=
  env_with (fun _ _ _ => GetRaises timeout) (fun _ _ _ => GenReturns None) (fun _ _ => None).

Definition http_error (status : Z) : exn :=
  Exn (OtherError (lit "HTTPError")) (lit "HTTP error").

Definition ok200 (d : WikiData) : HttpResult := GetReturns 200 (http_error 200) (Ok d).

Definition found (title extract : str) : WikiData :=
  {| d_pages := [ {| p_missing := None; p_pageid := Some 42%Z;
                     p_title := Some title; p_extract := Some extract |} ];
     d_titles := [] |}.

Definition missing (title : str) : WikiData :=
  {| d_pages := [ {| p_missing := Some []; p_pageid := None;
                     p_title := Some title; p_extract := None |} ];
     d_titles := [] |}.

Definition hits (titles : list str) : WikiData := {| d_pages := []; d_titles := titles |}.

(** A wiki in which "IA" is missing and searching it yields "Intelig", which
    is missing too and whose search yields "Inteligência artificial", an
    article with a body. *)
Definition two_hop_wiki (k : nat) (r : Request) (lang : str) : HttpResult :=
  match r with
  | ReqQuery t _ =>
      if decide (t = lit "IA") then ok200 (missing t)
      else if decide (t = lit "Intelig") then ok200 (missing t)
      else ok200 (found (lit "Inteligência artificial") (lit "A inteligência artificial é um campo."))
  | ReqOpenSearch q =>
      if decide (q = lit "IA") then ok200 (hits [lit "Intelig"])
      else ok200 (hits [lit "Inteligência artificial"])
  end.

Definition env_two_hops : Env :=
  env_with two_hop_wiki (fun _ _ _ => GenReturns None) (fun _ _ => None).

(** The model answers every call with a single space. *)
Definition env_blank : Env :=
  env_with (fun _ _ _ => GetRaises timeout) (fun _ _ _ => GenReturns (Some [32%N]))
           (fun _ _ => None).

Definition disk_full : Fault :=
  {| fault_exn := Exn (OtherError (lit "OSError")) (lit "No space left on device");
     fault_written := None |}.

(** The third file operation of the process (the second file of the first
    pair) fails. *)
Definition env_disk_full : Env :=
  env_with (fun _ _ _ => GetRaises timeout) (fun _ _ _ => GenReturns None)
           (fun k _ => if (k =? 2)%nat then Some disk_full else None).

(** A wiki that has every article except "Inexistente", for which the
    search finds nothing either; the model always answers. *)
Definition wiki_but_one (k : nat) (r : Request) (lang : str) : HttpResult :=
  match r with
  | ReqQuery t _ =>
      if decide (t = lit "Inexistente") then ok200 (missing t)
      else ok200 (found t (lit "Texto sobre " ++ t))
  | ReqOpenSearch _ => ok200 (hits [])
  end.

Definition env_but_one : Env :=
  env_with wiki_but_one (fun _ _ _ => GenReturns (Some (lit "Texto reescrito.")))
           (fun _ _ => None).

Definition three_topics : list str :=
  [lit "Blockchain"; lit "Inexistente"; lit "Criptografia"].




Definition two_topics : list str := [lit "Inexistente"; lit "Criptografia"].

(** The user interrupts the process during every GET. *)
Definition interrupt : exn := Exn KeyboardInterrupt [].

Definition env_interrupted : Env :=
  env_with (fun _ _ _ => GetRaises interrupt)
           (fun _ _ _ => GenReturns (Some (lit "Texto reescrito."))) (fun _ _ => None).

End Scenario.

(** ** Definitions for the further properties *)

(** [s] holds two underscores in a row. *)
Definition double_underscore (s : str) : Prop :=
  exists a b, s = a ++ [95%N; 95%N] ++ b.

(** A character that survives [slugify] as itself: alphanumeric and neither
    white space, underscore nor hyphen. *)
Definition slug_letter (alnum : char -> bool) (c : char) : bool :=
  alnum c && negb (is_space c) && negb (c =? 95)%N && negb (c =? 45)%N.

(** [last_err] after the attempts [start, start + n), from [acc]. *)
Fixpoint last_caught (f : nat -> option exn) (start n : nat) (acc : option exn)
  : option exn :=
  match n with
  | O => acc
  | S n' =>
      last_caught f (S start) n' (match f start with Some e => Some e | None => acc end)
  end.

(** A wiki in which every title is missing and every search has a hit. *)
Definition env_cycle : Env :=
  Scenario.env_with
    (fun _ _ _ =>
       Scenario.ok200
         {| d_pages := d_pages (Scenario.missing (lit "Ciclo")); d_titles := [lit "Ciclo"] |})
    (fun _ _ _ => GenReturns None) (fun _ _ => None).

(** A wiki with every article, a model that never answers, no throttle. *)
Definition env_mute : Env :=
  {| alnum := Scenario.ascii_alnum; FREE_TIER_RPM := 15; ENFORCE_CLIENT_THROTTLE := false;
     requests_get := Scenario.wiki_but_one;
     generate_content := fun _ _ _ => GenReturns None;
     fs_fault := fun _ _ => None; elapsed := fun _ => 0%Q;
     stdout_encodes := fun _ => true; recursion_limit := 1000 |}.

(** ** Model selection at start-up *)

Definition MODEL_PREF : list str :=
  Eval cbv in [lit "gemini-1.5-flash"; lit "gemini-1.5-flash-8b"; lit "gemini-1.5-pro";
               lit "gemini-pro"].

Definition msg_no_key : str :=
  Eval cbv in
    lit "Defina GEMINI_API_KEY." ++ [10%N]
    ++ lit "PowerShell: setx GEMINI_API_KEY " ++ [34%N] ++ lit "sua_chave" ++ [34%N]
    ++ lit "  (abra novo terminal)" ++ [10%N]
    ++ lit "ou na sessão atual: $env:GEMINI_API_KEY=" ++ [34%N] ++ lit "sua_chave" ++ [34%N].
Definition msg_no_model : str :=
  Eval cbv in lit "Nenhum modelo com generateContent disponível para sua conta/versão.".
Definition models_prefix : str := Eval cbv in lit "models/".
Definition generateContent : str := Eval cbv in lit "generateContent".

(** [ensure_gemini]: [api_key] is the value of the environment variable,
    [None] when it is unset. *)
Definition ensure_gemini (api_key : option str) : Result unit :=
  if falsy api_key then Raise (Exn RuntimeError msg_no_key) else Ok tt.

(** [p] is a prefix of [s]. *)
Fixpoint is_prefix (p s : str) : bool :=
  match p with
  | [] => true
  | a :: p' =>
      match s with
      | b :: s' => (a =? b)%N && is_prefix p' s'
      | [] => false
      end
  end.

(** [s.replace(old, new)] for a non-empty [old]: the occurrences of [old]
    are replaced from left to right, without overlap; [skip] counts the
    characters of the occurrence being replaced that are still to pass. *)
Fixpoint replace_from (old new : str) (skip : nat) (s : str) : str :=
  match s with
  | [] => []
  | c :: r =>
      match skip with
      | S k => replace_from old new k r
      | O =>
          if is_prefix old s then new ++ replace_from old new (length old - 1) r
          else c :: replace_from old new 0 r
      end
  end.

Definition str_replace (old new s : str) : str := replace_from old new 0 s.

(** An entry of [genai.list_models()], by the attributes the program reads;
    [None] stands for an object without [supported_generation_methods]. *)
Record ModelInfo : Type := {
  m_name : str;
  supported_generation_methods : option (list str)
}.

Definition supports_generate (m : ModelInfo) : bool :=
  match supported_generation_methods m with
  | Some methods => bool_decide (generateContent ∈ methods)
  | None => false
  end.

(** [{m.name.replace("models/", "") for m in models if supports_generate(m)}]. *)
Definition available_models (models : list ModelInfo) : gset (list N) :=
  list_to_set (map (fun m => str_replace models_prefix [] (m_name m))
                   (List.filter supports_generate models)).

(** The [for want in preferred] loop. *)
Fixpoint first_available (available : gset (list N)) (preferred : list str) : option str :=
  match preferred with
  | [] => None
  | want :: rest =>
      if bool_decide (want ∈ available) then Some want
      else first_available available rest
  end.

(** [a < b] on strings: lexicographic on code points. *)
Fixpoint str_ltb (a b : str) : bool :=
  match a, b with
  | [], [] => false
  | [], _ :: _ => true
  | _ :: _, [] => false
  | x :: a', y :: b' =>
      if (x <? y)%N then true else if (y <? x)%N then false else str_ltb a' b'
  end.

Definition str_min (a b : str) : str := if str_ltb b a then b else a.

(** [sorted(l)[0]] for a non-empty list. *)
Definition least (l : list str) : option str :=
  match l with
  | [] => None
  | x :: r => Some (fold_left str_min r x)
  end.

Definition pick_available_model (models : list ModelInfo) (preferred : list str)
  : Result str :=
  let available := available_models models in
  match first_available available preferred with
  | Some want => Ok want
  | None =>
      match least (elements available) with
      | Some m => Ok m
      | None => Raise (Exn RuntimeError msg_no_model)
      end
  end.

(** The first two lines of [main]: the credential check, then the choice of
    the model among those the account lists. *)
Definition select_model (api_key : option str) (models : list ModelInfo) : Result str :=
  match ensure_gemini api_key with
  | Raise e => Raise e
  | Ok _ => pick_available_model models MODEL_PREF
  end.

(** The account of the example: one usable preferred model among others. *)
Definition some_models : list ModelInfo :=
  [ {| m_name := lit "models/embedding-001";
       supported_generation_methods := Some [lit "embedContent"] |};
    {| m_name := lit "models/gemini-pro";
       supported_generation_methods := Some [lit "generateContent"; lit "countTokens"] |};
    {| m_name := lit "models/aqa";
       supported_generation_methods := Some [lit "generateAnswer"] |};
    {| m_name := lit "models/gemini-2.0-flash";
       supported_generation_methods := Some [lit "generateContent"] |} ].

(** ** The consumer's key ([modelo.py]) *)

(** [os.path.basename] with "/" as the separator. *)
Definition basename (p : str) : str :=
  rev (fst (span (fun c => negb (c =? 47)%N) (rev p))).

(** [base_key] of the training script: the file name without the two
    suffixes of the naming convention. *)
Definition base_key (p : str) : str :=
  str_replace ia_suffix [] (str_replace original_suffix [] (basename p)).

(** The waits taken after failed generation attempts: the sleeps that come
    right after a retry line. [announced] tells that the event before [tr]
    was a retry line. *)
Fixpoint retry_sleeps (announced : bool) (tr : list Event) : list Q :=
  match tr with
  | [] => []
  | EvPrint (LogRetry _ _ _ _) :: rest => retry_sleeps true rest
  | EvSleep d :: rest =>
      if announced then d :: retry_sleeps false rest else retry_sleeps false rest
  | _ :: rest => retry_sleeps false rest
  end.

(** ** Vocabulary of the proofs *)

(** [m] takes every world to a world related to it by [R], whatever its
    outcome. *)
Definition always {A} (R : relation World) (m : M A) : Prop :=
  forall w r w', m w = (r, w') -> R w w'.

(** What [print] and [time.sleep] keep: all but the clock and the trace
    of what was printed and slept. *)
Definition quiet (w w' : World) : Prop :=
  _last_call_ts w' = _last_call_ts w /\ files w' = files w /\ dirs w' = dirs w /\
  n_get w' = n_get w /\ n_gen w' = n_gen w /\ n_io w' = n_io w /\
  gets (trace w') = gets (trace w) /\ prompts (trace w') = prompts (trace w) /\
  gen_times (trace w') = gen_times (trace w).

(** The clock has not moved back. *)
Definition later (w w' : World) : Prop := (clock w <= clock w')%Q.

(** [w'] keeps the property [P] of [w]. *)
Definition keeps (P : World -> Prop) (w w' : World) : Prop := P w -> P w'.

(** Whatever [m] raises is an instance of [Exception]. *)
Definition raises_exceptions {A} (m : M A) : Prop :=
  forall w e w', m w = (Raise e, w') -> is_exception e = true.

(** The world after a step that takes [extra] more than its own duration,
    after an event, and after the timestamp is set to the clock. *)
Definition tick (env : Env) (extra : Q) (w : World) : World := snd (pass_time env extra w).
Definition note (ev : Event) (w : World) : World := snd (emit ev w).
Definition stamp (w : World) : World := snd (set_last_call_ts (clock w) w).

(** * Properties *)

(** ** Character classes and scanning *)

Ltac bool_to_prop H :=
  repeat first
    [ rewrite orb_true_iff in H | rewrite andb_true_iff in H
    | rewrite N.leb_le in H | rewrite N.eqb_eq in H ].

Lemma digit_not_space c : is_digit c = true -> is_space c = false.
Proof.
  unfold is_digit, is_space. intros H. apply not_true_is_false. intros H'.
  bool_to_prop H. bool_to_prop H'. lia.
Qed.

Lemma ci_s_cases c : ci_eq 115%N c = true -> c = 115%N \/ c = 83%N \/ c = 383%N.
Proof.
  unfold ci_eq, ascii_lower. intros H.
  destruct ((65 <=? c)%N && (c <=? 90)%N) eqn:E; bool_to_prop H; bool_to_prop E; lia.
Qed.

Lemma ci_s_not_digit c : ci_eq 115%N c = true -> is_digit c = false.
Proof. intros H. destruct (ci_s_cases c H) as [-> | [-> | ->]]; reflexivity. Qed.

Lemma ci_s_not_dot c : ci_eq 115%N c = true -> (c =? 46)%N = false.
Proof. intros H. destruct (ci_s_cases c H) as [-> | [-> | ->]]; reflexivity. Qed.

Lemma span_app p a rest :
  all p a ->
  match rest with [] => True | x :: _ => p x = false end ->
  span p (a ++ rest) = (a, rest).
Proof.
  intros Ha Hr. induction Ha as [| c a Hc Ha IH]; simpl.
  - destruct rest as [| x rest]; [reflexivity |]. simpl. now rewrite Hr.
  - rewrite Hc, IH. reflexivity.
Qed.

Lemma span_spec p s a b :
  span p s = (a, b) ->
  s = a ++ b /\ all p a /\ match b with [] => True | x :: _ => p x = false end.
Proof.
  revert a b. induction s as [| c s IH]; simpl; intros a b H.
  - injection H as <- <-. repeat split. constructor.
  - destruct (p c) eqn:Hc.
    + destruct (span p s) as [a' b'] eqn:E. injection H as <- <-.
      destruct (IH a' b' eq_refl) as (-> & Ha & Hb).
      repeat split; [constructor; assumption | assumption].
    + injection H as <- <-. repeat split; [constructor | assumption].
Qed.

Lemma match_lit_spec pat s r :
  match_lit pat s = Some r <-> exists w, ci_word pat w /\ s = w ++ r.
Proof.
  revert s. induction pat as [| p pat IH]; simpl; intros s.
  - split.
    + intros [= ->]. exists []. split; [constructor | reflexivity].
    + intros (w & Hw & ->). inversion Hw. reflexivity.
  - destruct s as [| c s].
    + split; [discriminate |]. intros (w & Hw & E). inversion Hw; subst. discriminate.
    + destruct (ci_eq p c) eqn:Hc.
      * rewrite IH. split.
        -- intros (w & Hw & ->). exists (c :: w). split; [constructor; assumption | reflexivity].
        -- intros (w & Hw & E). inversion Hw; subst. injection E as -> ->. eauto.
      * split; [discriminate |]. intros (w & Hw & E). inversion Hw; subst.
        injection E as -> ->. congruence.
Qed.

Lemma numeral_head_digit g rest :
  numeral g -> exists d tl, g ++ rest = d :: tl /\ is_digit d = true.
Proof.
  intros [ds Hne Hds | ds fs Hne _ Hds _]; destruct Hds as [| d ds' Hd _];
    try congruence; simpl; eauto.
Qed.

Lemma match_here_sound s g : match_here s = Some g -> hint_at s g.
Proof.
  unfold match_here. destruct (match_lit kw s) as [s1 |] eqn:Hkw; [| discriminate].
  apply match_lit_spec in Hkw. destruct Hkw as (w & Hw & ->).
  destruct (span is_space s1) as [ws s2] eqn:Hws.
  destruct (span is_digit s2) as [ds s3] eqn:Hds.
  apply span_spec in Hws. destruct Hws as (-> & Hws & _).
  apply span_spec in Hds. destruct Hds as (-> & Hds & _).
  destruct ws as [| w0 ws]; [discriminate |].
  destruct ds as [| d0 ds]; [discriminate |].
  destruct s3 as [| c s4]; [discriminate |].
  destruct (c =? 46)%N eqn:Hdot.
  - apply N.eqb_eq in Hdot. subst c.
    destruct (span is_digit s4) as [fs s5] eqn:Hfs.
    apply span_spec in Hfs. destruct Hfs as (-> & Hfs & _).
    destruct fs as [| f0 fs]; [discriminate |].
    destruct s5 as [| c' rest]; [discriminate |].
    destruct (ci_eq 115%N c') eqn:Hc; [| discriminate].
    intros [= <-]. exists w, (w0 :: ws), c', rest.
    repeat split; try assumption; try discriminate.
    + apply (numeral_frac (d0 :: ds) (f0 :: fs)); try assumption; discriminate.
    + simpl. now rewrite <- app_assoc.
  - destruct (ci_eq 115%N c) eqn:Hc; [| discriminate].
    intros [= <-]. exists w, (w0 :: ws), c, s4.
    repeat split; try assumption; try discriminate.
    apply (numeral_int (d0 :: ds)); [discriminate | assumption].
Qed.

Lemma match_here_complete s g : hint_at s g -> match_here s = Some g.
Proof.
  intros (w & ws & c & rest & Hw & Hne & Hws & Hg & Hc & ->).
  unfold match_here.
  assert (Hkw : match_lit kw (w ++ ws ++ g ++ c :: rest) = Some (ws ++ g ++ c :: rest))
    by (apply match_lit_spec; eauto).
  rewrite Hkw.
  destruct (numeral_head_digit g (c :: rest) Hg) as (d & tl & Hd & Hdig).
  rewrite (span_app is_space ws (g ++ c :: rest) Hws)
    by (rewrite Hd; now apply digit_not_space).
  destruct ws as [| w0 ws]; [congruence |].
  destruct Hg as [ds Hds0 Hds | ds fs Hds0 Hfs0 Hds Hfs].
  - rewrite (span_app is_digit ds (c :: rest) Hds) by now apply ci_s_not_digit.
    destruct ds as [| d0 ds]; [congruence |].
    now rewrite (ci_s_not_dot c Hc), Hc.
  - rewrite <- app_assoc, <- app_comm_cons.
    rewrite (span_app is_digit ds (46%N :: fs ++ c :: rest) Hds) by reflexivity.
    destruct ds as [| d0 ds]; [congruence |].
    change (46 =? 46)%N with true. cbv iota.
    rewrite (span_app is_digit fs (c :: rest) Hfs) by now apply ci_s_not_digit.
    destruct fs as [| f0 fs]; [congruence |].
    now rewrite Hc.
Qed.

Lemma match_here_nil : match_here [] = None.
Proof. reflexivity. Qed.

Lemma re_search_unfold s :
  re_search s =
  match match_here s with
  | Some g => Some g
  | None => match s with [] => None | _ :: r => re_search r end
  end.
Proof. destruct s; reflexivity. Qed.

Lemma re_search_first s g : re_search s = Some g <-> first_hint s g.
Proof.
  split.
  - induction s as [| c r IH]; rewrite re_search_unfold.
    + rewrite match_here_nil. discriminate.
    + destruct (match_here (c :: r)) as [g' |] eqn:Hm.
      * intros [= ->]. exists [], (c :: r). repeat split.
        -- now apply match_here_sound.
        -- simpl. intros; lia.
      * intros H. destruct (IH H) as (pre & suf & -> & Hat & Hleft).
        exists (c :: pre), suf. repeat split; [assumption |].
        intros [| c' pre'] suf' g' E Hlen Hat'.
        -- simpl in E. subst suf'. apply match_here_complete in Hat'. congruence.
        -- injection E as <- E. simpl in Hlen. apply (Hleft pre' suf' g' E); [lia | assumption].
  - intros (pre & suf & -> & Hat & Hleft).
    induction pre as [| c pre IH]; rewrite re_search_unfold.
    + simpl. now rewrite (match_here_complete _ _ Hat).
    + destruct (match_here ((c :: pre) ++ suf)) as [g' |] eqn:Hm.
      * exfalso. apply (Hleft [] ((c :: pre) ++ suf) g' eq_refl); [simpl; lia |].
        now apply match_here_sound.
      * simpl. apply IH. intros pre' suf' g' E Hlen.
        apply (Hleft (c :: pre') suf' g'); [simpl; congruence | simpl; lia].
Qed.

Lemma re_search_none s : re_search s = None <-> no_hint s.
Proof.
  split.
  - induction s as [| c r IH]; rewrite re_search_unfold; intros H pre suf g E Hat.
    + destruct pre; [| discriminate]. simpl in E. subst suf.
      apply match_here_complete in Hat. discriminate.
    + destruct (match_here (c :: r)) eqn:Hm; [discriminate |].
      destruct pre as [| c' pre].
      * simpl in E. subst suf. apply match_here_complete in Hat. congruence.
      * injection E as <- E. exact (IH H pre suf g E Hat).
  - intros Hno. destruct (re_search s) as [g |] eqn:E; [| reflexivity].
    apply re_search_first in E. destruct E as (pre & suf & E & Hat & _).
    destruct (Hno pre suf g E Hat).
Qed.

(** ** The value of a numeral *)

Lemma all_forallb p s : all p s -> forallb p s = true.
Proof. intros H. induction H as [| c s Hc _ IH]; simpl; [reflexivity | now rewrite Hc]. Qed.

Lemma fold_digits fs a :
  fold_left (fun acc c => (acc * 10 + (c - 48))%N) fs a
  = (a * 10 ^ N.of_nat (length fs) + digits_val fs)%N.
Proof.
  unfold digits_val. revert a. induction fs as [| f fs IH]; intros a.
  - simpl. lia.
  - cbn [fold_left length].
    rewrite (IH (a * 10 + (f - 48))%N), (IH (0 * 10 + (f - 48))%N).
    rewrite Nat2N.inj_succ, N.pow_succ_r'. lia.
Qed.

Lemma digits_val_app ds fs :
  digits_val (ds ++ fs) = (digits_val ds * 10 ^ N.of_nat (length fs) + digits_val fs)%N.
Proof. unfold digits_val at 1. rewrite fold_left_app. apply fold_digits. Qed.

Lemma py_float_int ds :
  ds <> [] -> all is_digit ds ->
  py_float ds = Some (Z.of_N (digits_val ds) # 1).
Proof.
  intros Hne Hds. unfold py_float.
  rewrite <- (app_nil_r ds) at 1. rewrite (span_app is_digit ds [] Hds I).
  destruct ds; [congruence | reflexivity].
Qed.

Lemma py_float_frac ds fs :
  ds <> [] -> fs <> [] -> all is_digit ds -> all is_digit fs ->
  py_float (ds ++ 46%N :: fs)
  = Some (Z.of_N (digits_val (ds ++ fs)) # Pos.pow 10 (Pos.of_nat (length fs))).
Proof.
  intros Hne Hnf Hds Hfs. unfold py_float.
  rewrite (span_app is_digit ds (46%N :: fs) Hds) by reflexivity.
  destruct ds as [| d ds]; [congruence |].
  change (46 =? 46)%N with true. rewrite (all_forallb _ _ Hfs).
  destruct fs; [congruence | reflexivity].
Qed.

Lemma pow10_pos n : Z.pos (Pos.pow 10 (Pos.of_nat (S n))) = (10 ^ Z.of_nat (S n))%Z.
Proof.
  rewrite Pos2Z.inj_pow. f_equal.
  rewrite <- (Nat2Pos.id (S n)) at 2 by discriminate.
  now rewrite positive_nat_Z.
Qed.

Lemma frac_value ds fs :
  fs <> [] ->
  (Z.of_N (digits_val (ds ++ fs)) # Pos.pow 10 (Pos.of_nat (length fs))
   == numeral_value ds fs)%Q.
Proof.
  intros Hnf. unfold numeral_value. rewrite digits_val_app.
  destruct fs as [| f fs]; [congruence |].
  set (n := length (f :: fs)). assert (Hn : n = S (length fs)) by reflexivity.
  unfold Qeq, Qplus, inject_Z. cbn [Qnum Qden].
  rewrite Hn, pow10_pos, N2Z.inj_add, N2Z.inj_mul, N2Z.inj_pow, nat_N_Z.
  change (Z.of_N 10) with 10%Z.
  rewrite Pos2Z.inj_mul, pow10_pos. ring.
Qed.

Lemma py_float_denotes g :
  numeral g -> exists v, py_float g = Some v /\ denotes g v.
Proof.
  intros [ds Hne Hds | ds fs Hne Hnf Hds Hfs].
  - eexists. split; [now apply py_float_int |].
    apply denotes_int; try assumption. reflexivity.
  - eexists. split; [now apply py_float_frac |].
    apply denotes_frac; try assumption. now apply frac_value.
Qed.

Lemma first_hint_numeral msg g : first_hint msg g -> numeral g.
Proof. intros (pre & suf & _ & (w & ws & c & rest & _ & _ & _ & Hg & _) & _). exact Hg. Qed.

Lemma hint_or_not msg : (exists g, first_hint msg g) \/ no_hint msg.
Proof.
  destruct (re_search msg) as [g |] eqn:E.
  - left. exists g. now apply re_search_first.
  - right. now apply re_search_none.
Qed.

(** ** The retry delay *)

(** C1. For every error text and attempt number, the delay chosen after a
    failed generation attempt is the first "retry in <seconds>s" hint of
    the text when there is one, with the value its numeral denotes, and
    [min(2^(attempt-1), 60)] only when the text holds no such hint; every
    text falls in exactly one of the two cases. *)
Theorem retry_delay_hint_first (msg : str) (attempt : Z) :
  (forall g, first_hint msg g -> denotes g (retry_delay msg attempt))
  /\ (no_hint msg -> retry_delay msg attempt = Qmin (Qpower 2 (attempt - 1)) 60)
  /\ ((exists g, first_hint msg g) \/ no_hint msg)
  /\ ~ ((exists g, first_hint msg g) /\ no_hint msg).
Proof.
  unfold retry_delay, _parse_retry_seconds_from_error. repeat split.
  - intros g Hg. pose proof (first_hint_numeral _ _ Hg) as Hn.
    apply re_search_first in Hg. rewrite Hg.
    destruct (py_float_denotes g Hn) as (v & -> & Hv). exact Hv.
  - intros Hno. apply re_search_none in Hno. now rewrite Hno.
  - apply hint_or_not.
  - intros [(g & pre & suf & E & Hat & _) Hno]. exact (Hno pre suf g E Hat).
Qed.

Example retry_delay_hint_12_5 :
  (retry_delay (lit "429 Quota exceeded. Please retry in 12.5s.") 3 == 12.5)%Q.
Proof. vm_compute. reflexivity. Qed.

Example retry_delay_backoff_1_2_3 :
  map (retry_delay (lit "Resposta vazia do modelo.")) [1; 2; 3; 4; 5; 6; 7; 8]%Z
  = [1; 2; 4; 8; 16; 32; 60; 60]%Q.
Proof. vm_compute. reflexivity. Qed.

(** ** Running the monad *)

Lemma bind_ok {A B} (m : M A) (k : A -> M B) w a w' :
  m w = (Ok a, w') -> bind m k w = k a w'.
Proof. intros H. unfold bind. now rewrite H. Qed.

Lemma bind_raise {A B} (m : M A) (k : A -> M B) w e w' :
  m w = (Raise e, w') -> bind m k w = (Raise e, w').
Proof. intros H. unfold bind. now rewrite H. Qed.


Lemma try_caught {A} (body : M A) handler w e w' :
  body w = (Raise e, w') -> is_exception e = true ->
  try_except body handler w = handler e w'.
Proof. intros H He. unfold try_except. now rewrite H, He. Qed.

Lemma try_passed {A} (body : M A) handler w e w' :
  body w = (Raise e, w') -> is_exception e = false ->
  try_except body handler w = (Raise e, w').
Proof. intros H He. unfold try_except. now rewrite H, He. Qed.

Lemma gets_app t1 t2 : gets (t1 ++ t2) = gets t1 ++ gets t2.
Proof. apply flat_map_app. Qed.

Lemma prompts_app t1 t2 : prompts (t1 ++ t2) = prompts t1 ++ prompts t2.
Proof. apply flat_map_app. Qed.

Lemma sleeps_app t1 t2 : sleeps (t1 ++ t2) = sleeps t1 ++ sleeps t2.
Proof. apply flat_map_app. Qed.

Lemma log_app t1 t2 : log (t1 ++ t2) = log t1 ++ log t2.
Proof. apply flat_map_app. Qed.

Lemma gen_times_app t1 t2 : gen_times (t1 ++ t2) = gen_times t1 ++ gen_times t2.
Proof. apply flat_map_app. Qed.

Lemma searches_app t1 t2 : searches (t1 ++ t2) = searches t1 ++ searches t2.
Proof. unfold searches. rewrite gets_app. apply flat_map_app. Qed.

(** ** Printing and sleeping *)

Lemma printable_any env line : stdout_any env -> printable env line = true.
Proof. intros H. unfold printable. apply forallb_forall. intros c _. apply H. Qed.

Lemma print_ok env line w :
  printable env line = true -> print env line w = emit (EvPrint line) w.
Proof. intros H. unfold print. now rewrite H. Qed.

Lemma print_refused env line w :
  printable env line = false -> print env line w = (Raise encode_error, w).
Proof. intros H. unfold print. now rewrite H. Qed.

Lemma throttle_line_printable env wait_s rpm : printable env (LogThrottle wait_s rpm) = true.
Proof. reflexivity. Qed.

Lemma sleep_accepts secs :
  (0 <= secs)%Q -> (secs <= SLEEP_MAX)%Q -> sleep_error secs = None.
Proof.
  intros H0 Hmax. unfold sleep_error.
  assert (H1 : Qle_bool (- SLEEP_MAX) secs = true).
  { apply Qle_bool_iff. assert (- SLEEP_MAX <= 0)%Q by (vm_compute; discriminate). lra. }
  assert (H2 : Qle_bool secs SLEEP_MAX = true) by now apply Qle_bool_iff.
  assert (H3 : Qle_bool 0 secs = true) by now apply Qle_bool_iff.
  now rewrite H1, H2, H3.
Qed.

Lemma sleep_accepted secs :
  sleep_error secs = None -> (0 <= secs)%Q /\ (secs <= SLEEP_MAX)%Q.
Proof.
  unfold sleep_error.
  destruct (Qle_bool (- SLEEP_MAX) secs) eqn:H1; [| discriminate].
  destruct (Qle_bool secs SLEEP_MAX) eqn:H2; [| discriminate].
  destruct (Qle_bool 0 secs) eqn:H3; [| discriminate].
  intros _. split; now apply Qle_bool_iff.
Qed.

Lemma sleep_refuses secs :
  (SLEEP_MAX < secs)%Q -> sleep_error secs = Some (Exn OverflowError msg_sleep_overflow).
Proof.
  intros H. unfold sleep_error.
  assert (H2 : Qle_bool secs SLEEP_MAX = false).
  { destruct (Qle_bool secs SLEEP_MAX) eqn:E; [| reflexivity].
    apply Qle_bool_iff in E. lra. }
  now rewrite H2, andb_false_r.
Qed.

Lemma sleep_error_exception secs e : sleep_error secs = Some e -> is_exception e = true.
Proof.
  unfold sleep_error.
  destruct (Qle_bool (- SLEEP_MAX) secs && Qle_bool secs SLEEP_MAX);
    [destruct (Qle_bool 0 secs) |]; intros [= <-]; reflexivity.
Qed.

Lemma time_sleep_ok env secs w :
  sleep_error secs = None ->
  time_sleep env secs w = (emit (EvSleep secs) ;; pass_time env secs) w.
Proof. intros H. unfold time_sleep. now rewrite H. Qed.

(** The delays of the default backoff of [wiki_request] are accepted. *)
Lemma default_delays_accepted i :
  (i < default_retries)%nat -> sleep_error (Qpower default_backoff (Z.of_nat i + 1)) = None.
Proof.
  intros Hi. unfold default_retries in Hi.
  destruct i as [| [| [| i]]]; [reflexivity | reflexivity | reflexivity | lia].
Qed.

(** ** What a call leaves unchanged *)

Lemma always_ret (R : relation World) `{!PreOrder R} {A} (a : A) : always R (ret a).
Proof. intros w r w' [= _ <-]. reflexivity. Qed.

Lemma always_raise (R : relation World) `{!PreOrder R} {A} e : always R (@raise A e).
Proof. intros w r w' [= _ <-]. reflexivity. Qed.

Lemma always_bind (R : relation World) `{!PreOrder R} {A B} (m : M A) (k : A -> M B) :
  always R m -> (forall a, always R (k a)) -> always R (bind m k).
Proof.
  intros Hm Hk w r w' H. unfold bind in H.
  destruct (m w) as [[a | e] w1] eqn:E; pose proof (Hm _ _ _ E) as H1.
  - etransitivity; [exact H1 |]. exact (Hk a _ _ _ H).
  - now injection H as _ <-.
Qed.

Lemma always_try (R : relation World) `{!PreOrder R} {A} (body : M A) handler :
  always R body -> (forall e, always R (handler e)) -> always R (try_except body handler).
Proof.
  intros Hb Hh w r w' H. unfold try_except in H.
  destruct (body w) as [[a | e] w1] eqn:E; pose proof (Hb _ _ _ E) as H1.
  - now injection H as _ <-.
  - destruct (is_exception e).
    + etransitivity; [exact H1 |]. exact (Hh e _ _ _ H).
    + now injection H as _ <-.
Qed.

Lemma always_lift (R : relation World) `{!PreOrder R} {A} (r : Result A) : always R (lift_result r).
Proof. destruct r; [exact (always_ret R _) | exact (always_raise R _)]. Qed.

Lemma always_status (R : relation World) `{!PreOrder R} st err : always R (raise_for_status st err).
Proof.
  unfold raise_for_status.
  destruct (_ && _); [exact (always_raise R _) | exact (always_ret R _)].
Qed.

Lemma always_weaken {A} (R R' : relation World) (m : M A) :
  (forall w w', R w w' -> R' w w') -> always R m -> always R' m.
Proof. intros HR Hm w r w' H. apply HR. exact (Hm _ _ _ H). Qed.

#[export] Instance wiki_frame_preorder : PreOrder wiki_frame.
Proof. split; [intros w; repeat split | intros a b c; unfold wiki_frame; intuition congruence]. Qed.

#[export] Instance gen_frame_preorder : PreOrder gen_frame.
Proof. split; [intros w; repeat split | intros a b c; unfold gen_frame; intuition congruence]. Qed.

#[export] Instance save_frame_preorder : PreOrder save_frame.
Proof. split; [intros w; repeat split | intros a b c; unfold save_frame; intuition congruence]. Qed.

#[export] Instance quiet_preorder : PreOrder quiet.
Proof. split; [intros w; repeat split | intros a b c; unfold quiet; intuition congruence]. Qed.

#[export] Instance files_kept_preorder : PreOrder files_kept.
Proof. split; [intros w p H; exact H | intros a b c H1 H2 p H; apply H2, H1, H]. Qed.

#[export] Instance later_preorder : PreOrder later.
Proof. split; [intros w; apply Qle_refl | intros a b c; unfold later; apply Qle_trans]. Qed.

#[export] Instance keeps_preorder P : PreOrder (keeps P).
Proof. split; [intros w H; exact H | intros a b c H1 H2 H; apply H2, H1, H]. Qed.

Lemma files_kept_eq w w' : files w' = files w -> files_kept w w'.
Proof. intros E p H. now rewrite E. Qed.

Lemma is_Some_insert (fs : gmap (list N) (list N)) p q v :
  is_Some (fs !! p) -> is_Some (<[q := v]> fs !! p).
Proof.
  intros H. destruct (decide (q = p)) as [-> | Hne].
  - rewrite lookup_insert_eq. eauto.
  - now rewrite lookup_insert_ne.
Qed.

(** A step of the program on the world, run to its outcome. *)
Ltac run_primitive H :=
  cbv beta iota delta [print time_sleep time_time http_get model_generate next_fault
                         put_file put_dir set_last_call_ts get_last_call_ts pass_time
                         emit bind ret raise] in H;
  repeat match type of H with
         | context [if printable ?e ?l then _ else _] => destruct (printable e l)
         | context [match sleep_error ?s with _ => _ end] =>
             let E := fresh "Esleep" in destruct (sleep_error s) eqn:E
         end;
  injection H as <- <-;
  cbn [clock _last_call_ts files dirs n_get n_gen n_io n_step trace].

Ltac frame_of_primitive :=
  let H := fresh "H" in
  intros ? ? ? H; run_primitive H;
  unfold wiki_frame, gen_frame, save_frame, quiet;
  cbn [clock _last_call_ts files dirs n_get n_gen n_io n_step trace];
  rewrite ?gets_app, ?prompts_app, ?gen_times_app, ?log_app; cbn;
  rewrite ?app_nil_r; repeat split.

Lemma print_quiet env line : always quiet (print env line).
Proof. frame_of_primitive. Qed.

Lemma sleep_quiet env secs : always quiet (time_sleep env secs).
Proof. frame_of_primitive. Qed.

Lemma http_get_wiki env params lang : always wiki_frame (http_get env params lang).
Proof. frame_of_primitive. Qed.

Lemma sleep_wiki env secs : always wiki_frame (time_sleep env secs).
Proof. frame_of_primitive. Qed.

Lemma generate_gen env model_name prompt : always gen_frame (model_generate env model_name prompt).
Proof. frame_of_primitive. Qed.

Lemma next_fault_save env path : always save_frame (next_fault env path).
Proof. frame_of_primitive. Qed.

Lemma put_dir_save path : always save_frame (put_dir path).
Proof. frame_of_primitive. Qed.

Lemma put_file_save path content : always save_frame (put_file path content).
Proof. frame_of_primitive. Qed.

Lemma print_save env line : always save_frame (print env line).
Proof. frame_of_primitive. Qed.

Lemma quiet_gen w w' : quiet w w' -> gen_frame w w'.
Proof. unfold quiet, gen_frame. tauto. Qed.

Lemma quiet_files w w' : quiet w w' -> files w' = files w.
Proof. unfold quiet. tauto. Qed.

(** The clock under a steady environment. *)
Lemma print_later env line : always later (print env line).
Proof. intros w r w' H. run_primitive H; apply Qle_refl. Qed.

Lemma sleep_later env secs : steady env -> always later (time_sleep env secs).
Proof.
  intros Hs w r w' H. run_primitive H; unfold later; cbn [clock]; [apply Qle_refl |].
  apply sleep_accepted in Esleep. pose proof (Hs (n_step w)). lra.
Qed.

Lemma http_get_later env params lang : steady env -> always later (http_get env params lang).
Proof.
  intros Hs w r w' H. run_primitive H. unfold later. cbn [clock].
  pose proof (Hs (n_step w)). lra.
Qed.

(** ** [wiki_request] *)

Lemma wiki_attempt_frame env params lang backoff i :
  always wiki_frame (wiki_attempt env params lang backoff i).
Proof.
  unfold wiki_attempt. apply (always_try wiki_frame).
  - apply (always_bind wiki_frame); [apply http_get_wiki |].
    intros [e | st err json]; [exact (always_raise _ _) |].
    destruct (st =? 403)%Z.
    + apply (always_bind wiki_frame); [apply sleep_wiki | intros; exact (always_ret _ _)].
    + apply (always_bind wiki_frame); [exact (always_status _ _ _) | intros _].
      apply (always_bind wiki_frame); [exact (always_lift _ _) | intros; exact (always_ret _ _)].
  - intros e. apply (always_bind wiki_frame); [apply sleep_wiki | intros; exact (always_ret _ _)].
Qed.

Lemma wiki_loop_frame env params lang retries backoff range :
  forall last_err, always wiki_frame (wiki_loop env params lang retries backoff range last_err).
Proof.
  induction range as [| i rest IH]; intros last_err; cbn [wiki_loop].
  - exact (always_raise _ _).
  - apply (always_bind wiki_frame); [apply wiki_attempt_frame |].
    intros [d | | e]; [exact (always_ret _ _) | apply IH | apply IH].
Qed.

Lemma wiki_request_frame env params lang retries backoff :
  always wiki_frame (wiki_request env params lang retries backoff).
Proof. apply wiki_loop_frame. Qed.

Lemma wiki_attempt_ok env params lang backoff i w d :
  attempt_data (requests_get env (n_get w) params lang) = Some d ->
  exists w',
    wiki_attempt env params lang backoff i w = (Ok (Return d), w') /\
    n_get w' = S (n_get w) /\ trace w' = trace w ++ [EvGet params lang].
Proof.
  unfold wiki_attempt, try_except, http_get, bind, emit, pass_time, attempt_data,
    raise_for_status. cbn [clock _last_call_ts files dirs n_get n_gen n_io n_step trace].
  destruct (requests_get env (n_get w) params lang) as [e | st err [d' | e]];
    try discriminate;
    (destruct (st =? 403)%Z; cbn [orb]; [discriminate |]);
    (destruct ((400 <=? st)%Z && (st <? 600)%Z); [discriminate |]);
    try discriminate.
  intros [= ->]. eexists. split; [reflexivity |]. split; reflexivity.
Qed.

Lemma wiki_attempt_retry env params lang backoff i w :
  attempt_data (requests_get env (n_get w) params lang) = None ->
  catchable (requests_get env (n_get w) params lang) ->
  sleep_error (Qpower backoff (Z.of_nat i + 1)) = None ->
  exists w',
    wiki_attempt env params lang backoff i w
    = (Ok (match attempt_error (requests_get env (n_get w) params lang) with
           | Some e => Caught e
           | None => Continue
           end), w') /\
    n_get w' = S (n_get w) /\ trace w' = trace w ++ failed_gets params lang backoff [i].
Proof.
  unfold failed_gets, wiki_attempt. cbn [flat_map app].
  generalize (Qpower backoff (Z.of_nat i + 1)) as d. intros d Hd Hc Hs.
  unfold try_except, http_get, bind, emit, pass_time, raise_for_status, time_sleep.
  rewrite Hs.
  cbn [clock _last_call_ts files dirs n_get n_gen n_io n_step trace].
  unfold catchable, attempt_error in Hc. unfold attempt_data in Hd. unfold attempt_error.
  destruct (requests_get env (n_get w) params lang) as [e | st err [d' | e]].
  - unfold raise. rewrite (Hc e eq_refl). unfold bind, emit, pass_time, ret.
    cbn [clock _last_call_ts files dirs n_get n_gen n_io n_step trace].
    eexists. split; [reflexivity |]. split; [reflexivity |]. now rewrite <- app_assoc.
  - destruct (st =? 403)%Z.
    + unfold bind, emit, pass_time, ret.
      cbn [clock _last_call_ts files dirs n_get n_gen n_io n_step trace].
      eexists. split; [reflexivity |]. split; [reflexivity |]. now rewrite <- app_assoc.
    + cbn [orb] in Hd. destruct ((400 <=? st)%Z && (st <? 600)%Z); [| discriminate].
      unfold raise. rewrite (Hc err eq_refl). unfold bind, emit, pass_time, ret.
      cbn [clock _last_call_ts files dirs n_get n_gen n_io n_step trace].
      eexists. split; [reflexivity |]. split; [reflexivity |]. now rewrite <- app_assoc.
  - destruct (st =? 403)%Z.
    + unfold bind, emit, pass_time, ret.
      cbn [clock _last_call_ts files dirs n_get n_gen n_io n_step trace].
      eexists. split; [reflexivity |]. split; [reflexivity |]. now rewrite <- app_assoc.
    + destruct ((400 <=? st)%Z && (st <? 600)%Z).
      * unfold raise. rewrite (Hc err eq_refl). unfold bind, emit, pass_time, ret.
        cbn [clock _last_call_ts files dirs n_get n_gen n_io n_step trace].
        eexists. split; [reflexivity |]. split; [reflexivity |]. now rewrite <- app_assoc.
      * unfold ret, lift_result, raise.
        cbn [clock _last_call_ts files dirs n_get n_gen n_io n_step trace].
        rewrite (Hc e eq_refl). unfold bind, emit, pass_time, ret.
        cbn [clock _last_call_ts files dirs n_get n_gen n_io n_step trace].
        eexists. split; [reflexivity |]. split; [reflexivity |]. now rewrite <- app_assoc.
Qed.

Lemma first_some_bounds {A} (f : nat -> option A) start n i a :
  first_some f start n = Some (i, a) ->
  (start <= i < start + n)%nat /\ f i = Some a /\
  forall j, (start <= j < i)%nat -> f j = None.
Proof.
  revert start. induction n as [| n IH]; intros start; simpl; [discriminate |].
  destruct (f start) as [a' |] eqn:E.
  - intros [= <- <-]. split; [lia |]. split; [assumption |]. intros j Hj; lia.
  - intros H. destruct (IH _ H) as (Hi & Hf & Hnone).
    split; [lia |]. split; [assumption |]. intros j Hj. destruct (Nat.eq_dec j start) as [-> | Hne]; [assumption |].
    apply Hnone; lia.
Qed.


Lemma failed_gets_app params lang backoff r1 r2 :
  failed_gets params lang backoff (r1 ++ r2)
  = failed_gets params lang backoff r1 ++ failed_gets params lang backoff r2.
Proof. apply flat_map_app. Qed.

Lemma wiki_loop_spec env params lang retries backoff base n :
  forall a last_err w,
    n_get w = (base + a)%nat ->
    (forall i, (a <= i < a + n)%nat -> catchable (requests_get env (base + i) params lang)) ->
    (forall i, (a <= i < a + n)%nat -> sleep_error (Qpower backoff (Z.of_nat i + 1)) = None) ->
    exists r w',
      wiki_loop env params lang retries backoff (seq a n) last_err w = (r, w') /\
      match first_some (fun i => attempt_data (requests_get env (base + i) params lang)) a n with
      | Some (i, d) =>
          r = Ok d /\ n_get w' = (base + S i)%nat /\
          trace w' = trace w ++ failed_gets params lang backoff (seq a (i - a))
                             ++ [EvGet params lang]
      | None =>
          r = Raise (wiki_failure retries
                       (last_caught
                          (fun i => attempt_error (requests_get env (base + i) params lang))
                          a n last_err)) /\
          n_get w' = (base + a + n)%nat /\
          trace w' = trace w ++ failed_gets params lang backoff (seq a n)
      end.
Proof.
  induction n as [| n IH]; intros a last_err w Hw Hc Hs.
  - cbn. do 2 eexists. split; [reflexivity |].
    split; [reflexivity |]. split; [lia | now rewrite app_nil_r].
  - cbn [seq wiki_loop first_some last_caught].
    destruct (attempt_data (requests_get env (base + a) params lang)) as [d |] eqn:Ed.
    + rewrite <- Hw in Ed.
      destruct (wiki_attempt_ok env params lang backoff a w d Ed) as (w1 & E1 & Hn1 & Ht1).
      rewrite (bind_ok _ _ _ _ _ E1). exists (Ok d), w1. split; [reflexivity |].
      split; [reflexivity |]. split; [lia |]. now rewrite Nat.sub_diag.
    + pose proof (Hc a ltac:(lia)) as Hca. pose proof (Hs a ltac:(lia)) as Hsa.
      rewrite <- Hw in Ed, Hca.
      destruct (wiki_attempt_retry env params lang backoff a w Ed Hca Hsa)
        as (w1 & E1 & Hn1 & Ht1).
      rewrite (bind_ok _ _ _ _ _ E1). rewrite Hw in *.
      assert (Hn1' : n_get w1 = (base + S a)%nat) by lia.
      assert (Hc' : forall i, (S a <= i < S a + n)%nat ->
                              catchable (requests_get env (base + i) params lang))
        by (intros i Hi; apply Hc; lia).
      assert (Hs' : forall i, (S a <= i < S a + n)%nat ->
                              sleep_error (Qpower backoff (Z.of_nat i + 1)) = None)
        by (intros i Hi; apply Hs; lia).
      assert (Hgo : forall le,
                 exists r w',
                   wiki_loop env params lang retries backoff (seq (S a) n) le w1 = (r, w') /\
                   match first_some
                           (fun i => attempt_data (requests_get env (base + i) params lang))
                           (S a) n with
                   | Some (i, d) =>
                       r = Ok d /\ n_get w' = (base + S i)%nat /\
                       trace w' = trace w ++ failed_gets params lang backoff (seq a (i - a))
                                          ++ [EvGet params lang]
                   | None =>
                       r = Raise (wiki_failure retries
                                    (last_caught
                                       (fun i => attempt_error
                                                   (requests_get env (base + i) params lang))
                                       (S a) n le)) /\
                       n_get w' = (base + a + S n)%nat /\
                       trace w' = trace w ++ failed_gets params lang backoff (a :: seq (S a) n)
                   end).
      { intros le. destruct (IH (S a) le w1 Hn1' Hc' Hs') as (r & w' & E & H).
        exists r, w'. split; [exact E |].
        destruct (first_some _ (S a) n) as [[i d] |] eqn:Efs.
        - destruct H as (-> & Hn & Htr). split; [reflexivity |]. split; [assumption |].
          apply first_some_bounds in Efs. destruct Efs as (Hi & _).
          replace (i - a)%nat with (S (i - S a)) by lia. cbn [seq].
          rewrite Htr, Ht1. change (a :: seq (S a) (i - S a)) with ([a] ++ seq (S a) (i - S a)).
          rewrite failed_gets_app, <- !app_assoc. reflexivity.
        - destruct H as (-> & Hn & Htr). split; [reflexivity |]. split; [lia |].
          rewrite Htr, Ht1. change (a :: seq (S a) n) with ([a] ++ seq (S a) n).
          rewrite failed_gets_app, <- !app_assoc. reflexivity. }
      destruct (attempt_error (requests_get env (base + a) params lang)) as [e |].
      * exact (Hgo (Some e)).
      * exact (Hgo last_err).
Qed.

Lemma wiki_request_spec env params lang retries backoff w :
  (forall i, (i < retries)%nat -> catchable (requests_get env (n_get w + i) params lang)) ->
  (forall i, (i < retries)%nat -> sleep_error (Qpower backoff (Z.of_nat i + 1)) = None) ->
  exists r w',
    wiki_request env params lang retries backoff w = (r, w') /\
    match first_some (fun i => attempt_data (requests_get env (n_get w + i) params lang))
                     0 retries with
    | Some (i, d) =>
        r = Ok d /\ n_get w' = (n_get w + S i)%nat /\
        trace w' = trace w ++ failed_gets params lang backoff (seq 0 i) ++ [EvGet params lang]
    | None =>
        r = Raise (wiki_failure retries
                     (last_caught
                        (fun i => attempt_error (requests_get env (n_get w + i) params lang))
                        0 retries None)) /\
        n_get w' = (n_get w + retries)%nat /\
        trace w' = trace w ++ failed_gets params lang backoff (seq 0 retries)
    end.
Proof.
  intros Hc Hs. unfold wiki_request.
  destruct (wiki_loop_spec env params lang retries backoff (n_get w) retries 0 None w)
    as (r & w' & E & H); [lia | intros i Hi; apply Hc; lia | intros i Hi; apply Hs; lia |].
  exists r, w'. split; [assumption |].
  destruct (first_some _ 0 retries) as [[i d] |].
  - now rewrite Nat.sub_0_r in H.
  - now rewrite Nat.add_0_r in H.
Qed.

Lemma sleeps_failed_gets params lang backoff range :
  sleeps (failed_gets params lang backoff range)
  = map (fun i => Qpower backoff (Z.of_nat i + 1)) range.
Proof. induction range as [| i r IH]; cbn; [reflexivity | now f_equal]. Qed.

Lemma gets_failed_gets params lang backoff range :
  gets (failed_gets params lang backoff range) = repeat params (length range).
Proof. induction range as [| i r IH]; cbn; [reflexivity | now f_equal]. Qed.

(** C5, as the code has it. Every failed attempt of a source-document
    request (an exception of the GET such as a timeout, status 403, any
    4xx or 5xx status, an undecodable body) is retried, up to [retries]
    attempts (3 by default); after failed attempt [i] (from 0) the wait is
    [backoff^(i+1)] seconds, that is 1.5, 2.25, 3.375 by default, growing
    by the factor [backoff] with no cap; the first successful attempt
    returns its document at once, and exhausting the attempts raises
    [RuntimeError]. This holds when the failures are exceptions that
    [except Exception] catches and the waits are delays that [time.sleep]
    accepts, as those of the default backoff are. *)
Theorem wiki_request_retries env params lang retries backoff w :
  (forall i, (i < retries)%nat -> catchable (requests_get env (n_get w + i) params lang)) ->
  (forall i, (i < retries)%nat -> sleep_error (Qpower backoff (Z.of_nat i + 1)) = None) ->
  (forall e, attempt_data (GetRaises e) = None)
  /\ (forall err json, attempt_data (GetReturns 403 err json) = None)
  /\ (forall st err json, (500 <= st < 600)%Z -> attempt_data (GetReturns st err json) = None)
  /\ exists r w',
      wiki_request env params lang retries backoff w = (r, w') /\
      match first_some (fun i => attempt_data (requests_get env (n_get w + i) params lang))
                       0 retries with
      | Some (i, d) =>
          r = Ok d /\
          gets (trace w') = gets (trace w) ++ repeat params (S i) /\
          sleeps (trace w') = sleeps (trace w) ++ wiki_delays backoff i
      | None =>
          (exists last_err, r = Raise (wiki_failure retries last_err)) /\
          gets (trace w') = gets (trace w) ++ repeat params retries /\
          sleeps (trace w') = sleeps (trace w) ++ wiki_delays backoff retries
      end.
Proof.
  intros Hc Hs.
  split; [reflexivity |]. split; [reflexivity |]. split.
  { intros st err json Hst. unfold attempt_data.
    replace ((400 <=? st)%Z && (st <? 600)%Z) with true; [now rewrite orb_true_r |].
    symmetry. apply andb_true_iff. split; [apply Z.leb_le | apply Z.ltb_lt]; lia. }
  destruct (wiki_request_spec env params lang retries backoff w Hc Hs) as (r & w' & E & H).
  exists r, w'. split; [assumption |].
  destruct (first_some _ 0 retries) as [[i d] |].
  - destruct H as (-> & _ & ->). split; [reflexivity |].
    rewrite !gets_app, !sleeps_app, gets_failed_gets, sleeps_failed_gets, length_seq.
    cbn. rewrite app_nil_r. split; [| reflexivity].
    f_equal. cbn [repeat]. symmetry. apply repeat_cons.
  - destruct H as (-> & _ & ->). split; [eauto |].
    now rewrite !gets_app, !sleeps_app, gets_failed_gets, sleeps_failed_gets, length_seq.
Qed.

Lemma wiki_request_retries_witness :
  exists r w',
    wiki_request Scenario.env_down (ReqQuery (lit "Blockchain") false) WIKI_LANG
      default_retries default_backoff Scenario.world0 = (r, w') /\
    (exists last_err, r = Raise (wiki_failure default_retries last_err)) /\
    sleeps (trace w') = sleeps (trace Scenario.world0) ++ wiki_delays default_backoff 3.
Proof.
  destruct (wiki_request_retries Scenario.env_down (ReqQuery (lit "Blockchain") false)
              WIKI_LANG default_retries default_backoff Scenario.world0)
    as (_ & _ & _ & r & w' & E & H).
  - intros i _ e [= <-]. reflexivity.
  - exact default_delays_accepted.
  - exists r, w'. split; [exact E |]. destruct H as (H1 & _ & H3). split; assumption.
Defined.

(** C5, as the specification words it, fails: with the server down, the
    three waits of a source-document request are 1.5, 2.25 and 3.375
    seconds, and the second is not twice the first. *)
Lemma wiki_backoff_not_doubling :
  ~ doubling
      (sleeps (trace (snd (wiki_request Scenario.env_down (ReqQuery (lit "Blockchain") false)
                             WIKI_LANG default_retries default_backoff Scenario.world0)))).
Proof.
  assert (E : sleeps (trace (snd (wiki_request Scenario.env_down
                                    (ReqQuery (lit "Blockchain") false)
                                    WIKI_LANG default_retries default_backoff Scenario.world0)))
              = [1.5; 2.25; 3.375]%Q) by (vm_compute; reflexivity).
  rewrite E. intros H. specialize (H 0%nat 1.5%Q 2.25%Q eq_refl eq_refl).
  vm_compute in H. discriminate.
Qed.

(** An interrupt is not a failed attempt: [except Exception] does not catch
    it, and it leaves [wiki_request] after a single GET and no wait. *)
Example wiki_request_interrupted :
  let run := wiki_request Scenario.env_interrupted (ReqQuery (lit "Blockchain") false)
               WIKI_LANG default_retries default_backoff Scenario.world0 in
  fst run = Raise Scenario.interrupt /\ n_get (snd run) = 1%nat /\ sleeps (trace (snd run)) = [].
Proof. vm_compute. split; [reflexivity | split; reflexivity]. Qed.

(** ** What a call can raise *)

Lemma re_ret {A} (a : A) : raises_exceptions (ret a).
Proof. intros w e w'. discriminate. Qed.

Lemma re_raise {A} e : is_exception e = true -> raises_exceptions (@raise A e).
Proof. intros He w e' w' [= <- _]. exact He. Qed.

Lemma re_bind_val {A B} (P : A -> Prop) (m : M A) (k : A -> M B) :
  (forall w a w', m w = (Ok a, w') -> P a) ->
  raises_exceptions m -> (forall a, P a -> raises_exceptions (k a)) ->
  raises_exceptions (bind m k).
Proof.
  intros HP Hm Hk w e w' H. unfold bind in H.
  destruct (m w) as [[a | e1] w1] eqn:E.
  - exact (Hk a (HP _ _ _ E) _ _ _ H).
  - injection H as <- _. exact (Hm _ _ _ E).
Qed.

Lemma re_bind {A B} (m : M A) (k : A -> M B) :
  raises_exceptions m -> (forall a, raises_exceptions (k a)) ->
  raises_exceptions (bind m k).
Proof. intros Hm Hk. apply (re_bind_val (fun _ => True)); auto. Qed.

Lemma re_try {A} (body : M A) handler :
  raises_exceptions body -> (forall e, raises_exceptions (handler e)) ->
  raises_exceptions (try_except body handler).
Proof.
  intros Hb Hh w e w' H. unfold try_except in H.
  destruct (body w) as [[a | e1] w1] eqn:E; [discriminate |].
  pose proof (Hb _ _ _ E) as He1. rewrite He1 in H. exact (Hh _ _ _ _ H).
Qed.

Lemma re_print env line : raises_exceptions (print env line).
Proof.
  intros w e w'. unfold print. destruct (printable env line); [discriminate |].
  intros [= <- _]. reflexivity.
Qed.

Lemma re_sleep env secs : raises_exceptions (time_sleep env secs).
Proof.
  intros w e w'. unfold time_sleep. destruct (sleep_error secs) as [e1 |] eqn:E.
  - intros [= <- _]. exact (sleep_error_exception _ _ E).
  - discriminate.
Qed.

Lemma http_get_value env params lang w r w' :
  http_get env params lang w = (r, w') -> r = Ok (requests_get env (n_get w) params lang).
Proof. intros H. run_primitive H. reflexivity. Qed.

Lemma re_wiki_attempt env params lang backoff i :
  (forall k, catchable (requests_get env k params lang)) ->
  raises_exceptions (wiki_attempt env params lang backoff i).
Proof.
  intros Hc. unfold wiki_attempt. apply re_try.
  - apply (re_bind_val catchable).
    + intros w a w' H. apply http_get_value in H. injection H as ->. apply Hc.
    + intros w e w' H. apply http_get_value in H. discriminate.
    + intros [e | st err json] Ha; unfold catchable, attempt_error in Ha.
      * apply re_raise. now apply Ha.
      * destruct (st =? 403)%Z.
        -- apply re_bind; [apply re_sleep | intros; apply re_ret].
        -- unfold raise_for_status. destruct ((400 <=? st)%Z && (st <? 600)%Z).
           ++ apply (re_bind_val (fun _ => False));
                [intros w a w'; discriminate | apply re_raise; now apply Ha | intros a []].
           ++ apply re_bind; [apply re_ret | intros _].
              apply re_bind; [| intros; apply re_ret].
              destruct json as [d | e]; [apply re_ret | apply re_raise; now apply Ha].
  - intros e. apply re_bind; [apply re_sleep | intros; apply re_ret].
Qed.

Lemma re_wiki_request env params lang retries backoff :
  (forall k, catchable (requests_get env k params lang)) ->
  raises_exceptions (wiki_request env params lang retries backoff).
Proof.
  intros Hc. unfold wiki_request. generalize (seq 0 retries) as range.
  generalize (@None exn) as last_err.
  intros last_err range. revert last_err.
  induction range as [| i rest IH]; intros last_err; cbn [wiki_loop].
  - now apply re_raise.
  - apply re_bind; [now apply re_wiki_attempt |].
    intros [d | | e]; [apply re_ret | apply IH | apply IH].
Qed.

(** ** Article resolution *)

Lemma search_wikipedia_title_frame env query lang :
  always wiki_frame (search_wikipedia_title env query lang).
Proof.
  unfold search_wikipedia_title.
  apply (always_bind wiki_frame); [apply wiki_request_frame | intros; exact (always_ret _ _)].
Qed.

Lemma get_wikipedia_article_unfold env depth title lang intro_only w :
  get_wikipedia_article env (S depth) title lang intro_only w =
  (data <- wiki_request env (ReqQuery title intro_only) lang default_retries default_backoff ;;
   if lookup_missing data then
     alt <- search_wikipedia_title env title lang ;;
     if falsy alt then raise (not_found data title)
     else get_wikipedia_article env depth (default [] alt) lang intro_only
   else
     match d_pages data with
     | [] => raise (not_found data title)
     | page :: _ =>
         let normalized_title := default title (p_title page) in
         let extract := default [] (p_extract page) in
         if negb (truthy extract) then
           raise (Exn ValueError
                    (quoted msg_no_content normalized_title))
         else ret (normalized_title, extract)
     end) w.
Proof.
  cbn [get_wikipedia_article stack_left]. unfold bind.
  destruct (wiki_request _ _ _ _ _ w) as [[data | e] w1]; [| reflexivity].
  unfold lookup_missing, not_found.
  destruct (d_pages data) as [| page rest].
  - destruct (search_wikipedia_title env title lang w1) as [[[a |] | e] w2];
      cbn [falsy default negb].
    + destruct (truthy a); reflexivity.
    + reflexivity.
    + reflexivity.
  - destruct (page_is_missing page); [| reflexivity].
    destruct (search_wikipedia_title env title lang w1) as [[[a |] | e] w2];
      cbn [falsy default negb].
    + destruct (truthy a); reflexivity.
    + reflexivity.
    + reflexivity.
Qed.

(** With no stack left for the GET of a search, the lookup is as before
    and the search is out of stack. *)
Lemma get_wikipedia_article_0 env title lang intro_only w :
  get_wikipedia_article env 0 title lang intro_only w =
  (data <- wiki_request env (ReqQuery title intro_only) lang default_retries default_backoff ;;
   if lookup_missing data then
     alt <- search_wikipedia_title (out_of_stack env) title lang ;;
     if falsy alt then raise (not_found data title) else raise recursion_error
   else
     match d_pages data with
     | [] => raise (not_found data title)
     | page :: _ =>
         let normalized_title := default title (p_title page) in
         let extract := default [] (p_extract page) in
         if negb (truthy extract) then
           raise (Exn ValueError
                    (quoted msg_no_content normalized_title))
         else ret (normalized_title, extract)
     end) w.
Proof.
  cbn [get_wikipedia_article stack_left]. generalize (out_of_stack env) as env'.
  intros env'. unfold bind.
  destruct (wiki_request _ _ _ _ _ w) as [[data | e] w1]; [| reflexivity].
  unfold lookup_missing, not_found.
  destruct (d_pages data) as [| page rest].
  - destruct (search_wikipedia_title env' title lang w1) as [[[a |] | e] w2];
      cbn [falsy default negb].
    + destruct (truthy a); reflexivity.
    + reflexivity.
    + reflexivity.
  - destruct (page_is_missing page); [| reflexivity].
    destruct (search_wikipedia_title env' title lang w1) as [[[a |] | e] w2];
      cbn [falsy default negb].
    + destruct (truthy a); reflexivity.
    + reflexivity.
    + reflexivity.
Qed.

Lemma catchable_out_of_stack env k params lang :
  catchable (requests_get (out_of_stack env) k params lang).
Proof. intros e [= <-]. reflexivity. Qed.

(** The search that finds the stack used up raises the error of
    [wiki_request], after three calls of [requests.get] that each raised
    [RecursionError] and the three waits of the retries. *)
Lemma out_of_stack_run env query lang w :
  exists w',
    search_wikipedia_title (out_of_stack env) query lang w
    = (Raise (wiki_failure default_retries (Some recursion_error)), w') /\
    n_get w' = (n_get w + default_retries)%nat /\
    trace w' = trace w ++ failed_gets (ReqOpenSearch query) lang default_backoff
                            (seq 0 default_retries).
Proof.
  destruct (wiki_request_spec (out_of_stack env) (ReqOpenSearch query) lang
              default_retries default_backoff w)
    as (r & w' & E & H).
  { intros i _. apply catchable_out_of_stack. }
  { exact default_delays_accepted. }
  cbn in H. destruct H as (-> & Hn & Ht).
  exists w'. split; [| split; assumption].
  unfold search_wikipedia_title. now rewrite (bind_raise _ _ _ _ _ E).
Qed.

Lemma get_wikipedia_article_spec env depth :
  forall title lang intro_only w r w',
    get_wikipedia_article env depth title lang intro_only w = (r, w') ->
    wiki_frame w w' /\ forall t body, r = Ok (t, body) -> body <> [].
Proof.
  induction depth as [| depth IH]; intros title lang intro_only w r w' H.
  - rewrite get_wikipedia_article_0 in H. revert H.
    generalize (out_of_stack env) as env'. intros env' H. unfold bind in H.
    destruct (wiki_request _ _ _ _ _ w) as [[data | e] w1] eqn:E1;
      pose proof (wiki_request_frame _ _ _ _ _ _ _ _ E1) as Hf1.
    2: { injection H as <- <-. split; [assumption | discriminate]. }
    destruct (lookup_missing data).
    + destruct (search_wikipedia_title env' title lang w1) as [[alt | e] w2] eqn:E2;
        pose proof (search_wikipedia_title_frame _ _ _ _ _ _ E2) as Hf2.
      2: { injection H as <- <-.
           split; [etransitivity; eassumption | discriminate]. }
      destruct (falsy alt); injection H as <- <-;
        (split; [etransitivity; eassumption | discriminate]).
    + destruct (d_pages data) as [| page rest].
      * injection H as <- <-. split; [assumption | discriminate].
      * cbn zeta in H. destruct (default [] (p_extract page)) as [| c body'] eqn:Ex; cbn in H.
        -- injection H as <- <-. split; [assumption | discriminate].
        -- injection H as <- <-. split; [assumption |].
           intros t body [= <- <-]. discriminate.
  - rewrite get_wikipedia_article_unfold in H. unfold bind in H.
    destruct (wiki_request _ _ _ _ _ w) as [[data | e] w1] eqn:E1;
      pose proof (wiki_request_frame _ _ _ _ _ _ _ _ E1) as Hf1.
    2: { injection H as <- <-. split; [assumption | discriminate]. }
    destruct (lookup_missing data).
    + destruct (search_wikipedia_title env title lang w1) as [[alt | e] w2] eqn:E2;
        pose proof (search_wikipedia_title_frame _ _ _ _ _ _ E2) as Hf2.
      2: { injection H as <- <-.
           split; [etransitivity; eassumption | discriminate]. }
      destruct (falsy alt).
      * injection H as <- <-.
        split; [etransitivity; eassumption | discriminate].
      * destruct (IH _ _ _ _ _ _ H) as [Hf3 Hbody].
        split; [| assumption].
        etransitivity; [| eassumption]. etransitivity; eassumption.
    + destruct (d_pages data) as [| page rest].
      * injection H as <- <-. split; [assumption | discriminate].
      * cbn zeta in H. destruct (default [] (p_extract page)) as [| c body'] eqn:Ex; cbn in H.
        -- injection H as <- <-. split; [assumption | discriminate].
        -- injection H as <- <-. split; [assumption |].
           intros t body [= <- <-]. discriminate.
Qed.

Lemma get_wikipedia_article_frame env depth title lang intro_only :
  always wiki_frame (get_wikipedia_article env depth title lang intro_only).
Proof. intros w r w' H. exact (proj1 (get_wikipedia_article_spec _ _ _ _ _ _ _ _ H)). Qed.

(** C9. A resolved article never has an empty body: whenever resolution
    returns, the body it returns is non-empty; and when the lookup finds a
    page (not missing) whose extract is empty or absent, resolution raises
    [ValueError] ("Artigo sem conteúdo legível") instead of returning. *)
Theorem resolved_body_nonempty env depth title lang intro_only w :
  (forall t body w',
      get_wikipedia_article env depth title lang intro_only w = (Ok (t, body), w') ->
      body <> [])
  /\ (forall depth' data w1 page rest,
         depth = S depth' ->
         wiki_request env (ReqQuery title intro_only) lang default_retries default_backoff w
         = (Ok data, w1) ->
         d_pages data = page :: rest ->
         page_is_missing page = false ->
         default [] (p_extract page) = [] ->
         get_wikipedia_article env depth title lang intro_only w
         = (Raise (Exn ValueError (quoted msg_no_content
                                          (default title (p_title page)))), w1)).
Proof.
  split.
  - intros t body w' H.
    destruct (get_wikipedia_article_spec _ _ _ _ _ _ _ _ H) as [_ Hbody]. eauto.
  - intros depth' data w1 page rest -> E Hpages Hmiss Hex.
    rewrite get_wikipedia_article_unfold. rewrite (bind_ok _ _ _ _ _ E).
    unfold lookup_missing. rewrite Hpages, Hmiss. cbn zeta. now rewrite Hex.
Qed.

(** C4, as the code has it. When the title lookup reports no page or a
    missing page, resolution searches for that title; a search with no hit
    (or an empty top hit) raises [ValueError], the not-found error; and a
    hit is resolved by the same procedure as a fresh title, search fallback
    included, so the hops are not limited to one. *)
Theorem article_search_fallback env depth title lang intro_only w data w1 :
  wiki_request env (ReqQuery title intro_only) lang default_retries default_backoff w
  = (Ok data, w1) ->
  lookup_missing data = true ->
  exn_type (not_found data title) = ValueError /\
  exists r w2,
    search_wikipedia_title env title lang w1 = (r, w2) /\
    get_wikipedia_article env (S depth) title lang intro_only w =
    match r with
    | Raise e => (Raise e, w2)
    | Ok alt =>
        if falsy alt then (Raise (not_found data title), w2)
        else get_wikipedia_article env depth (default [] alt) lang intro_only w2
    end.
Proof.
  intros E Hmiss. split.
  - unfold not_found. now destruct (d_pages data).
  - destruct (search_wikipedia_title env title lang w1) as [r w2] eqn:E2.
    exists r, w2. split; [reflexivity |].
    rewrite get_wikipedia_article_unfold, (bind_ok _ _ _ _ _ E), Hmiss.
    unfold bind. rewrite E2. destruct r as [alt | e]; [| reflexivity].
    now destruct (falsy alt).
Qed.

(** C4, as the specification words it, fails: resolving "IA" in a wiki
    where the top hit of the first search is itself missing searches a
    second time, for a title other than the topic, and succeeds. *)
Lemma two_search_hops :
  let run := get_wikipedia_article Scenario.env_two_hops 1000 (lit "IA") WIKI_LANG false
               Scenario.world0 in
  fst run = Ok (lit "Inteligência artificial", lit "A inteligência artificial é um campo.")
  /\ searches (trace (snd run)) = [lit "IA"; lit "Intelig"]
  /\ ~ one_search_hop (lit "IA") (trace (snd run)).
Proof.
  intros run.
  assert (E : searches (trace (snd run)) = [lit "IA"; lit "Intelig"])
    by (vm_compute; reflexivity).
  split; [vm_compute; reflexivity |]. split; [exact E |].
  unfold one_search_hop. rewrite E. intros H.
  specialize (H (lit "Intelig") (or_intror (or_introl eq_refl))).
  vm_compute in H. discriminate.
Qed.

Lemma article_search_fallback_witness :
  lookup_missing (Scenario.missing (lit "IA")) = true /\
  exists r w2,
    search_wikipedia_title Scenario.env_two_hops (lit "IA") WIKI_LANG
      (snd (wiki_request Scenario.env_two_hops (ReqQuery (lit "IA") false) WIKI_LANG
              default_retries default_backoff Scenario.world0)) = (r, w2) /\
    get_wikipedia_article Scenario.env_two_hops 1000 (lit "IA") WIKI_LANG false
      Scenario.world0 =
    match r with
    | Raise e => (Raise e, w2)
    | Ok alt =>
        if falsy alt
        then (Raise (not_found (Scenario.missing (lit "IA")) (lit "IA")), w2)
        else get_wikipedia_article Scenario.env_two_hops 999 (default [] alt) WIKI_LANG
               false w2
    end.
Proof.
  split; [reflexivity |].
  refine (proj2 (article_search_fallback Scenario.env_two_hops 999 (lit "IA") WIKI_LANG false
                   Scenario.world0 (Scenario.missing (lit "IA")) _ _ _)).
  - vm_compute. reflexivity.
  - reflexivity.
Defined.

Lemma wiki_request_first_ok env params lang w data :
  attempt_data (requests_get env (n_get w) params lang) = Some data ->
  exists w',
    wiki_request env params lang default_retries default_backoff w = (Ok data, w') /\
    n_get w' = S (n_get w) /\ trace w' = trace w ++ [EvGet params lang].
Proof.
  intros Hd.
  destruct (wiki_attempt_ok env params lang default_backoff 0 w data Hd) as (w' & E & Hn & Ht).
  exists w'. split; [| split; assumption].
  unfold wiki_request, default_retries. cbn [seq wiki_loop].
  now rewrite (bind_ok _ _ _ _ _ E).
Qed.

(** Resolution raises nothing but instances of [Exception] when the
    server raises nothing else. *)
Lemma re_search_wikipedia_title env query lang :
  (forall k r l, catchable (requests_get env k r l)) ->
  raises_exceptions (search_wikipedia_title env query lang).
Proof.
  intros Hc. unfold search_wikipedia_title.
  apply re_bind; [apply re_wiki_request; intros; apply Hc | intros; apply re_ret].
Qed.

Lemma re_get_wikipedia_article env depth :
  (forall k r l, catchable (requests_get env k r l)) ->
  forall title lang intro_only,
    raises_exceptions (get_wikipedia_article env depth title lang intro_only).
Proof.
  intros Hc. induction depth as [| depth IH]; intros title lang intro_only.
  - cbn [get_wikipedia_article stack_left].
    apply re_bind; [apply re_wiki_request; intros; apply Hc |].
    assert (Hsearch : raises_exceptions
                        (search_wikipedia_title (out_of_stack env) title lang))
      by (apply re_search_wikipedia_title; intros; apply catchable_out_of_stack).
    intros data. destruct (d_pages data) as [| page rest].
    + apply re_bind; [exact Hsearch |].
      intros [a |]; [destruct (truthy a) |]; now apply re_raise.
    + destruct (page_is_missing page).
      * apply re_bind; [exact Hsearch |].
        intros [a |]; [destruct (truthy a) |]; now apply re_raise.
      * cbn zeta. destruct (negb _); [now apply re_raise | apply re_ret].
  - cbn [get_wikipedia_article stack_left].
    apply re_bind; [apply re_wiki_request; intros; apply Hc |].
    intros data. destruct (d_pages data) as [| page rest].
    + apply re_bind; [now apply re_search_wikipedia_title |].
      intros [a |]; [destruct (truthy a); [apply IH |] |]; now apply re_raise.
    + destruct (page_is_missing page).
      * apply re_bind; [now apply re_search_wikipedia_title |].
        intros [a |]; [destruct (truthy a); [apply IH |] |]; now apply re_raise.
      * cbn zeta. destruct (negb _); [now apply re_raise | apply re_ret].
Qed.

(** Resolution does not move the clock back. *)
Lemma wiki_attempt_later env params lang backoff i :
  steady env -> always later (wiki_attempt env params lang backoff i).
Proof.
  intros Hs. unfold wiki_attempt. apply (always_try later).
  - apply (always_bind later); [now apply http_get_later |].
    intros [e | st err json]; [exact (always_raise _ _) |].
    destruct (st =? 403)%Z.
    + apply (always_bind later); [now apply sleep_later | intros; exact (always_ret _ _)].
    + apply (always_bind later); [exact (always_status _ _ _) | intros _].
      apply (always_bind later); [exact (always_lift _ _) | intros; exact (always_ret _ _)].
  - intros e. apply (always_bind later); [now apply sleep_later | intros; exact (always_ret _ _)].
Qed.

Lemma wiki_request_later env params lang retries backoff :
  steady env -> always later (wiki_request env params lang retries backoff).
Proof.
  intros Hs. unfold wiki_request. generalize (seq 0 retries) as range.
  generalize (@None exn) as last_err. intros last_err range. revert last_err.
  induction range as [| i rest IH]; intros last_err; cbn [wiki_loop].
  - exact (always_raise _ _).
  - apply (always_bind later); [now apply wiki_attempt_later |].
    intros [d | | e]; [exact (always_ret _ _) | apply IH | apply IH].
Qed.

Lemma steady_out_of_stack env : steady env -> steady (out_of_stack env).
Proof. intros H k. apply H. Qed.

Lemma search_wikipedia_title_later env query lang :
  steady env -> always later (search_wikipedia_title env query lang).
Proof.
  intros Hs. unfold search_wikipedia_title.
  apply (always_bind later); [now apply wiki_request_later |].
  intros; exact (always_ret _ _).
Qed.

Lemma get_wikipedia_article_later env depth :
  steady env ->
  forall title lang intro_only,
    always later (get_wikipedia_article env depth title lang intro_only).
Proof.
  intros Hs. induction depth as [| depth IH]; intros title lang intro_only.
  - cbn [get_wikipedia_article stack_left].
    apply (always_bind later); [now apply wiki_request_later |].
    assert (Hsearch : always later (search_wikipedia_title (out_of_stack env) title lang))
      by (apply search_wikipedia_title_later; now apply steady_out_of_stack).
    intros data. destruct (d_pages data) as [| page rest].
    + apply (always_bind later); [exact Hsearch |].
      intros [a |]; [destruct (truthy a) |]; exact (always_raise _ _).
    + destruct (page_is_missing page).
      * apply (always_bind later); [exact Hsearch |].
        intros [a |]; [destruct (truthy a) |]; exact (always_raise _ _).
      * cbn zeta. destruct (negb _); [exact (always_raise _ _) | exact (always_ret _ _)].
  - cbn [get_wikipedia_article stack_left].
    apply (always_bind later); [now apply wiki_request_later |].
    pose proof (search_wikipedia_title_later env title lang Hs) as Hsearch.
    intros data. destruct (d_pages data) as [| page rest].
    + apply (always_bind later); [exact Hsearch |].
      intros [a |]; [destruct (truthy a); [apply IH |] |]; exact (always_raise _ _).
    + destruct (page_is_missing page).
      * apply (always_bind later); [exact Hsearch |].
        intros [a |]; [destruct (truthy a); [apply IH |] |]; exact (always_raise _ _).
      * cbn zeta. destruct (negb _); [exact (always_raise _ _) | exact (always_ret _ _)].
Qed.

(** ** The throttle *)

(** The three ways through the throttle when it is on: no wait, a wait,
    and a wait that [time.sleep] refuses. *)
Lemma throttle_cases env w :
  let w1 := tick env 0 w in
  let el := (clock w1 - _last_call_ts w)%Q in
  let wait_s := (min_interval env - el)%Q in
  let line := EvPrint (LogThrottle wait_s (FREE_TIER_RPM env)) in
  _client_throttle_sleep env w =
  if negb (ENFORCE_CLIENT_THROTTLE env) || (FREE_TIER_RPM env <=? 0)%Z then (Ok tt, w)
  else if Qlt_le_dec el (min_interval env) then
    match sleep_error wait_s with
    | Some e => (Raise e, note line w1)
    | None =>
        (Ok tt, stamp (tick env 0 (tick env wait_s (note (EvSleep wait_s) (note line w1)))))
    end
  else (Ok tt, stamp (tick env 0 w1)).
Proof.
  cbv zeta. unfold _client_throttle_sleep.
  destruct (negb (ENFORCE_CLIENT_THROTTLE env) || (FREE_TIER_RPM env <=? 0)%Z); [reflexivity |].
  unfold min_interval, tick.
  cbv beta iota delta [bind time_time get_last_call_ts pass_time ret snd].
  cbn [clock _last_call_ts n_step].
  destruct (Qlt_le_dec _ _); [| reflexivity].
  cbv beta iota delta [print printable line_chars forallb time_sleep bind emit].
  destruct (sleep_error _); reflexivity.
Qed.

Lemma throttle_on env :
  ENFORCE_CLIENT_THROTTLE env = true -> (0 < FREE_TIER_RPM env)%Z ->
  negb (ENFORCE_CLIENT_THROTTLE env) || (FREE_TIER_RPM env <=? 0)%Z = false.
Proof.
  intros -> Hrpm. cbn. apply Z.leb_gt. exact Hrpm.
Qed.

Lemma min_interval_nonneg env : (0 < FREE_TIER_RPM env)%Z -> (0 <= min_interval env)%Q.
Proof.
  intros Hrpm. unfold min_interval, Qdiv. apply Qmult_le_0_compat; [lra |].
  apply Qinv_le_0_compat. unfold Qle, inject_Z. cbn. lia.
Qed.

Lemma min_interval_small env : (0 < FREE_TIER_RPM env)%Z -> (min_interval env <= 60)%Q.
Proof.
  intros Hrpm. unfold min_interval.
  destruct (FREE_TIER_RPM env) as [| p | p]; try lia.
  unfold Qdiv, Qinv, Qmult, Qle, inject_Z. cbn. lia.
Qed.

(** What a pass through the throttle leaves unchanged, and the events it
    adds: nothing, its line, or its line and its wait. *)
Lemma throttle_frame env w r w' :
  _client_throttle_sleep env w = (r, w') ->
  gen_frame w w' /\ n_gen w' = n_gen w /\
  exists thr,
    trace w' = trace w ++ thr /\
    (thr = [] \/
     exists d, thr = [EvPrint (LogThrottle d (FREE_TIER_RPM env))] \/
               thr = [EvPrint (LogThrottle d (FREE_TIER_RPM env)); EvSleep d]).
Proof.
  rewrite throttle_cases. cbv zeta.
  destruct (negb _ || _).
  { intros [= <- <-]. split; [reflexivity |]. split; [reflexivity |].
    exists []. split; [now rewrite app_nil_r | now left]. }
  destruct (Qlt_le_dec _ _).
  - destruct (sleep_error _); intros [= <- <-];
      (split; [unfold gen_frame; cbn; rewrite ?gets_app; cbn; rewrite ?app_nil_r; repeat split |]);
      (split; [reflexivity |]); eexists; (split; [cbn; rewrite <- ?app_assoc; reflexivity |]);
      right; eexists; [left | right]; reflexivity.
  - intros [= <- <-]. split; [repeat split |]. split; [reflexivity |].
    exists []. split; [cbn; now rewrite app_nil_r | now left].
Qed.

Lemma throttle_gen_frame env : always gen_frame (_client_throttle_sleep env).
Proof. intros w r w' H. exact (proj1 (throttle_frame _ _ _ _ H)). Qed.

Lemma throttle_silent env w r w' :
  _client_throttle_sleep env w = (r, w') ->
  prompts (trace w') = prompts (trace w) /\ gen_times (trace w') = gen_times (trace w).
Proof.
  intros H. destruct (throttle_frame _ _ _ _ H) as (_ & _ & thr & -> & Hthr).
  rewrite prompts_app, gen_times_app.
  destruct Hthr as [-> | [d [-> | ->]]]; cbn; now rewrite !app_nil_r.
Qed.

(** One pass through the throttle that returns: the new timestamp is the
    clock reading at return, and it is at least [min_interval] after the
    old one. *)
Lemma throttle_paces env w w' :
  ENFORCE_CLIENT_THROTTLE env = true -> (0 < FREE_TIER_RPM env)%Z -> steady env ->
  _client_throttle_sleep env w = (Ok tt, w') ->
  (_last_call_ts w + min_interval env <= _last_call_ts w')%Q /\
  _last_call_ts w' = clock w' /\
  (clock w <= clock w')%Q.
Proof.
  intros Hon Hrpm Hsteady. rewrite throttle_cases. cbv zeta.
  rewrite (throttle_on env Hon Hrpm).
  pose proof (Hsteady (n_step w)) as H0.
  pose proof (Hsteady (S (n_step w))) as H1.
  pose proof (Hsteady (S (S (n_step w)))) as H2.
  destruct (Qlt_le_dec _ _) as [Hlt | Hge].
  - destruct (sleep_error _); [discriminate |].
    intros [= <-]. cbn in *. split; [| split; [reflexivity |]]; lra.
  - intros [= <-]. cbn in *. split; [| split; [reflexivity |]]; lra.
Qed.

(** A pass that raises has left the timestamp alone. *)
Lemma throttle_raises env w e w' :
  _client_throttle_sleep env w = (Raise e, w') ->
  _last_call_ts w' = _last_call_ts w /\ is_exception e = true.
Proof.
  rewrite throttle_cases. cbv zeta.
  destruct (negb _ || _); [discriminate |].
  destruct (Qlt_le_dec _ _); [| discriminate].
  destruct (sleep_error _) as [e1 |] eqn:E; [| discriminate].
  intros [= <- <-]. split; [reflexivity | exact (sleep_error_exception _ _ E)].
Qed.

(** With a steady clock and a timestamp not in the future the throttle
    returns, and the timestamp is still not in the future. *)
Lemma throttle_total env w :
  steady env -> timely w ->
  exists w', _client_throttle_sleep env w = (Ok tt, w') /\ timely w'.
Proof.
  intros Hsteady Hw. rewrite throttle_cases. cbv zeta.
  destruct (negb _ || _) eqn:Eoff; [exists w; split; [reflexivity | exact Hw] |].
  assert (Hrpm : (0 < FREE_TIER_RPM env)%Z).
  { apply orb_false_iff in Eoff. destruct Eoff as [_ Hz]. now apply Z.leb_gt in Hz. }
  pose proof (min_interval_small env Hrpm) as Hsmall.
  pose proof (Hsteady (n_step w)) as H0.
  unfold timely in Hw.
  destruct (Qlt_le_dec _ _) as [Hlt | Hge].
  - rewrite sleep_accepts.
    + eexists. split; [reflexivity |]. unfold timely. cbn. apply Qle_refl.
    + cbn in *. lra.
    + assert (60 <= SLEEP_MAX)%Q by (vm_compute; discriminate). cbn in *. lra.
  - eexists. split; [reflexivity |]. unfold timely. cbn. apply Qle_refl.
Qed.

Lemma throttle_timely env : steady env -> always (keeps timely) (_client_throttle_sleep env).
Proof.
  intros Hsteady w r w' H Hw.
  destruct (throttle_total env w Hsteady Hw) as (w1 & E & Hw1).
  rewrite E in H. now injection H as _ <-.
Qed.

(** ** The generation retry engine *)

Lemma generate_value env model_name prompt w r w' :
  model_generate env model_name prompt w = (r, w') ->
  r = Ok (generate_content env (n_gen w) model_name prompt) /\
  n_gen w' = S (n_gen w) /\ _last_call_ts w' = _last_call_ts w /\
  trace w' = trace w ++ [EvGenerate (clock w) model_name prompt].
Proof. intros H. run_primitive H. repeat split. Qed.

Lemma generate_later env model_name prompt :
  steady env -> always later (model_generate env model_name prompt).
Proof.
  intros Hs w r w' H. run_primitive H. unfold later. cbn [clock].
  pose proof (Hs (n_step w)). lra.
Qed.

Lemma quiet_later_timely w w' : quiet w w' -> later w w' -> keeps timely w w'.
Proof. unfold quiet, later, keeps, timely. intros (-> & _) H1 H2. lra. Qed.

Lemma print_timely env line : always (keeps timely) (print env line).
Proof.
  intros w r w' H. apply quiet_later_timely;
    [exact (print_quiet _ _ _ _ _ H) | exact (print_later _ _ _ _ _ H)].
Qed.

Lemma sleep_timely env secs : steady env -> always (keeps timely) (time_sleep env secs).
Proof.
  intros Hs w r w' H. apply quiet_later_timely;
    [exact (sleep_quiet _ _ _ _ _ H) | exact (sleep_later _ _ Hs _ _ _ H)].
Qed.

Lemma generate_timely env model_name prompt :
  steady env -> always (keeps timely) (model_generate env model_name prompt).
Proof.
  intros Hs w r w' H Hw. pose proof (generate_later _ _ _ Hs _ _ _ H) as Hl.
  apply generate_value in H. destruct H as (_ & _ & Hlast & _).
  unfold timely, later in *. rewrite Hlast. lra.
Qed.

(** The [except] branch only prints and sleeps. *)
Lemma gemini_except_quiet env max_retries attempt e :
  always quiet (gemini_except env max_retries attempt e).
Proof.
  unfold gemini_except. apply (always_bind quiet).
  - destruct (pow_overflows _ _); [exact (always_raise _ _) | exact (always_ret _ _)].
  - intros _. apply (always_bind quiet); [apply print_quiet | intros _].
    apply (always_bind quiet); [apply sleep_quiet | intros; exact (always_ret _ _)].
Qed.

Lemma gemini_except_timely env max_retries attempt e :
  steady env -> always (keeps timely) (gemini_except env max_retries attempt e).
Proof.
  intros Hs. unfold gemini_except. apply (always_bind (keeps timely)).
  - destruct (pow_overflows _ _); [exact (always_raise _ _) | exact (always_ret _ _)].
  - intros _. apply (always_bind (keeps timely)); [apply print_timely | intros _].
    apply (always_bind (keeps timely)); [now apply sleep_timely | intros; exact (always_ret _ _)].
Qed.

Lemma re_gemini_except env max_retries attempt e :
  raises_exceptions (gemini_except env max_retries attempt e).
Proof.
  unfold gemini_except. apply re_bind.
  - destruct (pow_overflows _ _); [now apply re_raise | apply re_ret].
  - intros _. apply re_bind; [apply re_print | intros _].
    apply re_bind; [apply re_sleep | intros; apply re_ret].
Qed.

Lemma gemini_attempt_gen_frame env model_name prompt max_retries attempt :
  always gen_frame (gemini_attempt env model_name prompt max_retries attempt).
Proof.
  unfold gemini_attempt. apply (always_try gen_frame).
  - unfold gemini_try. apply (always_bind gen_frame); [apply throttle_gen_frame | intros _].
    apply (always_bind gen_frame); [apply generate_gen | intros resp].
    apply (always_bind gen_frame); [exact (always_lift _ _) | intros; exact (always_ret _ _)].
  - intros e. eapply always_weaken; [exact quiet_gen | apply gemini_except_quiet].
Qed.

Lemma gemini_attempt_timely env model_name prompt max_retries attempt :
  steady env -> always (keeps timely) (gemini_attempt env model_name prompt max_retries attempt).
Proof.
  intros Hs. unfold gemini_attempt. apply (always_try (keeps timely)).
  - unfold gemini_try.
    apply (always_bind (keeps timely)); [now apply throttle_timely | intros _].
    apply (always_bind (keeps timely)); [now apply generate_timely | intros resp].
    apply (always_bind (keeps timely)); [exact (always_lift _ _) | intros; exact (always_ret _ _)].
  - intros e. now apply gemini_except_timely.
Qed.

(** The retry delay is one [time.sleep] accepts unless a hint is too long. *)
Lemma py_float_nonneg g v : py_float g = Some v -> (0 <= v)%Q.
Proof.
  unfold py_float. destruct (span is_digit g) as [ip rest].
  destruct ip as [| d ip]; [discriminate |].
  destruct rest as [| c fp].
  - intros [= <-]. unfold Qle. cbn. lia.
  - destruct ((c =? 46)%N && forallb is_digit fp && truthy fp); [| discriminate].
    intros [= <-]. unfold Qle. cbn. lia.
Qed.

Lemma backoff_delay_range attempt :
  (0 < Qmin (Qpower backoff attempt) 60)%Q /\ (Qmin (Qpower backoff attempt) 60 <= 60)%Q.
Proof.
  assert (Hpow : (0 < Qpower backoff attempt)%Q) by (apply Qpower_0_lt; reflexivity).
  split; [| apply Q.le_min_r].
  apply Q.min_glb_lt; [exact Hpow | reflexivity].
Qed.

Lemma retry_delay_nonneg msg attempt : (0 <= retry_delay msg attempt)%Q.
Proof.
  unfold retry_delay, _parse_retry_seconds_from_error.
  pose proof (backoff_delay_range (attempt - 1)) as [Hpos _].
  destruct (re_search msg) as [g |]; [| now apply Qlt_le_weak].
  destruct (py_float g) as [v |] eqn:Ev; [exact (py_float_nonneg g v Ev) | now apply Qlt_le_weak].
Qed.

Lemma retry_delay_accepted msg attempt :
  hint_ok msg -> sleep_error (retry_delay msg attempt) = None.
Proof.
  intros Hh. apply sleep_accepts; [apply retry_delay_nonneg |].
  unfold hint_ok in Hh. unfold retry_delay.
  destruct (_parse_retry_seconds_from_error msg) as [v |]; [exact Hh |].
  pose proof (backoff_delay_range (attempt - 1)) as [_ Hle].
  assert (60 <= SLEEP_MAX)%Q by (vm_compute; discriminate). lra.
Qed.

Lemma pow_in_range msg attempt : (attempt <= 1024)%nat -> pow_overflows msg attempt = false.
Proof.
  intros H. unfold pow_overflows. destruct (_parse_retry_seconds_from_error msg); [reflexivity |].
  apply Nat.ltb_ge. exact H.
Qed.

(** The [except] branch when it can announce and take its wait. *)
Lemma gemini_except_run env max_retries attempt e w :
  pow_overflows (exn_msg e) attempt = false ->
  printable env (LogRetry e (retry_delay (exn_msg e) (Z.of_nat attempt))
                          attempt max_retries) = true ->
  sleep_error (retry_delay (exn_msg e) (Z.of_nat attempt)) = None ->
  gemini_except env max_retries attempt e w =
  (Ok (Caught e),
   tick env (retry_delay (exn_msg e) (Z.of_nat attempt))
     (note (EvSleep (retry_delay (exn_msg e) (Z.of_nat attempt)))
        (note (EvPrint (LogRetry e (retry_delay (exn_msg e) (Z.of_nat attempt))
                                 attempt max_retries)) w))).
Proof.
  intros Hpow Hprint Hsleep. unfold gemini_except. rewrite Hpow.
  generalize dependent (retry_delay (exn_msg e) (Z.of_nat attempt)). intros d Hprint Hsleep.
  unfold bind at 1. cbn [ret]. unfold bind at 1. rewrite (print_ok _ _ _ Hprint).
  cbn [emit]. unfold bind at 1. rewrite time_sleep_ok by exact Hsleep. reflexivity.
Qed.





Lemma gemini_failure_exception n : is_exception (gemini_failure n) = true.
Proof. reflexivity. Qed.





Lemma timely_world0 : timely Scenario.world0.
Proof. discriminate. Qed.



(** C6, at the failing input. A response whose text is a single space
    passes the emptiness test of [call_gemini_with_retry], which is made
    before [strip()], and the rewrite operation returns the empty string as
    a success after one generation call. *)
Lemma rewrite_returns_empty_string :
  let run := generate_text_with_gemini Scenario.env_blank (lit "Texto de base.")
               (lit "gemini-1.5-flash") Scenario.world0 in
  fst run = Ok [] /\ length (prompts (trace (snd run))) = 1%nat.
Proof. cbv zeta. split; vm_compute; reflexivity. Qed.

(** ** One attempt, whatever happens *)

Lemma generate_run env model_name prompt w :
  model_generate env model_name prompt w
  = (Ok (generate_content env (n_gen w) model_name prompt),
     snd (model_generate env model_name prompt w)).
Proof.
  destruct (model_generate env model_name prompt w) as [r w'] eqn:E.
  destruct (generate_value _ _ _ _ _ _ E) as (-> & _). reflexivity.
Qed.

Lemma gemini_attempt_cases env model_name prompt max_retries attempt w :
  gemini_attempt env model_name prompt max_retries attempt w =
  match _client_throttle_sleep env w with
  | (Raise e, w1) =>
      if is_exception e then gemini_except env max_retries attempt e w1 else (Raise e, w1)
  | (Ok _, w1) =>
      let w2 := snd (model_generate env model_name prompt w1) in
      match response_text (generate_content env (n_gen w1) model_name prompt) with
      | Ok text => (Ok (Return text), w2)
      | Raise e =>
          if is_exception e then gemini_except env max_retries attempt e w2
          else (Raise e, w2)
      end
  end.
Proof.
  unfold gemini_attempt, try_except, gemini_try. unfold bind at 1.
  destruct (_client_throttle_sleep env w) as [[[] | e] w1]; [| reflexivity].
  unfold bind at 1. rewrite generate_run. cbv zeta.
  generalize (snd (model_generate env model_name prompt w1)) as w2. intros w2.
  unfold bind, lift_result, ret, raise.
  destruct (response_text _); reflexivity.
Qed.

(** An attempt sends its prompt at most once, and exactly once when the
    clock is sound. *)
Lemma gemini_attempt_sends env model_name prompt max_retries attempt w r w' :
  gemini_attempt env model_name prompt max_retries attempt w = (r, w') ->
  exists n, (n <= 1)%nat /\
            prompts (trace w') = prompts (trace w) ++ repeat prompt n /\
            (steady env -> timely w -> n = 1%nat).
Proof.
  rewrite gemini_attempt_cases.
  destruct (_client_throttle_sleep env w) as [[[] | e1] w1] eqn:E1;
    destruct (throttle_silent _ _ _ _ E1) as [Hp1 _].
  - cbv zeta. destruct (generate_value _ _ _ _ _ _ (generate_run env model_name prompt w1))
      as (_ & _ & _ & Ht2).
    assert (Hp2 : prompts (trace (snd (model_generate env model_name prompt w1)))
                  = prompts (trace w) ++ [prompt])
      by (rewrite Ht2, prompts_app, Hp1; reflexivity).
    revert Hp2. generalize (snd (model_generate env model_name prompt w1)) as w2.
    intros w2 Hp2 H. exists 1%nat. split; [lia |]. split; [| reflexivity].
    destruct (response_text _) as [text | e]; [now injection H as _ <- |].
    destruct (is_exception e); [| now injection H as _ <-].
    destruct (gemini_except_quiet _ _ _ _ _ _ _ H) as (_ & _ & _ & _ & _ & _ & _ & -> & _).
    exact Hp2.
  - destruct (throttle_raises _ _ _ _ E1) as [_ He1]. rewrite He1. intros H.
    exists 0%nat. split; [lia |]. split.
    + destruct (gemini_except_quiet _ _ _ _ _ _ _ H) as (_ & _ & _ & _ & _ & _ & _ & -> & _).
      cbn. now rewrite app_nil_r.
    + intros Hs Hw. destruct (throttle_total env w Hs Hw) as (w1' & E & _). congruence.
Qed.

Lemma gemini_loop_sends env model_name prompt max_retries range :
  forall w r w',
    gemini_loop env model_name prompt max_retries range w = (r, w') ->
    exists n, (n <= length range)%nat /\
              prompts (trace w') = prompts (trace w) ++ repeat prompt n /\
              (steady env -> timely w -> range <> [] -> (1 <= n)%nat).
Proof.
  induction range as [| a rest IH]; intros w r w' H.
  - injection H as _ <-. exists 0%nat. split; [lia |]. split; [| congruence].
    cbn. now rewrite app_nil_r.
  - cbn [gemini_loop] in H. unfold bind in H.
    destruct (gemini_attempt env model_name prompt max_retries a w) as [[s | e] w1] eqn:E1;
      destruct (gemini_attempt_sends _ _ _ _ _ _ _ _ E1) as (n1 & Hn1 & Hp1 & Hone).
    + assert (Hrest : s = Continue \/ (exists e, s = Caught e) ->
                      exists n, (n <= S (length rest))%nat /\
                                prompts (trace w') = prompts (trace w) ++ repeat prompt n /\
                                (steady env -> timely w -> (1 <= n)%nat)).
      { intros Hs.
        assert (H' : gemini_loop env model_name prompt max_retries rest w1 = (r, w'))
          by (destruct Hs as [-> | [e ->]]; exact H).
        destruct (IH _ _ _ H') as (n2 & Hn2 & Hp2 & _).
        exists (n1 + n2)%nat. split; [lia |]. split.
        - rewrite Hp2, Hp1, <- app_assoc, repeat_app. reflexivity.
        - intros Hst Hw. rewrite (Hone Hst Hw). lia. }
      destruct s as [text | | e].
      * injection H as _ <-. exists n1. cbn [length]. split; [lia |]. split; [exact Hp1 |].
        intros Hst Hw _. rewrite (Hone Hst Hw). lia.
      * destruct Hrest as (n & Hn & Hp & H1); [now left |]. exists n. cbn [length].
        split; [exact Hn |]. split; [exact Hp | intros Hst Hw _; now apply H1].
      * destruct Hrest as (n & Hn & Hp & H1); [right; eauto |]. exists n. cbn [length].
        split; [exact Hn |]. split; [exact Hp | intros Hst Hw _; now apply H1].
    + injection H as _ <-. exists n1. cbn [length]. split; [lia |]. split; [exact Hp1 |].
      intros Hst Hw _. rewrite (Hone Hst Hw). lia.
Qed.

(** The prompts of one rewrite, whatever happens: at most six primary
    prompts, then at most six alternate ones. *)
Lemma generate_text_sends env base_text model_name w r w' :
  generate_text_with_gemini env base_text model_name w = (r, w') ->
  exists np na,
    (np <= 6)%nat /\ (na <= 6)%nat /\
    prompts (trace w') = prompts (trace w) ++ repeat (primary_prompt base_text) np
                           ++ repeat (alternate_prompt base_text) na /\
    (steady env -> timely w -> (1 <= np)%nat).
Proof.
  unfold generate_text_with_gemini, try_except, call_gemini_with_retry.
  destruct (gemini_loop env model_name (primary_prompt base_text) 6 (seq 1 6) w)
    as [[text | e] w1] eqn:E1;
    destruct (gemini_loop_sends _ _ _ _ _ _ _ _ E1) as (np & Hnp & Hp1 & Hone);
    rewrite length_seq in Hnp.
  - intros [= _ <-]. exists np, 0%nat. split; [lia |]. split; [lia |].
    split; [now rewrite app_nil_r |]. intros Hs Hw. apply Hone; [assumption .. | discriminate].
  - destruct (is_exception e).
    + intros H. destruct (gemini_loop_sends _ _ _ _ _ _ _ _ H) as (na & Hna & Hp2 & _).
      rewrite length_seq in Hna. exists np, na. split; [lia |]. split; [lia |].
      split; [now rewrite Hp2, Hp1, <- app_assoc |].
      intros Hs Hw. apply Hone; [assumption .. | discriminate].
    + intros [= _ <-]. exists np, 0%nat. split; [lia |]. split; [lia |].
      split; [now rewrite app_nil_r |]. intros Hs Hw. apply Hone; [assumption .. | discriminate].
Qed.

Lemma gemini_loop_gen_frame env model_name prompt max_retries range :
  always gen_frame (gemini_loop env model_name prompt max_retries range).
Proof.
  induction range as [| a rest IH]; cbn [gemini_loop]; [exact (always_raise _ _) |].
  apply (always_bind gen_frame); [apply gemini_attempt_gen_frame |].
  intros [text | | e]; [exact (always_ret _ _) | exact IH | exact IH].
Qed.

Lemma generate_text_gen_frame env base_text model_name :
  always gen_frame (generate_text_with_gemini env base_text model_name).
Proof.
  unfold generate_text_with_gemini, call_gemini_with_retry.
  apply (always_try gen_frame); [| intros _]; apply gemini_loop_gen_frame.
Qed.

(** What the generation raises when the model raises nothing else. *)
Lemma re_gemini_attempt env model_name prompt max_retries attempt :
  (forall k e, attempt_failure (generate_content env k model_name prompt) = Some e ->
               is_exception e = true) ->
  raises_exceptions (gemini_attempt env model_name prompt max_retries attempt).
Proof.
  intros Hgen w e w'. rewrite gemini_attempt_cases.
  destruct (_client_throttle_sleep env w) as [[[] | e1] w1] eqn:E1.
  - cbv zeta. generalize (snd (model_generate env model_name prompt w1)) as w2. intros w2.
    pose proof (Hgen (n_gen w1)) as Hk. unfold attempt_failure in Hk.
    destruct (response_text _) as [text | e0]; [discriminate |].
    rewrite (Hk e0 eq_refl). apply re_gemini_except.
  - destruct (throttle_raises _ _ _ _ E1) as [_ He1]. rewrite He1. apply re_gemini_except.
Qed.

Lemma re_gemini_loop env model_name prompt max_retries range :
  (forall k e, attempt_failure (generate_content env k model_name prompt) = Some e ->
               is_exception e = true) ->
  raises_exceptions (gemini_loop env model_name prompt max_retries range).
Proof.
  intros Hgen. induction range as [| a rest IH]; cbn [gemini_loop].
  - now apply re_raise.
  - apply re_bind; [now apply re_gemini_attempt |].
    intros [text | | e]; [apply re_ret | exact IH | exact IH].
Qed.

Lemma re_generate_text env base_text model_name :
  (forall k p e, attempt_failure (generate_content env k model_name p) = Some e ->
                 is_exception e = true) ->
  raises_exceptions (generate_text_with_gemini env base_text model_name).
Proof.
  intros Hgen. unfold generate_text_with_gemini, call_gemini_with_retry.
  apply re_try; [| intros _]; apply re_gemini_loop; intros k; apply Hgen.
Qed.

(** ** Pacing of the generation calls *)

Lemma spaced_snoc d ts x :
  spaced d ts -> (forall t, In t ts -> (t + d <= x)%Q) -> spaced d (ts ++ [x]).
Proof.
  induction ts as [| t1 rest IH]; intros Hs Hall; [exact I |].
  cbn [app]. destruct rest as [| t2 rest'].
  - cbn. split; [apply Hall; now left | exact I].
  - cbn [spaced app] in *. destruct Hs as [H12 Hs]. split; [assumption |].
    apply IH; [assumption |]. intros t Ht. apply Hall. now right.
Qed.

Lemma paced_frame env w w' :
  _last_call_ts w' = _last_call_ts w -> gen_times (trace w') = gen_times (trace w) ->
  keeps (paced env) w w'.
Proof. unfold keeps, paced. intros -> ->. exact (fun H => H). Qed.

Lemma quiet_paced env w w' : quiet w w' -> keeps (paced env) w w'.
Proof. intros (Hl & _ & _ & _ & _ & _ & _ & _ & Hg). now apply paced_frame. Qed.

Lemma wiki_paced env w w' : wiki_frame w w' -> keeps (paced env) w w'.
Proof. intros (Hl & _ & _ & _ & _ & _ & _ & Hg). now apply paced_frame. Qed.

Lemma save_paced env w w' : save_frame w w' -> keeps (paced env) w w'.
Proof. intros (_ & Hl & _ & _ & _ & _ & Hg). now apply paced_frame. Qed.

Lemma gemini_attempt_paced env model_name prompt max_retries attempt :
  ENFORCE_CLIENT_THROTTLE env = true -> (0 < FREE_TIER_RPM env)%Z -> steady env ->
  always (keeps (paced env)) (gemini_attempt env model_name prompt max_retries attempt).
Proof.
  intros Hon Hrpm Hsteady w r w' H Hp. rewrite gemini_attempt_cases in H.
  pose proof (min_interval_nonneg env Hrpm) as Hmi.
  destruct (_client_throttle_sleep env w) as [[[] | e1] w1] eqn:E1;
    destruct (throttle_silent _ _ _ _ E1) as [_ Hg1].
  - destruct (throttle_paces env w w1 Hon Hrpm Hsteady E1) as (Hpace & Hclock & _).
    cbv zeta in H.
    destruct (generate_value _ _ _ _ _ _ (generate_run env model_name prompt w1))
      as (_ & _ & Hl2 & Ht2).
    assert (Hp2 : paced env (snd (model_generate env model_name prompt w1))).
    { destruct Hp as [Hsp Hle]. unfold paced. rewrite Ht2, Hl2, gen_times_app, Hg1.
      cbn [gen_times flat_map app]. split.
      - apply spaced_snoc; [assumption |]. intros t Ht. specialize (Hle t Ht).
        rewrite <- Hclock. lra.
      - intros t Ht. apply in_app_or in Ht. destruct Ht as [Ht | [<- | []]].
        + specialize (Hle t Ht). lra.
        + rewrite Hclock. lra. }
    revert Hp2 H. generalize (snd (model_generate env model_name prompt w1)) as w2.
    intros w2 Hp2 H.
    destruct (response_text _) as [text | e]; [now injection H as _ <- |].
    destruct (is_exception e); [| now injection H as _ <-].
    exact (quiet_paced env _ _ (gemini_except_quiet _ _ _ _ _ _ _ H) Hp2).
  - destruct (throttle_raises _ _ _ _ E1) as [Hl1 He1]. rewrite He1 in H.
    apply (quiet_paced env _ _ (gemini_except_quiet _ _ _ _ _ _ _ H)).
    exact (paced_frame env _ _ Hl1 Hg1 Hp).
Qed.

Lemma gemini_loop_paced env model_name prompt max_retries range :
  ENFORCE_CLIENT_THROTTLE env = true -> (0 < FREE_TIER_RPM env)%Z -> steady env ->
  always (keeps (paced env)) (gemini_loop env model_name prompt max_retries range).
Proof.
  intros Hon Hrpm Hsteady. induction range as [| a rest IH]; cbn [gemini_loop].
  - exact (always_raise _ _).
  - apply (always_bind (keeps (paced env))); [now apply gemini_attempt_paced |].
    intros [text | | e]; [exact (always_ret _ _) | exact IH | exact IH].
Qed.

Lemma generate_text_paced env base_text model_name :
  ENFORCE_CLIENT_THROTTLE env = true -> (0 < FREE_TIER_RPM env)%Z -> steady env ->
  always (keeps (paced env)) (generate_text_with_gemini env base_text model_name).
Proof.
  intros Hon Hrpm Hsteady. unfold generate_text_with_gemini, call_gemini_with_retry.
  apply (always_try (keeps (paced env))); [| intros _]; now apply gemini_loop_paced.
Qed.

(** ** Pair persistence *)

Lemma path_join_inj base_dir a b : path_join base_dir a = path_join base_dir b -> a = b.
Proof.
  unfold path_join. intros H. apply app_inv_head in H. now injection H.
Qed.

Lemma pair_paths_differ env base_dir title :
  original_path env base_dir title <> ia_path env base_dir title.
Proof.
  unfold original_path, ia_path. intros H. apply path_join_inj in H.
  apply app_inv_head in H. discriminate.
Qed.

Lemma save_texts_spec env base_dir title original generated w :
  let po := original_path env base_dir title in
  let pi := ia_path env base_dir title in
  exists r w',
    save_texts env base_dir title original generated w = (r, w') /\
    match fs_fault env (n_io w) base_dir with
    | Some f => r = Raise (fault_exn f) /\ files w' = files w /\ n_io w' = S (n_io w)
    | None =>
        match fs_fault env (S (n_io w)) po with
        | Some f =>
            r = Raise (fault_exn f) /\
            files w' = match fault_written f with
                       | None => files w
                       | Some n => <[po := firstn n original]> (files w)
                       end
        | None =>
            match fs_fault env (S (S (n_io w))) pi with
            | Some f =>
                r = Raise (fault_exn f) /\
                files w' = match fault_written f with
                           | None => <[po := original]> (files w)
                           | Some n => <[pi := firstn n generated]>
                                         (<[po := original]> (files w))
                           end
            | None =>
                r = (if printable env (LogSaved (slugify (alnum env) title))
                     then Ok tt else Raise encode_error) /\
                files w' = <[pi := generated]> (<[po := original]> (files w))
            end
        end
    end.
Proof.
  cbv zeta. unfold original_path, ia_path, save_texts.
  generalize (slugify (alnum env) title) as base. intros base.
  generalize (path_join base_dir (base ++ original_suffix)) as po.
  generalize (path_join base_dir (base ++ ia_suffix)) as pi. intros pi po.
  cbv beta iota delta [ensure_dir write_file bind next_fault put_dir put_file raise].
  cbn [clock _last_call_ts files dirs n_get n_gen n_io n_step trace].
  destruct (fs_fault env (n_io w) base_dir) as [f0 |].
  { do 2 eexists. split; [reflexivity |]. cbn [files n_io]. repeat split. }
  cbv beta iota. cbn [clock _last_call_ts files dirs n_get n_gen n_io n_step trace].
  destruct (fs_fault env (S (n_io w)) po) as [f1 |].
  { destruct (fault_written f1); do 2 eexists; (split; [reflexivity |]);
      cbn [files]; repeat split. }
  cbv beta iota. cbn [clock _last_call_ts files dirs n_get n_gen n_io n_step trace].
  destruct (fs_fault env (S (S (n_io w))) pi) as [f2 |].
  { destruct (fault_written f2); do 2 eexists; (split; [reflexivity |]);
      cbn [files]; repeat split. }
  unfold print. destruct (printable env (LogSaved base));
    do 2 eexists; (split; [reflexivity |]); cbn [files]; repeat split.
Qed.

(** C7, as the code has it. [save_texts] writes the original file
    completely before it opens the generated one. When it returns, both
    files hold the given texts. When it raises, either the generated file is
    exactly as it was before the call, or the original file is complete and
    the generated one holds a prefix of its text. In particular a failure of
    the second write is raised to the caller and leaves the complete
    original file in place, without its companion when the file could not
    be opened: nothing is rolled back. *)
Theorem save_texts_pair env base_dir title original generated w :
  let po := original_path env base_dir title in
  let pi := ia_path env base_dir title in
  exists r w',
    save_texts env base_dir title original generated w = (r, w') /\
    (r = Ok tt -> files w' !! po = Some original /\ files w' !! pi = Some generated) /\
    (forall e, r = Raise e ->
       files w' !! pi = files w !! pi \/
       (files w' !! po = Some original /\
        exists n, files w' !! pi = Some (firstn n generated))) /\
    (fs_fault env (n_io w) base_dir = None ->
     fs_fault env (S (n_io w)) po = None ->
     forall f, fs_fault env (S (S (n_io w))) pi = Some f ->
       r = Raise (fault_exn f) /\ files w' !! po = Some original /\
       (fault_written f = None -> files w' !! pi = files w !! pi)).
Proof.
  intros po pi.
  pose proof (pair_paths_differ env base_dir title) as Hne. fold po pi in Hne.
  destruct (save_texts_spec env base_dir title original generated w) as (r & w' & E & H).
  fold po pi in H. exists r, w'. split; [assumption |].
  destruct (fs_fault env (n_io w) base_dir) as [f0 |].
  { destruct H as (-> & -> & _). split; [discriminate |]. split; [auto | discriminate]. }
  destruct (fs_fault env (S (n_io w)) po) as [f1 |].
  { destruct H as (-> & ->). split; [discriminate |]. split; [| discriminate].
    intros e _. left. destruct (fault_written f1); [| reflexivity].
    now rewrite lookup_insert_ne. }
  destruct (fs_fault env (S (S (n_io w))) pi) as [f2 |].
  - destruct H as (-> & ->). split; [discriminate |]. split.
    + intros e _. destruct (fault_written f2) as [n |].
      * right. rewrite lookup_insert_ne, !lookup_insert_eq by congruence. eauto.
      * left. now rewrite lookup_insert_ne.
    + intros _ _ f [= <-]. split; [reflexivity |].
      destruct (fault_written f2) as [n |].
      * rewrite lookup_insert_ne, lookup_insert_eq by congruence. split; [reflexivity | discriminate].
      * rewrite lookup_insert_eq. split; [reflexivity |].
        intros _. now rewrite lookup_insert_ne.
  - destruct H as (_ & ->).
    assert (Hboth : <[pi := generated]> (<[po := original]> (files w)) !! po = Some original /\
                    <[pi := generated]> (<[po := original]> (files w)) !! pi = Some generated).
    { rewrite lookup_insert_ne, !lookup_insert_eq by congruence. split; reflexivity. }
    split; [intros _; exact Hboth |]. split.
    + intros e _. right. split; [apply Hboth |]. exists (length generated).
      rewrite firstn_all. apply Hboth.
    + intros _ _ f. discriminate.
Qed.

(** C7, as the specification words it, fails: when the disk fills up
    between the two writes, [save_texts] raises and leaves the original
    file of the pair without its generated companion. *)
Lemma partial_pair_after_failed_write :
  let run := save_texts Scenario.env_disk_full SAVE_DIR (lit "Big Data")
               (lit "Texto original.") (lit "Texto gerado.") Scenario.world0 in
  fst run = Raise (fault_exn Scenario.disk_full)
  /\ ~ all_or_nothing (files (snd run))
         (original_path Scenario.env_disk_full SAVE_DIR (lit "Big Data"))
         (ia_path Scenario.env_disk_full SAVE_DIR (lit "Big Data")).
Proof.
  intros run. split; [vm_compute; reflexivity |].
  assert (Ho : files (snd run)
               !! original_path Scenario.env_disk_full SAVE_DIR (lit "Big Data")
               = Some (lit "Texto original.")) by (vm_compute; reflexivity).
  assert (Hi : files (snd run)
               !! ia_path Scenario.env_disk_full SAVE_DIR (lit "Big Data")
               = None) by (vm_compute; reflexivity).
  intros [[_ [x Hx]] | [Hn _]]; congruence.
Qed.

Lemma save_texts_keeps env base_dir title original generated :
  always files_kept (save_texts env base_dir title original generated).
Proof.
  intros w r w' E.
  destruct (save_texts_spec env base_dir title original generated w) as (r1 & w1 & E1 & H).
  rewrite E in E1. injection E1 as <- <-.
  repeat match type of H with
         | match ?x with _ => _ end => destruct x
         end;
    destruct H as (_ & Hfs & _) || destruct H as (_ & Hfs);
    intros p Hp; rewrite Hfs;
    repeat match goal with
           | |- context [fault_written ?f] => destruct (fault_written f)
           end;
    repeat apply is_Some_insert; exact Hp.
Qed.

(** Once both files are written they hold the two texts, whether or not
    the closing line could be printed. *)
Lemma save_texts_written env base_dir title original generated w r w' :
  save_texts env base_dir title original generated w = (r, w') ->
  fs_fault env (n_io w) base_dir = None ->
  fs_fault env (S (n_io w)) (original_path env base_dir title) = None ->
  fs_fault env (S (S (n_io w))) (ia_path env base_dir title) = None ->
  files w' !! original_path env base_dir title = Some original /\
  files w' !! ia_path env base_dir title = Some generated.
Proof.
  intros E H0 H1 H2.
  pose proof (pair_paths_differ env base_dir title) as Hne.
  destruct (save_texts_spec env base_dir title original generated w) as (r1 & w1 & E1 & H).
  rewrite E in E1. injection E1 as <- <-. rewrite H0, H1, H2 in H. destruct H as [_ ->].
  rewrite lookup_insert_ne, !lookup_insert_eq by congruence. split; reflexivity.
Qed.

Lemma save_texts_ok env base_dir title original generated w w' :
  save_texts env base_dir title original generated w = (Ok tt, w') ->
  files w' !! original_path env base_dir title = Some original /\
  files w' !! ia_path env base_dir title = Some generated.
Proof.
  intros E.
  destruct (save_texts_spec env base_dir title original generated w) as (r1 & w1 & E1 & H).
  rewrite E in E1. injection E1 as Hr <-.
  destruct (fs_fault env (n_io w) base_dir) eqn:H0; [destruct H as (-> & _); discriminate |].
  destruct (fs_fault env (S (n_io w)) _) eqn:H1; [destruct H as (-> & _); discriminate |].
  destruct (fs_fault env (S (S (n_io w))) _) eqn:H2; [destruct H as (-> & _); discriminate |].
  exact (save_texts_written _ _ _ _ _ _ _ _ E H0 H1 H2).
Qed.

Lemma write_file_save env path content : always save_frame (write_file env path content).
Proof.
  unfold write_file. apply (always_bind save_frame); [apply next_fault_save |].
  intros [f |]; [| apply put_file_save].
  destruct (fault_written f); [| exact (always_raise _ _)].
  apply (always_bind save_frame); [apply put_file_save | intros; exact (always_raise _ _)].
Qed.

Lemma save_texts_frame env base_dir title original generated :
  always save_frame (save_texts env base_dir title original generated).
Proof.
  unfold save_texts. apply (always_bind save_frame).
  - unfold ensure_dir. apply (always_bind save_frame); [apply next_fault_save |].
    intros [f |]; [exact (always_raise _ _) | apply put_dir_save].
  - intros _. apply (always_bind save_frame); [apply write_file_save | intros _].
    apply (always_bind save_frame); [apply write_file_save | intros _; apply print_save].
Qed.

Lemma next_fault_value env path w r w' :
  next_fault env path w = (r, w') -> r = Ok (fs_fault env (n_io w) path).
Proof. intros H. run_primitive H. reflexivity. Qed.

Lemma re_write_file env path content :
  (forall k p f, fs_fault env k p = Some f -> is_exception (fault_exn f) = true) ->
  raises_exceptions (write_file env path content).
Proof.
  intros Hfs. unfold write_file.
  apply (re_bind_val (fun o => forall f, o = Some f -> is_exception (fault_exn f) = true)).
  - intros w a w' H f ->. apply next_fault_value in H. injection H as H. symmetry in H.
    exact (Hfs _ _ _ H).
  - intros w e w' H. apply next_fault_value in H. discriminate.
  - intros [f |] Hf; [| intros w e w'; discriminate].
    specialize (Hf f eq_refl). destruct (fault_written f); [| now apply re_raise].
    apply re_bind; [intros w e w'; discriminate | intros; now apply re_raise].
Qed.

Lemma re_save_texts env base_dir title original generated :
  (forall k p f, fs_fault env k p = Some f -> is_exception (fault_exn f) = true) ->
  raises_exceptions (save_texts env base_dir title original generated).
Proof.
  intros Hfs. unfold save_texts. apply re_bind.
  - unfold ensure_dir.
    apply (re_bind_val (fun o => forall f, o = Some f -> is_exception (fault_exn f) = true)).
    + intros w a w' H f ->. apply next_fault_value in H. injection H as H. symmetry in H.
      exact (Hfs _ _ _ H).
    + intros w e w' H. apply next_fault_value in H. discriminate.
    + intros [f |] Hf; [apply re_raise; now apply Hf | intros w e w'; discriminate].
  - intros _. apply re_bind; [now apply re_write_file | intros _].
    apply re_bind; [now apply re_write_file | intros _; apply re_print].
Qed.

(** ** The pipeline for one topic *)

Lemma wiki_timely w w' : wiki_frame w w' -> later w w' -> keeps timely w w'.
Proof. unfold wiki_frame, later, keeps, timely. intros (-> & _) H1 H2. lra. Qed.

Lemma collect_body_run env raw_title lang intro_only model_name w r w' :
  collect_body env raw_title lang intro_only model_name w = (r, w') ->
  files_kept w w' /\
  match get_wikipedia_article env (recursion_limit env) raw_title lang intro_only w with
  | (Raise e, w1) => r = Raise e /\ w' = w1
  | (Ok (norm_title, body), w1) =>
      let sent := truncate_for_prompt body MAX_CHARS_PROMPT in
      (exists np na,
          (np <= 6)%nat /\ (na <= 6)%nat /\
          prompts (trace w') = prompts (trace w) ++ repeat (primary_prompt sent) np
                                 ++ repeat (alternate_prompt sent) na /\
          (steady env -> timely w -> (1 <= np)%nat)) /\
      (r = Ok tt ->
       files w' !! original_path env SAVE_DIR norm_title = Some body /\
       files w' !! ia_path env SAVE_DIR norm_title <> None)
  end.
Proof.
  unfold collect_body, bind.
  destruct (get_wikipedia_article env (recursion_limit env) raw_title lang intro_only w)
    as [[[norm_title body] | e] w1] eqn:E1;
    pose proof (get_wikipedia_article_frame _ _ _ _ _ _ _ _ E1) as Hf1;
    pose proof Hf1 as (_ & Hfiles1 & _ & _ & Hio1 & Hp1 & _).
  2: { intros [= <- <-]. split; [now apply files_kept_eq | split; reflexivity]. }
  destruct (generate_text_with_gemini env (truncate_for_prompt body MAX_CHARS_PROMPT)
              model_name w1) as [rg wg] eqn:Eg.
  pose proof (generate_text_gen_frame _ _ _ _ _ _ Eg) as (Hfiles2 & _ & _ & Hio2 & _).
  destruct (generate_text_sends _ _ _ _ _ _ Eg) as (np & na & Hnp & Hna & Hp & Hone).
  assert (Hpr : forall w2, prompts (trace w2) = prompts (trace wg) ->
             exists np na,
               (np <= 6)%nat /\ (na <= 6)%nat /\
               prompts (trace w2) =
               prompts (trace w) ++
                 repeat (primary_prompt (truncate_for_prompt body MAX_CHARS_PROMPT)) np ++
                 repeat (alternate_prompt (truncate_for_prompt body MAX_CHARS_PROMPT)) na /\
               (steady env -> timely w -> (1 <= np)%nat)).
  { intros w2 ->. exists np, na. split; [exact Hnp |]. split; [exact Hna |].
    split; [now rewrite Hp, Hp1 |].
    intros Hs Hw. apply Hone; [exact Hs |].
    apply (wiki_timely _ _ Hf1); [| exact Hw].
    exact (get_wikipedia_article_later _ _ Hs _ _ _ _ _ _ E1). }
  destruct rg as [generated | e].
  - intros Es.
    pose proof (save_texts_keeps _ _ _ _ _ _ _ _ Es) as Hk.
    pose proof (save_texts_frame _ _ _ _ _ _ _ _ Es) as (_ & _ & _ & _ & _ & Hp3 & _).
    split.
    { etransitivity; [| exact Hk]. apply files_kept_eq. congruence. }
    cbv zeta. split; [exact (Hpr _ Hp3) |].
    intros ->. destruct (save_texts_ok _ _ _ _ _ _ _ Es) as [Ho Hi].
      split; [assumption | congruence].
  - intros [= <- <-]. split; [apply files_kept_eq; congruence |].
    cbv zeta. split; [exact (Hpr _ eq_refl) | discriminate].
Qed.

Lemma after_print_ok env line w :
  printable env line = true -> print env line w = (Ok tt, after_print env line w).
Proof. intros H. unfold after_print. now rewrite (print_ok _ _ _ H). Qed.

Lemma trace_after_print env line w :
  printable env line = true -> trace (after_print env line w) = trace w ++ [EvPrint line].
Proof. intros H. unfold after_print. now rewrite (print_ok _ _ _ H). Qed.

Lemma prompts_after_print env line w :
  prompts (trace (after_print env line w)) = prompts (trace w).
Proof.
  destruct (print env line w) as [r w'] eqn:E. unfold after_print. rewrite E. cbn [snd].
  now destruct (print_quiet _ _ _ _ _ E) as (_ & _ & _ & _ & _ & _ & _ & -> & _).
Qed.

Lemma files_after_print env line w : files (after_print env line w) = files w.
Proof.
  destruct (print env line w) as [r w'] eqn:E. unfold after_print. rewrite E. cbn [snd].
  exact (quiet_files _ _ (print_quiet _ _ _ _ _ E)).
Qed.

Lemma timely_after_print env line w : timely w -> timely (after_print env line w).
Proof.
  destruct (print env line w) as [r w'] eqn:E. unfold after_print. rewrite E. cbn [snd].
  exact (print_timely _ _ _ _ _ E).
Qed.

(** The call for one topic, by the outcome of its [try] block. *)
Lemma collect_run env raw_title lang intro_only model_name w :
  printable env (LogCollecting raw_title) = true ->
  collect_and_generate_for_title env raw_title lang intro_only model_name w =
  match collect_body env raw_title lang intro_only model_name
          (after_print env (LogCollecting raw_title) w) with
  | (Ok _, w1) => (Ok tt, w1)
  | (Raise e, w1) =>
      if is_exception e then print env (LogFailed raw_title e) w1 else (Raise e, w1)
  end.
Proof.
  intros Hp. unfold collect_and_generate_for_title.
  rewrite (bind_ok _ _ _ _ _ (after_print_ok env _ w Hp)). unfold try_except.
  destruct (collect_body _ _ _ _ _ _) as [[[] | e] w1]; reflexivity.
Qed.

Lemma collect_refused env raw_title lang intro_only model_name w :
  printable env (LogCollecting raw_title) = false ->
  collect_and_generate_for_title env raw_title lang intro_only model_name w =
  (Raise encode_error, w).
Proof.
  intros Hp. unfold collect_and_generate_for_title.
  now rewrite (bind_raise _ _ _ _ _ (print_refused env _ w Hp)).
Qed.




(** ** When the call for a topic returns *)

Lemma re_collect_body env raw_title lang intro_only model_name :
  uninterrupted env ->
  raises_exceptions (collect_body env raw_title lang intro_only model_name).
Proof.
  intros (Hget & Hgen & Hfs). unfold collect_body.
  apply re_bind; [now apply re_get_wikipedia_article |].
  intros [norm_title original_text].
  apply re_bind; [apply re_generate_text; intros k p; apply Hgen |].
  intros generated. now apply re_save_texts.
Qed.

(** On a standard output that encodes every character, and when nothing
    outside [Exception] is raised, the call for a topic returns. *)
Lemma collect_total env raw_title lang intro_only model_name w :
  stdout_any env -> uninterrupted env ->
  exists w',
    collect_and_generate_for_title env raw_title lang intro_only model_name w = (Ok tt, w') /\
    forall e w1,
      collect_body env raw_title lang intro_only model_name
        (after_print env (LogCollecting raw_title) w) = (Raise e, w1) ->
      w' = after_print env (LogFailed raw_title e) w1 /\
      trace w' = trace w1 ++ [EvPrint (LogFailed raw_title e)].
Proof.
  intros Hout Hun. rewrite (collect_run _ _ _ _ _ _ (printable_any _ _ Hout)).
  destruct (collect_body _ _ _ _ _ _) as [[[] | e] w1] eqn:E.
  - eexists. split; [reflexivity | discriminate].
  - rewrite (re_collect_body _ _ _ _ _ Hun _ _ _ E).
    rewrite (after_print_ok _ _ _ (printable_any _ _ Hout)).
    eexists. split; [reflexivity |]. intros e' w1' [= <- <-].
    split; [reflexivity | now apply trace_after_print, printable_any].
Qed.

(** C10. Whenever a topic resolves to an article, every prompt sent to the
    model for it embeds [truncate_for_prompt body]: the first 12000
    characters followed by the truncation marker when the body is longer
    than 12000 characters, the body itself otherwise; and when the pair is
    saved the original file holds the full body. At least one prompt is
    sent when the clock is sound, and the call returns when the standard
    output encodes its lines and nothing outside [Exception] is raised. *)
Theorem prompt_truncated_original_full env raw_title lang intro_only model_name w :
  printable env (LogCollecting raw_title) = true ->
  let w0 := after_print env (LogCollecting raw_title) w in
  let run := collect_and_generate_for_title env raw_title lang intro_only model_name w in
  let w' := snd run in
  (stdout_any env -> uninterrupted env -> fst run = Ok tt) /\
  forall norm_title body w1,
    get_wikipedia_article env (recursion_limit env) raw_title lang intro_only w0
    = (Ok (norm_title, body), w1) ->
    let sent := truncate_for_prompt body MAX_CHARS_PROMPT in
    (exists np na,
        prompts (trace w') = prompts (trace w) ++ repeat (primary_prompt sent) np
                               ++ repeat (alternate_prompt sent) na /\
        (np <= 6)%nat /\ (na <= 6)%nat /\
        (steady env -> timely w -> (1 <= np)%nat)) /\
    ((MAX_CHARS_PROMPT < length body)%nat ->
     sent = firstn MAX_CHARS_PROMPT body ++ truncation_marker) /\
    ((length body <= MAX_CHARS_PROMPT)%nat -> sent = body) /\
    (forall wb,
        collect_body env raw_title lang intro_only model_name w0 = (Ok tt, wb) ->
        files w' !! original_path env SAVE_DIR norm_title = Some body).
Proof.
  intros Hprint w0 run w'. split.
  { intros Hout Hun. unfold run.
    destruct (collect_total env raw_title lang intro_only model_name w Hout Hun)
      as (wx & E & _).
    now rewrite E. }
  unfold w', run. rewrite (collect_run _ _ _ _ _ _ Hprint). fold w0.
  destruct (collect_body env raw_title lang intro_only model_name w0) as [r wb] eqn:E.
  pose proof (collect_body_run _ _ _ _ _ _ _ _ E) as [_ H].
  assert (Hw0 : prompts (trace w0) = prompts (trace w))
    by (unfold w0; apply prompts_after_print).
  assert (Htrunc :
            forall body,
              ((MAX_CHARS_PROMPT < length body)%nat ->
               truncate_for_prompt body MAX_CHARS_PROMPT
               = firstn MAX_CHARS_PROMPT body ++ truncation_marker) /\
              ((length body <= MAX_CHARS_PROMPT)%nat ->
               truncate_for_prompt body MAX_CHARS_PROMPT = body)).
  { intros body. unfold truncate_for_prompt, slice_to.
    destruct (Nat.leb_spec (length body) MAX_CHARS_PROMPT); split; intros; lia || reflexivity. }
  intros norm_title body wa Ea. rewrite Ea in H. cbv zeta in H.
  destruct H as ((np & na & Hnp & Hna & Hp & Hone) & Hsaved).
  destruct (Htrunc body) as [Hlong Hshort]. cbv zeta.
  assert (Hwend : forall wend, prompts (trace wend) = prompts (trace wb) ->
             exists np na,
               prompts (trace wend) =
               prompts (trace w) ++
                 repeat (primary_prompt (truncate_for_prompt body MAX_CHARS_PROMPT)) np ++
                 repeat (alternate_prompt (truncate_for_prompt body MAX_CHARS_PROMPT)) na /\
               (np <= 6)%nat /\ (na <= 6)%nat /\ (steady env -> timely w -> (1 <= np)%nat)).
  { intros wend ->. exists np, na. split; [now rewrite Hp, Hw0 |].
    split; [exact Hnp |]. split; [exact Hna |].
    intros Hs Hw. apply Hone; [exact Hs |]. unfold w0. now apply timely_after_print. }
  destruct r as [[] | e].
  - cbn [snd]. split; [exact (Hwend _ eq_refl) |].
    split; [exact Hlong |]. split; [exact Hshort |].
    intros wb' _. apply Hsaved. reflexivity.
  - split.
    + apply Hwend. destruct (is_exception e); [| reflexivity].
      change (snd (print env (LogFailed raw_title e) wb))
        with (after_print env (LogFailed raw_title e) wb).
      apply prompts_after_print.
    + split; [exact Hlong |]. split; [exact Hshort |]. intros wb'. discriminate.
Qed.

Lemma prompt_truncated_original_full_witness :
  let w' := snd (collect_and_generate_for_title Scenario.env_but_one (lit "Blockchain")
                   WIKI_LANG false (lit "gemini-1.5-flash") Scenario.world0) in
  let po := original_path Scenario.env_but_one SAVE_DIR (lit "Blockchain") in
  prompts (trace w') = [primary_prompt (lit "Texto sobre Blockchain")] /\
  files w' !! po = Some (lit "Texto sobre Blockchain").
Proof.
  intros w' po.
  destruct (proj2 (prompt_truncated_original_full Scenario.env_but_one (lit "Blockchain")
                     WIKI_LANG false (lit "gemini-1.5-flash") Scenario.world0 eq_refl)
              (lit "Blockchain") (lit "Texto sobre Blockchain")
              (snd (get_wikipedia_article Scenario.env_but_one 1000 (lit "Blockchain")
                      WIKI_LANG false
                      (after_print Scenario.env_but_one (LogCollecting (lit "Blockchain"))
                         Scenario.world0))))
    as (_ & _ & _ & Hsaved).
  - vm_compute. reflexivity.
  - split; [vm_compute; reflexivity |].
    eapply Hsaved. vm_compute. reflexivity.
Defined.

(** ** The batch *)








(** An interrupt during the first topic is not a failure of that topic: it
    leaves [collect_and_generate_for_title] and [main] without a failure
    line, and no other topic is taken up. *)
Example interrupt_halts_batch :
  let run := main Scenario.env_interrupted Scenario.two_topics (lit "gemini-1.5-flash")
               Scenario.world0 in
  fst run = Raise Scenario.interrupt
  /\ log (trace (snd run))
     = [LogModel (lit "gemini-1.5-flash"); LogLang WIKI_LANG INTRO_ONLY;
        LogCollecting (lit "Inexistente")].
Proof. vm_compute. split; reflexivity. Qed.

(** The scenario of the specification: of three topics the second is not
    found; the batch ends normally, the failure is logged with the topic,
    and the first and third topics have their pairs on disk while the second
    has none. *)
Example three_topics_second_missing :
  let run := main Scenario.env_but_one Scenario.three_topics (lit "gemini-1.5-flash")
               Scenario.world0 in
  let fs := files (snd run) in
  let po := original_path Scenario.env_but_one SAVE_DIR in
  let pi := ia_path Scenario.env_but_one SAVE_DIR in
  fst run = Ok tt
  /\ fs !! po (lit "Blockchain") = Some (lit "Texto sobre Blockchain")
  /\ fs !! pi (lit "Blockchain") = Some (lit "Texto reescrito.")
  /\ fs !! po (lit "Criptografia") = Some (lit "Texto sobre Criptografia")
  /\ fs !! pi (lit "Criptografia") = Some (lit "Texto reescrito.")
  /\ fs !! po (lit "Inexistente") = None /\ fs !! pi (lit "Inexistente") = None
  /\ In (LogFailed (lit "Inexistente")
           (Exn ValueError (quoted msg_page_not_found (lit "Inexistente"))))
        (log (trace (snd run))).
Proof.
  intros run fs po pi.
  split; [vm_compute; reflexivity |]. split; [vm_compute; reflexivity |].
  split; [vm_compute; reflexivity |]. split; [vm_compute; reflexivity |].
  split; [vm_compute; reflexivity |]. split; [vm_compute; reflexivity |].
  split; [vm_compute; reflexivity |].
  vm_compute. tauto.
Qed.

(** ** Pacing of the generation calls of a batch *)

Lemma print_paced env line : always (keeps (paced env)) (print env line).
Proof. intros w r w' H. exact (quiet_paced env _ _ (print_quiet _ _ _ _ _ H)). Qed.

Lemma collect_paced env raw_title lang intro_only model_name :
  ENFORCE_CLIENT_THROTTLE env = true -> (0 < FREE_TIER_RPM env)%Z -> steady env ->
  always (keeps (paced env))
         (collect_and_generate_for_title env raw_title lang intro_only model_name).
Proof.
  intros Hon Hrpm Hsteady. unfold collect_and_generate_for_title.
  apply (always_bind (keeps (paced env))); [apply print_paced | intros _].
  apply (always_try (keeps (paced env))); [| intros e; apply print_paced].
  unfold collect_body. apply (always_bind (keeps (paced env))).
  - eapply always_weaken; [apply wiki_paced | apply get_wikipedia_article_frame].
  - intros [norm_title original_text].
    apply (always_bind (keeps (paced env))); [now apply generate_text_paced | intros generated].
    eapply always_weaken; [apply save_paced | apply save_texts_frame].
Qed.

Lemma for_articles_paced env articles model_name :
  ENFORCE_CLIENT_THROTTLE env = true -> (0 < FREE_TIER_RPM env)%Z -> steady env ->
  always (keeps (paced env)) (for_articles env articles model_name).
Proof.
  intros Hon Hrpm Hsteady. induction articles as [| t rest IH]; cbn [for_articles].
  - exact (always_ret _ _).
  - apply (always_bind (keeps (paced env))); [now apply collect_paced | intros _; exact IH].
Qed.

(** C2. With the throttle enabled, a positive requests-per-minute budget
    and a clock that does not run backwards, the generation calls of a
    whole batch are issued at instants at least [60 / FREE_TIER_RPM] seconds
    apart; and each pass through the throttle returns only once that
    spacing has elapsed since the timestamp it recorded last, and records
    the clock reading at its return as the new timestamp. *)
Theorem generation_calls_spaced env articles model_name w :
  ENFORCE_CLIENT_THROTTLE env = true -> (0 < FREE_TIER_RPM env)%Z -> steady env ->
  gen_times (trace w) = [] ->
  spaced (60 / inject_Z (FREE_TIER_RPM env))
         (gen_times (trace (snd (main env articles model_name w))))
  /\ forall w0 w1,
      _client_throttle_sleep env w0 = (Ok tt, w1) ->
      (_last_call_ts w0 + 60 / inject_Z (FREE_TIER_RPM env) <= _last_call_ts w1)%Q /\
      _last_call_ts w1 = clock w1.
Proof.
  intros Hon Hrpm Hsteady Hfresh. split.
  - assert (Hmain : always (keeps (paced env)) (main env articles model_name)).
    { unfold main. apply (always_bind (keeps (paced env))); [apply print_paced | intros _].
      apply (always_bind (keeps (paced env))); [apply print_paced | intros _].
      now apply for_articles_paced. }
    destruct (main env articles model_name w) as [r w'] eqn:E. cbn [snd].
    apply (Hmain _ _ _ E). unfold paced. rewrite Hfresh. split; [exact I | intros t []].
  - intros w0 w1 E. destruct (throttle_paces env w0 w1 Hon Hrpm Hsteady E) as (H1 & H2 & _).
    split; assumption.
Qed.

Lemma generation_calls_spaced_witness :
  spaced (60 / inject_Z 15)
         (gen_times (trace (snd (main Scenario.env_but_one Scenario.three_topics
                                   (lit "gemini-1.5-flash") Scenario.world0)))).
Proof.
  refine (proj1 (generation_calls_spaced Scenario.env_but_one Scenario.three_topics
                   (lit "gemini-1.5-flash") Scenario.world0 eq_refl _ _ eq_refl)).
  - reflexivity.
  - intros k. discriminate.
Defined.

(** * Further properties of the code *)

(** ** Stripping *)

Lemma lstrip_all p s : all p s -> lstrip p s = [].
Proof. intros H. induction H as [| c s Hc _ IH]; cbn; [reflexivity | now rewrite Hc]. Qed.

Lemma lstrip_nil_all p s : lstrip p s = [] -> all p s.
Proof.
  induction s as [| c s IH]; cbn; intros H; [constructor |].
  destruct (p c) eqn:Hc; [| discriminate]. constructor; [exact Hc | exact (IH H)].
Qed.

Lemma lstrip_suffix p s : exists a, s = a ++ lstrip p s /\ all p a.
Proof.
  induction s as [| c s (a & E & Ha)]; cbn.
  - exists []. split; [reflexivity | constructor].
  - destruct (p c) eqn:Hc.
    + exists (c :: a). split; [cbn; now f_equal | now constructor].
    + exists []. split; [reflexivity | constructor].
Qed.

Lemma lstrip_head p s c r : lstrip p s = c :: r -> p c = false.
Proof.
  induction s as [| c' s IH]; cbn; [discriminate |].
  destruct (p c') eqn:Hc; [exact IH |]. intros [= <- <-]. exact Hc.
Qed.

Lemma all_rev p s : all p s -> all p (rev s).
Proof.
  intros H. induction H as [| c s Hc _ IH]; cbn; [constructor |].
  apply Forall_app. split; [assumption | now constructor].
Qed.

Lemma rstrip_prefix p s : exists b, s = rstrip p s ++ b /\ all p b.
Proof.
  unfold rstrip. destruct (lstrip_suffix p (rev s)) as (a & E & Ha).
  exists (rev a). split; [| now apply all_rev].
  apply (f_equal (@rev N)) in E. rewrite rev_involutive, rev_app_distr in E. exact E.
Qed.

Lemma rstrip_last p s r c : rstrip p s = r ++ [c] -> p c = false.
Proof.
  unfold rstrip. intros H. apply (f_equal (@rev N)) in H.
  rewrite rev_involutive, rev_app_distr in H. cbn in H.
  exact (lstrip_head p _ _ _ H).
Qed.

Lemma rstrip_head p s c : rstrip p (c :: s) = [] \/ exists r', rstrip p (c :: s) = c :: r'.
Proof.
  destruct (rstrip_prefix p (c :: s)) as (b & E & _).
  destruct (rstrip p (c :: s)) as [| c' r']; [now left |].
  right. injection E as <- _. eauto.
Qed.

Lemma strip_with_nil p s : strip_with p s = [] <-> all p s.
Proof.
  unfold strip_with. split.
  - intros H. destruct (rstrip_prefix p (lstrip p s)) as (b & E & Hb).
    rewrite H in E. cbn in E.
    destruct (lstrip p s) as [| c r] eqn:El; [now apply lstrip_nil_all |].
    exfalso. apply lstrip_head in El. subst b.
    inversion Hb; subst. congruence.
  - intros H. now rewrite (lstrip_all p s H).
Qed.

Lemma strip_with_ends p s :
  match strip_with p s with
  | [] => True
  | c :: _ => p c = false
  end
  /\ forall r c, strip_with p s = r ++ [c] -> p c = false.
Proof.
  unfold strip_with. split; [| intros r c; apply rstrip_last].
  destruct (lstrip p s) as [| c r] eqn:El; [exact I |].
  destruct (rstrip_head p r c) as [-> | (r' & ->)]; [exact I |].
  exact (lstrip_head p _ _ _ El).
Qed.

Lemma strip_with_sub p s : exists a b, s = a ++ strip_with p s ++ b /\ all p a /\ all p b.
Proof.
  unfold strip_with. destruct (lstrip_suffix p s) as (a & E & Ha).
  destruct (rstrip_prefix p (lstrip p s)) as (b & E' & Hb).
  exists a, b. split; [| split; assumption]. rewrite <- E'. exact E.
Qed.

(** X1. The text of a successful generation attempt is the response text
    without its leading and trailing white space: the response text is the
    returned text between two runs of white space, and the returned text
    neither begins nor ends with a white-space character. *)
Theorem response_text_is_stripped resp text :
  response_text resp = Ok text ->
  exists t a b,
    resp = GenReturns (Some t) /\ t <> [] /\ t = a ++ text ++ b /\
    all is_space a /\ all is_space b /\
    (forall c r, text = c :: r -> is_space c = false) /\
    (forall r c, text = r ++ [c] -> is_space c = false).
Proof.
  destruct resp as [e | [t |]]; cbn; try discriminate.
  destruct t as [| c0 t0] eqn:Et; cbn [truthy]; [discriminate |].
  intros [= <-]. rewrite <- Et.
  destruct (strip_with_sub is_space t) as (a & b & E & Ha & Hb).
  destruct (strip_with_ends is_space t) as [Hhead Hlast].
  exists t, a, b. split; [now rewrite Et |]. split; [rewrite Et; discriminate |].
  split; [exact E |]. split; [exact Ha |]. split; [exact Hb |]. split.
  - intros c r Hr. unfold strip in Hr. now rewrite Hr in Hhead.
  - intros r c Hr. exact (Hlast r c Hr).
Qed.

Lemma response_text_is_stripped_witness :
  exists t a b,
    GenReturns (Some (lit "  Texto. ")) = GenReturns (Some t) /\ t <> [] /\
    t = a ++ lit "Texto." ++ b /\ all is_space a /\ all is_space b /\
    (forall c r, lit "Texto." = c :: r -> is_space c = false) /\
    (forall r c, lit "Texto." = r ++ [c] -> is_space c = false).
Proof.
  apply (response_text_is_stripped (GenReturns (Some (lit "  Texto. "))) (lit "Texto.")).
  reflexivity.
Defined.

(** X2. A generation attempt succeeds with the empty string exactly when
    the response text is non-empty and made of white space only; an empty,
    missing or raising response never does. *)
Theorem empty_success_iff_blank resp :
  response_text resp = Ok [] <->
  exists t, resp = GenReturns (Some t) /\ t <> [] /\ all is_space t.
Proof.
  split.
  - intros H. destruct resp as [e | [t |]]; cbn in H; try discriminate.
    destruct t as [| c0 t0] eqn:Et; cbn [truthy] in H; [discriminate |].
    injection H as H. rewrite <- Et in *. apply strip_with_nil in H.
    exists t. split; [reflexivity |]. split; [rewrite Et; discriminate | exact H].
  - intros (t & -> & Hne & Hall). cbn.
    destruct t as [| c0 t0]; [congruence |]. cbn [truthy].
    f_equal. now apply strip_with_nil.
Qed.

(** ** Slugs *)

Fixpoint no_run (s : str) : Prop :=
  match s with
  | c1 :: r =>
      match r with
      | c2 :: _ => ~ (c1 = 95%N /\ c2 = 95%N) /\ no_run r
      | [] => True
      end
  | [] => True
  end.

Lemma no_run_tail c r : no_run (c :: r) -> no_run r.
Proof. destruct r; cbn; tauto. Qed.

Lemma no_run_no_double s : no_run s -> ~ double_underscore s.
Proof.
  intros H Hd. destruct Hd as (a & b & E). subst s. induction a as [| c a IH].
  - cbn in H. destruct H as [H _]. apply H. split; reflexivity.
  - apply IH. exact (no_run_tail _ _ H).
Qed.

Lemma double_underscore_sub s a b :
  double_underscore s -> double_underscore (a ++ s ++ b).
Proof.
  intros Hd. destruct Hd as (x & y & ->). exists (a ++ x), (y ++ b).
  now rewrite <- !app_assoc.
Qed.

Section SlugFacts.

Variable alnum : char -> bool.

Lemma slug_letter_spec c :
  slug_keep alnum c = true -> slug_sep c = false -> slug_letter alnum c = true.
Proof.
  unfold slug_keep, slug_sep, slug_letter, is_word. intros Hk Hs.
  apply orb_false_iff in Hs. destruct Hs as [Hs H45].
  apply orb_false_iff in Hs. destruct Hs as [Hsp H95].
  rewrite Hsp, H95, H45 in *. cbn in *.
  rewrite !orb_false_r in Hk. now rewrite Hk.
Qed.

Lemma sub_runs_shape s :
  Forall (fun c => slug_keep alnum c = true) s ->
  forall in_run,
    Forall (fun c => c = 95%N \/ slug_letter alnum c = true)
           (sub_runs slug_sep [95%N] in_run s)
    /\ no_run (sub_runs slug_sep [95%N] in_run s)
    /\ (in_run = true -> forall r, sub_runs slug_sep [95%N] in_run s <> 95%N :: r).
Proof.
  induction 1 as [| c s Hc _ IH]; intros in_run.
  - cbn. repeat split; [constructor | discriminate].
  - cbn [sub_runs]. destruct (slug_sep c) eqn:Hs.
    + destruct (IH true) as (Hall & Hnr & Hhd). destruct in_run.
      * repeat split; assumption || (intros _; now apply Hhd).
      * cbn [app]. split; [constructor; [now left | assumption] |].
        split; [| discriminate].
        cbn [no_run]. destruct (sub_runs slug_sep [95%N] true s) as [| c2 r] eqn:E;
          [exact I |].
        split; [| exact Hnr]. intros [_ ->]. exact (Hhd eq_refl r eq_refl).
    + destruct (IH false) as (Hall & Hnr & _).
      pose proof (slug_letter_spec c Hc Hs) as Hl.
      assert (Hne : c <> 95%N).
      { intros ->. vm_compute in Hs. discriminate. }
      split; [constructor; [now right | assumption] |]. split.
      * cbn [no_run]. destruct (sub_runs slug_sep [95%N] false s); [exact I |].
        split; [| exact Hnr]. intros [-> _]. congruence.
      * intros _ r [= -> _]. congruence.
Qed.

Lemma filter_keep s : Forall (fun c => slug_keep alnum c = true) (filter (slug_keep alnum) s).
Proof.
  induction s as [| c s IH]; cbn; [constructor |].
  destruct (slug_keep alnum c) eqn:Hc; [now constructor | assumption].
Qed.

Lemma Forall_sub {A} (P : A -> Prop) (a s b : list A) : Forall P (a ++ s ++ b) -> Forall P s.
Proof.
  intros H. apply Forall_app in H. destruct H as [_ H].
  apply Forall_app in H. now destruct H.
Qed.

Lemma slugify_shape s :
  (length (slugify alnum s) <= 100)%nat
  /\ Forall (fun c => c = 95%N \/ slug_letter alnum c = true) (slugify alnum s)
  /\ (forall r, slugify alnum s <> 95%N :: r)
  /\ ~ double_underscore (slugify alnum s).
Proof.
  unfold slugify, slice_to.
  set (s2 := sub_runs slug_sep [95%N] false (filter (slug_keep alnum) s)).
  destruct (sub_runs_shape _ (filter_keep s) false) as (Hall & Hnr & _). fold s2 in Hall, Hnr.
  set (p := fun c : N => (c =? 95)%N).
  destruct (strip_with_sub p s2) as (a & b & E & _ & _).
  destruct (strip_with_ends p s2) as [Hhead _].
  set (s3 := strip_with p s2) in *.
  assert (Hall3 : Forall (fun c => c = 95%N \/ slug_letter alnum c = true) s3)
    by (apply (Forall_sub _ a s3 b); now rewrite <- E).
  assert (Hnd3 : ~ double_underscore s3).
  { intros Hd. apply (no_run_no_double s2 Hnr). rewrite E.
    now apply double_underscore_sub. }
  split; [apply firstn_le_length |]. split; [| split].
  - rewrite <- (firstn_skipn 100 s3) in Hall3. apply Forall_app in Hall3. tauto.
  - intros r Hr. destruct s3 as [| c r3]; [now rewrite firstn_nil in Hr |].
    cbn in Hr. injection Hr as -> _. now cbn in Hhead.
  - intros Hd. apply Hnd3. rewrite <- (firstn_skipn 100 s3).
    rewrite <- (app_nil_l (firstn 100 s3 ++ skipn 100 s3)).
    now apply double_underscore_sub.
Qed.

(** X3. A slug is safe as a file-name stem: it has at most 100 characters,
    each an underscore or an alphanumeric character that is neither white
    space nor a hyphen; it never begins with an underscore and never holds
    two underscores in a row. *)
Theorem slugify_safe s :
  (length (slugify alnum s) <= 100)%nat
  /\ Forall (fun c => c = 95%N \/ slug_letter alnum c = true) (slugify alnum s)
  /\ (forall r, slugify alnum s <> 95%N :: r)
  /\ ~ double_underscore (slugify alnum s).
Proof.
  destruct (slugify_shape s) as (Hlen & Hchars & Hhead & Hnd).
  split; [exact Hlen |]. split; [exact Hchars |]. split; [exact Hhead | exact Hnd].
Qed.

Lemma sub_runs_all_sep s :
  Forall (fun c => slug_sep c = true) s ->
  forall in_run, Forall (fun c => (c =? 95)%N = true) (sub_runs slug_sep [95%N] in_run s).
Proof.
  induction 1 as [| c s Hc _ IH]; intros in_run; cbn; [constructor |].
  rewrite Hc. destruct in_run; [apply IH |]. cbn. constructor; [reflexivity | apply IH].
Qed.

Lemma sub_runs_letter s in_run c :
  In c s -> slug_sep c = false -> In c (sub_runs slug_sep [95%N] in_run s).
Proof.
  revert in_run. induction s as [| c' s IH]; intros in_run Hin Hs; [destruct Hin |].
  cbn [sub_runs]. destruct Hin as [-> | Hin].
  - rewrite Hs. now left.
  - destruct (slug_sep c').
    + destruct in_run; [now apply IH | cbn; right; now apply IH].
    + right. now apply IH.
Qed.

(** X4. The slug of a title is empty exactly when the title has no
    alphanumeric character other than white space, underscore and hyphen:
    every such title is saved under the same two file names. *)
Theorem slugify_empty_iff s :
  slugify alnum s = [] <-> Forall (fun c => slug_letter alnum c = false) s.
Proof.
  unfold slugify, slice_to.
  set (s1 := filter (slug_keep alnum) s).
  set (s2 := sub_runs slug_sep [95%N] false s1).
  set (p := fun c : N => (c =? 95)%N).
  assert (Hnil : firstn 100 (strip_with p s2) = [] <-> strip_with p s2 = []).
  { destruct (strip_with p s2); cbn; split; intros; congruence. }
  rewrite Hnil, strip_with_nil. split.
  - intros Hall. apply Forall_forall. intros c Hc.
    destruct (slug_letter alnum c) eqn:Hl; [| reflexivity]. exfalso.
    unfold slug_letter in Hl. apply andb_true_iff in Hl. destruct Hl as [Hl H45].
    apply andb_true_iff in Hl. destruct Hl as [Hl H95].
    apply andb_true_iff in Hl. destruct Hl as [Hal Hsp].
    apply negb_true_iff in H45, H95, Hsp.
    assert (Hk : slug_keep alnum c = true) by (unfold slug_keep, is_word; now rewrite Hal).
    assert (Hs : slug_sep c = false) by (unfold slug_sep; now rewrite Hsp, H95, H45).
    assert (Hin : In c s2).
    { apply sub_runs_letter; [| exact Hs]. apply list_elem_of_In.
      apply list_elem_of_filter. split; [now apply Is_true_true | exact Hc]. }
    apply list_elem_of_In in Hin.
    unfold all in Hall. rewrite Forall_forall in Hall. specialize (Hall c Hin).
    cbv beta in Hall. unfold p in Hall. congruence.
  - intros Hall. apply sub_runs_all_sep.
    apply Forall_forall. intros c Hc. apply list_elem_of_filter in Hc.
    destruct Hc as [Hk Hin]. apply Is_true_true in Hk.
    rewrite Forall_forall in Hall. specialize (Hall c Hin). cbv beta in Hall.
    destruct (slug_sep c) eqn:Hs; [reflexivity |].
    rewrite (slug_letter_spec c Hk Hs) in Hall. discriminate.
Qed.

End SlugFacts.

(** ** Truncation and delays *)

(** X5. A truncated prompt text is bounded: it never has more than
    [max_chars] characters plus the marker, it agrees with the text on the
    first [max_chars] characters, and a text within the limit is returned
    unchanged. *)
Theorem truncate_for_prompt_bounded text max_chars :
  (length (truncate_for_prompt text max_chars) <= max_chars + length truncation_marker)%nat
  /\ firstn max_chars (truncate_for_prompt text max_chars) = firstn max_chars text
  /\ ((length text <= max_chars)%nat -> truncate_for_prompt text max_chars = text)
  /\ ((max_chars < length text)%nat ->
      length (truncate_for_prompt text max_chars)
      = (max_chars + length truncation_marker)%nat).
Proof.
  unfold truncate_for_prompt, slice_to.
  destruct (Nat.leb_spec (length text) max_chars) as [Hle | Hgt].
  - split; [lia |]. split; [reflexivity |]. split; [reflexivity | lia].
  - assert (Hlen : length (firstn max_chars text) = max_chars)
      by (rewrite length_firstn; lia).
    split; [rewrite length_app; lia |]. split.
    + rewrite firstn_app, Hlen, Nat.sub_diag, firstn_O, app_nil_r.
      rewrite firstn_firstn, Nat.min_id. reflexivity.
    + split; [lia |]. intros _. rewrite length_app. lia.
Qed.

(** X6. The delay slept after a failed generation attempt is never
    negative; when the error text carries no hint it is positive and at
    most 60 seconds. *)
Theorem retry_delay_bounds msg attempt :
  (0 <= retry_delay msg attempt)%Q
  /\ (_parse_retry_seconds_from_error msg = None ->
      (0 < retry_delay msg attempt)%Q /\ (retry_delay msg attempt <= 60)%Q).
Proof.
  split; [apply retry_delay_nonneg |].
  unfold retry_delay. intros ->. apply backoff_delay_range.
Qed.



(** ** More on [wiki_request] *)

(** X8. When every attempt of a source-document request fails, the error
    raised reports the exception of the last attempt that raised one;
    attempts answered with status 403 leave no trace in it, so a request
    refused with 403 at every attempt raises "... tentativas: None". *)
Theorem wiki_request_reports_last_error env params lang retries backoff w :
  (forall i, (i < retries)%nat -> catchable (requests_get env (n_get w + i) params lang)) ->
  (forall i, (i < retries)%nat -> sleep_error (Qpower backoff (Z.of_nat i + 1)) = None) ->
  first_some (fun i => attempt_data (requests_get env (n_get w + i) params lang)) 0 retries
  = None ->
  fst (wiki_request env params lang retries backoff w) =
  Raise (wiki_failure retries
           (last_caught (fun i => attempt_error (requests_get env (n_get w + i) params lang))
                        0 retries None))
  /\ ((forall i, (i < retries)%nat ->
         exists err json, requests_get env (n_get w + i) params lang = GetReturns 403 err json) ->
      fst (wiki_request env params lang retries backoff w) =
      Raise (Exn RuntimeError
               (msg_wiki_failed ++ str_of_nat retries ++ msg_attempts_colon ++ msg_none))).
Proof.
  intros Hc Hs Hnone.
  assert (Hmain : fst (wiki_request env params lang retries backoff w) =
                  Raise (wiki_failure retries
                           (last_caught
                              (fun i => attempt_error (requests_get env (n_get w + i) params lang))
                              0 retries None))).
  { destruct (wiki_request_spec env params lang retries backoff w Hc Hs) as (r & w' & E & H).
    rewrite Hnone in H. destruct H as (-> & _). now rewrite E. }
  split; [exact Hmain |].
  intros H403. rewrite Hmain. do 2 f_equal.
  assert (Hacc : forall n a, (a + n <= retries)%nat ->
             last_caught (fun i => attempt_error (requests_get env (n_get w + i) params lang))
                         a n None = None).
  { induction n as [| n IH]; intros a Ha; [reflexivity |].
    cbn [last_caught]. destruct (H403 a) as (err & json & ->); [lia |].
    cbn. apply IH. lia. }
  unfold wiki_failure. now rewrite (Hacc retries 0%nat) by lia.
Qed.

Lemma catchable_timeout k params lang :
  catchable (requests_get Scenario.env_down k params lang).
Proof. intros e [= <-]. reflexivity. Qed.

Lemma wiki_request_reports_last_error_witness :
  fst (wiki_request Scenario.env_down (ReqOpenSearch (lit "Blockchain")) WIKI_LANG
         default_retries default_backoff Scenario.world0)
  = Raise (wiki_failure default_retries (Some Scenario.timeout)).
Proof.
  refine (proj1 (wiki_request_reports_last_error Scenario.env_down
                   (ReqOpenSearch (lit "Blockchain")) WIKI_LANG default_retries
                   default_backoff Scenario.world0 _ _ _)).
  - intros i _. apply catchable_timeout.
  - exact default_delays_accepted.
  - reflexivity.
Defined.

(** X9. A source-document request issues at least one and at most
    [retries] GETs before it returns a document, exactly [retries] before
    it gives up, and with [retries = 0] it raises without contacting the
    server at all. *)
Theorem wiki_request_get_budget env params lang retries backoff w :
  (forall i, (i < retries)%nat -> catchable (requests_get env (n_get w + i) params lang)) ->
  (forall i, (i < retries)%nat -> sleep_error (Qpower backoff (Z.of_nat i + 1)) = None) ->
  exists r w',
    wiki_request env params lang retries backoff w = (r, w') /\
    (n_get w' <= n_get w + retries)%nat /\
    (forall d, r = Ok d -> (n_get w < n_get w')%nat) /\
    (forall e, r = Raise e -> n_get w' = (n_get w + retries)%nat) /\
    (retries = 0%nat -> (exists e, r = Raise e) /\ trace w' = trace w).
Proof.
  intros Hc Hs.
  destruct (wiki_request_spec env params lang retries backoff w Hc Hs) as (r & w' & E & H).
  exists r, w'. split; [exact E |].
  destruct (first_some _ 0 retries) as [[i d] |] eqn:Ef.
  - apply first_some_bounds in Ef. destruct Ef as (Hi & _).
    destruct H as (-> & Hn & _). split; [lia |]. split; [intros; lia |].
    split; [discriminate |]. intros ->. lia.
  - destruct H as (-> & Hn & Htr). split; [lia |]. split; [discriminate |].
    split; [intros; exact Hn |]. intros ->. split; [eauto |].
    rewrite Htr. cbn. apply app_nil_r.
Qed.

Lemma wiki_request_get_budget_witness :
  exists r w',
    wiki_request Scenario.env_down (ReqQuery (lit "Blockchain") false) WIKI_LANG
      default_retries default_backoff Scenario.world0 = (r, w') /\
    (n_get w' <= n_get Scenario.world0 + default_retries)%nat.
Proof.
  destruct (wiki_request_get_budget Scenario.env_down (ReqQuery (lit "Blockchain") false)
              WIKI_LANG default_retries default_backoff Scenario.world0)
    as (r & w' & E & H & _).
  - intros i _. apply catchable_timeout.
  - exact default_delays_accepted.
  - exists r, w'. split; assumption.
Defined.

(** ** More on article resolution *)

(** X10. Resolution has no hop limit of its own: in a wiki where every
    looked-up title is missing and every search returns a hit, it follows
    hit after hit, one lookup and one search per level of recursion, until
    the stack is used up. The GET of the next search then raises
    [RecursionError] inside [wiki_request], which retries it with its three
    waits and raises its [RuntimeError]: that is the error resolution ends
    with. *)
Theorem article_recursion_exhausted env :
  (forall k t io lang,
      exists data, attempt_data (requests_get env k (ReqQuery t io) lang) = Some data /\
                   lookup_missing data = true) ->
  (forall k q lang,
      exists data t r, attempt_data (requests_get env k (ReqOpenSearch q) lang) = Some data /\
                       d_titles data = t :: r /\ truthy t = true) ->
  forall depth title lang intro_only w,
    exists w',
      get_wikipedia_article env depth title lang intro_only w
      = (Raise (wiki_failure default_retries (Some recursion_error)), w') /\
      n_get w' = (n_get w + 2 * depth + 1 + default_retries)%nat /\
      length (searches (trace w'))
      = (length (searches (trace w)) + depth + default_retries)%nat /\
      sleeps (trace w') = sleeps (trace w) ++ wiki_delays default_backoff default_retries.
Proof.
  intros Hlookup Hsearch. induction depth as [| depth IH]; intros title lang intro_only w.
  - rewrite get_wikipedia_article_0.
    destruct (Hlookup (n_get w) title intro_only lang) as (data & Hd & Hmiss).
    destruct (wiki_request_first_ok env _ lang w data Hd) as (w1 & E1 & Hn1 & Ht1).
    rewrite (bind_ok _ _ _ _ _ E1), Hmiss.
    destruct (out_of_stack_run env title lang w1) as (w' & E & Hn & Ht).
    exists w'. split; [now rewrite (bind_raise _ _ _ _ _ E) |]. split; [lia |].
    rewrite Ht, Ht1, !searches_app, !sleeps_app, sleeps_failed_gets. split.
    + unfold searches at 3. rewrite gets_failed_gets. cbn. rewrite !length_app. cbn.
      unfold default_retries. lia.
    + cbn. now rewrite app_nil_r.
  - rewrite get_wikipedia_article_unfold.
    destruct (Hlookup (n_get w) title intro_only lang) as (data & Hd & Hmiss).
    destruct (wiki_request_first_ok env _ lang w data Hd) as (w1 & E1 & Hn1 & Ht1).
    rewrite (bind_ok _ _ _ _ _ E1), Hmiss.
    destruct (Hsearch (n_get w1) title lang) as (sdata & t & r & Hs & Htitles & Htruthy).
    destruct (wiki_request_first_ok env _ lang w1 sdata Hs) as (w2 & E2 & Hn2 & Ht2).
    unfold search_wikipedia_title. unfold bind at 1. unfold bind at 1. rewrite E2.
    rewrite Htitles. cbn [ret falsy default]. rewrite Htruthy. cbn [negb].
    destruct (IH t lang intro_only w2) as (w' & E & Hn & Hlen & Hsl).
    exists w'. split; [exact E |]. split; [lia |]. split.
    + rewrite Hlen, Ht2, Ht1, !searches_app. cbn. rewrite !length_app. cbn. lia.
    + rewrite Hsl, Ht2, Ht1, !sleeps_app. cbn. now rewrite !app_nil_r.
Qed.

Lemma article_recursion_exhausted_witness :
  exists w',
    get_wikipedia_article env_cycle 5 (lit "Ciclo") WIKI_LANG false Scenario.world0
    = (Raise (wiki_failure default_retries (Some recursion_error)), w') /\
    n_get w' = (n_get Scenario.world0 + 2 * 5 + 1 + default_retries)%nat /\
    length (searches (trace w'))
    = (length (searches (trace Scenario.world0)) + 5 + default_retries)%nat /\
    sleeps (trace w')
    = sleeps (trace Scenario.world0) ++ wiki_delays default_backoff default_retries.
Proof.
  apply (article_recursion_exhausted env_cycle).
  - intros k t io lang. eexists. split; reflexivity.
  - intros k q lang. do 3 eexists. split; [reflexivity |]. split; reflexivity.
Defined.

(** ** What a failed stage costs *)

(** X11. A topic whose resolution fails costs nothing downstream: no
    prompt is sent to the model and no file operation is attempted. The
    call then prints the failure line and returns when the error is an
    instance of [Exception] and the line can be encoded; when the line
    cannot be encoded the [UnicodeEncodeError] of [print] leaves the call,
    and an error that is not an instance of [Exception] leaves it as it
    is. *)
Theorem unresolved_topic_costs_nothing env raw_title lang intro_only model_name w e w1 :
  printable env (LogCollecting raw_title) = true ->
  get_wikipedia_article env (recursion_limit env) raw_title lang intro_only
    (after_print env (LogCollecting raw_title) w) = (Raise e, w1) ->
  let run := collect_and_generate_for_title env raw_title lang intro_only model_name w in
  prompts (trace (snd run)) = prompts (trace w) /\ n_gen (snd run) = n_gen w /\
  files (snd run) = files w /\ n_io (snd run) = n_io w /\
  (is_exception e = true -> printable env (LogFailed raw_title e) = true ->
   fst run = Ok tt /\ trace (snd run) = trace w1 ++ [EvPrint (LogFailed raw_title e)]) /\
  (is_exception e = true -> printable env (LogFailed raw_title e) = false ->
   run = (Raise encode_error, w1)) /\
  (is_exception e = false -> run = (Raise e, w1)).
Proof.
  intros Hprint Ea run. unfold run.
  rewrite (collect_run _ _ _ _ _ _ Hprint). unfold collect_body.
  rewrite (bind_raise _ _ _ _ _ Ea).
  destruct (get_wikipedia_article_frame _ _ _ _ _ _ _ _ Ea)
    as (_ & Hfiles & _ & Hgen & Hio & Hp & _).
  destruct (print env (LogCollecting raw_title) w) as [r0 w0] eqn:E0.
  unfold after_print in *. rewrite E0 in *. cbn [snd] in *.
  destruct (print_quiet _ _ _ _ _ E0) as (_ & Hf0 & _ & _ & Hg0 & Hi0 & _ & Hp0 & _).
  assert (Hafter : forall r2 w2, print env (LogFailed raw_title e) w1 = (r2, w2) ->
             prompts (trace w2) = prompts (trace w) /\ n_gen w2 = n_gen w /\
             files w2 = files w /\ n_io w2 = n_io w).
  { intros r2 w2 E2.
    destruct (print_quiet _ _ _ _ _ E2) as (_ & Hf2 & _ & _ & Hg2 & Hi2 & _ & Hp2 & _).
    repeat split; congruence. }
  destruct (is_exception e) eqn:He.
  - destruct (print env (LogFailed raw_title e) w1) as [r2 w2] eqn:E2.
    destruct (Hafter _ _ eq_refl) as (H1 & H2 & H3 & H4). cbn [fst snd].
    split; [exact H1 |]. split; [exact H2 |]. split; [exact H3 |]. split; [exact H4 |].
    split; [| split; [| discriminate]].
    + intros _ Hpf. rewrite (print_ok _ _ _ Hpf) in E2. injection E2 as <- <-.
      split; reflexivity.
    + intros _ Hpf. rewrite (print_refused _ _ _ Hpf) in E2. now injection E2 as <- <-.
  - cbn [fst snd]. split; [congruence |]. split; [congruence |]. split; [congruence |].
    split; [congruence |]. split; [discriminate |]. split; [discriminate | reflexivity].
Qed.

Lemma unresolved_topic_costs_nothing_witness :
  let run := collect_and_generate_for_title Scenario.env_but_one (lit "Inexistente")
               WIKI_LANG false (lit "gemini-1.5-flash") Scenario.world0 in
  fst run = Ok tt /\ prompts (trace (snd run)) = [] /\ files (snd run) = ∅.
Proof.
  intros run.
  destruct (unresolved_topic_costs_nothing Scenario.env_but_one (lit "Inexistente") WIKI_LANG
              false (lit "gemini-1.5-flash") Scenario.world0
              (Exn ValueError (quoted msg_page_not_found (lit "Inexistente")))
              (snd (get_wikipedia_article Scenario.env_but_one 1000 (lit "Inexistente")
                      WIKI_LANG false
                      (after_print Scenario.env_but_one (LogCollecting (lit "Inexistente"))
                         Scenario.world0)))
              eq_refl)
    as (Hp & _ & Hf & _ & Hok & _).
  - vm_compute. reflexivity.
  - split; [apply Hok; reflexivity |]. split; [exact Hp | exact Hf].
Defined.

(** X12. A topic whose rewriting fails touches no file: no file operation
    is attempted and the file system is as before the call. The call then
    prints the failure line and returns when the error is an instance of
    [Exception] and the line can be encoded, and raises otherwise. *)
Theorem unwritten_topic_saves_nothing env raw_title lang intro_only model_name w
    norm_title body w1 e wg :
  printable env (LogCollecting raw_title) = true ->
  get_wikipedia_article env (recursion_limit env) raw_title lang intro_only
    (after_print env (LogCollecting raw_title) w) = (Ok (norm_title, body), w1) ->
  generate_text_with_gemini env (truncate_for_prompt body MAX_CHARS_PROMPT) model_name w1
  = (Raise e, wg) ->
  let run := collect_and_generate_for_title env raw_title lang intro_only model_name w in
  files (snd run) = files w /\ n_io (snd run) = n_io w /\
  (is_exception e = true -> printable env (LogFailed raw_title e) = true ->
   fst run = Ok tt /\ trace (snd run) = trace wg ++ [EvPrint (LogFailed raw_title e)]) /\
  (is_exception e = true -> printable env (LogFailed raw_title e) = false ->
   run = (Raise encode_error, wg)) /\
  (is_exception e = false -> run = (Raise e, wg)).
Proof.
  intros Hprint Ea Eg run. unfold run.
  rewrite (collect_run _ _ _ _ _ _ Hprint). unfold collect_body.
  rewrite (bind_ok _ _ _ _ _ Ea). cbv beta iota zeta.
  rewrite (bind_raise _ _ _ _ _ Eg).
  destruct (get_wikipedia_article_frame _ _ _ _ _ _ _ _ Ea)
    as (_ & Hfiles & _ & _ & Hio & _).
  destruct (generate_text_gen_frame _ _ _ _ _ _ Eg) as (Hfiles2 & _ & _ & Hio2 & _).
  destruct (print env (LogCollecting raw_title) w) as [r0 w0] eqn:E0.
  unfold after_print in *. rewrite E0 in *. cbn [snd] in *.
  destruct (print_quiet _ _ _ _ _ E0) as (_ & Hf0 & _ & _ & _ & Hi0 & _).
  destruct (is_exception e) eqn:He.
  - destruct (print env (LogFailed raw_title e) wg) as [r2 w2] eqn:E2.
    destruct (print_quiet _ _ _ _ _ E2) as (_ & Hf2 & _ & _ & _ & Hi2 & _).
    cbn [fst snd]. split; [congruence |]. split; [congruence |].
    split; [| split; [| discriminate]].
    + intros _ Hpf. rewrite (print_ok _ _ _ Hpf) in E2. injection E2 as <- <-.
      split; reflexivity.
    + intros _ Hpf. rewrite (print_refused _ _ _ Hpf) in E2. now injection E2 as <- <-.
  - cbn [fst snd]. split; [congruence |]. split; [congruence |].
    split; [discriminate |]. split; [discriminate | reflexivity].
Qed.

Lemma unwritten_topic_saves_nothing_witness :
  let run := collect_and_generate_for_title env_mute (lit "Blockchain") WIKI_LANG false
               (lit "gemini-1.5-flash") Scenario.world0 in
  fst run = Ok tt /\ files (snd run) = ∅ /\ n_io (snd run) = 0%nat.
Proof.
  intros run.
  destruct (unwritten_topic_saves_nothing env_mute (lit "Blockchain") WIKI_LANG false
              (lit "gemini-1.5-flash") Scenario.world0 (lit "Blockchain")
              (lit "Texto sobre Blockchain")
              (snd (get_wikipedia_article env_mute (recursion_limit env_mute)
                      (lit "Blockchain") WIKI_LANG false
                      (after_print env_mute (LogCollecting (lit "Blockchain"))
                         Scenario.world0)))
              (gemini_failure 6)
              (snd (generate_text_with_gemini env_mute
                      (truncate_for_prompt (lit "Texto sobre Blockchain") MAX_CHARS_PROMPT)
                      (lit "gemini-1.5-flash")
                      (snd (get_wikipedia_article env_mute (recursion_limit env_mute)
                              (lit "Blockchain") WIKI_LANG false
                              (after_print env_mute (LogCollecting (lit "Blockchain"))
                                 Scenario.world0)))))
              eq_refl)
    as (Hf & Hio & Hok & _).
  - vm_compute. reflexivity.
  - vm_compute. reflexivity.
  - split; [apply Hok; reflexivity |]. split; [exact Hf | exact Hio].
Defined.

(** ** More on persistence *)

(** X13. Saving a pair touches no other file: every path other than the
    two files of the pair holds after the call what it held before. *)
Theorem save_texts_touches_only_pair env base_dir title original generated w p :
  files (snd (save_texts env base_dir title original generated w)) !! p = files w !! p
  \/ p = original_path env base_dir title \/ p = ia_path env base_dir title.
Proof.
  destruct (save_texts_spec env base_dir title original generated w) as (r & w' & E & H).
  rewrite E. cbn [snd].
  destruct (decide (p = original_path env base_dir title)) as [-> | Hpo]; [tauto |].
  destruct (decide (p = ia_path env base_dir title)) as [-> | Hpi]; [tauto |].
  left.
  repeat match type of H with
         | match ?x with _ => _ end => destruct x
         end;
    (destruct H as (_ & -> & _) || destruct H as (_ & ->));
    repeat match goal with
           | |- context [fault_written ?f] => destruct (fault_written f)
           end;
    rewrite ?lookup_insert_ne by congruence; reflexivity.
Qed.

(** X14. Titles with the same slug share their files: when a pair is saved
    for one title and then for another whose slug is the same, the files of
    the first title hold the texts of the second. *)
Theorem same_slug_overwrites env base_dir t1 t2 o1 g1 o2 g2 w w1 w2 :
  slugify (alnum env) t1 = slugify (alnum env) t2 ->
  save_texts env base_dir t1 o1 g1 w = (Ok tt, w1) ->
  save_texts env base_dir t2 o2 g2 w1 = (Ok tt, w2) ->
  files w2 !! original_path env base_dir t1 = Some o2 /\
  files w2 !! ia_path env base_dir t1 = Some g2.
Proof.
  intros Hslug _ E2. unfold original_path, ia_path. rewrite Hslug.
  exact (save_texts_ok _ _ _ _ _ _ _ E2).
Qed.

Lemma same_slug_overwrites_witness :
  slugify Scenario.ascii_alnum (lit "C++") = slugify Scenario.ascii_alnum (lit "C") /\
  files (snd (save_texts Scenario.env_down SAVE_DIR (lit "C") (lit "Sobre C.") (lit "IA C.")
                (snd (save_texts Scenario.env_down SAVE_DIR (lit "C++") (lit "Sobre C++.")
                        (lit "IA C++.") Scenario.world0))))
    !! original_path Scenario.env_down SAVE_DIR (lit "C++") = Some (lit "Sobre C.").
Proof.
  split; [reflexivity |].
  refine (proj1 (same_slug_overwrites Scenario.env_down SAVE_DIR (lit "C++") (lit "C")
                   (lit "Sobre C++.") (lit "IA C++.") (lit "Sobre C.") (lit "IA C.")
                   Scenario.world0 _ _ _ _ _)).
  - reflexivity.
  - vm_compute. reflexivity.
  - vm_compute. reflexivity.
Defined.

(** ** More on the throttle *)

(** X15. The throttle never blocks longer than the minimum interval: with
    the throttle enabled, a clock that does not run backwards and a
    recorded timestamp that is not in the future, one pass sleeps at most
    once, for a positive time of at most [60 / FREE_TIER_RPM] seconds; and
    with the throttle disabled or a non-positive budget it does nothing at
    all, not even reading the clock. *)
Theorem throttle_wait_bounded env w :
  (negb (ENFORCE_CLIENT_THROTTLE env) || (FREE_TIER_RPM env <=? 0)%Z = true ->
   _client_throttle_sleep env w = (Ok tt, w))
  /\ (ENFORCE_CLIENT_THROTTLE env = true -> (0 < FREE_TIER_RPM env)%Z -> steady env ->
      (_last_call_ts w <= clock w)%Q ->
      exists w',
        _client_throttle_sleep env w = (Ok tt, w') /\
        (sleeps (trace w') = sleeps (trace w) \/
         exists d, sleeps (trace w') = sleeps (trace w) ++ [d] /\
                   (0 < d)%Q /\ (d <= min_interval env)%Q)).
Proof.
  split.
  - intros Hoff. rewrite throttle_cases. cbv zeta. now rewrite Hoff.
  - intros Hon Hrpm Hsteady Hlast. rewrite throttle_cases. cbv zeta.
    rewrite (throttle_on env Hon Hrpm).
    pose proof (Hsteady (n_step w)) as H0.
    pose proof (min_interval_small env Hrpm) as Hsmall.
    destruct (Qlt_le_dec _ _) as [Hlt | Hge].
    + assert (Hpos : (0 < min_interval env - (clock (tick env 0 w) - _last_call_ts w))%Q)
        by lra.
      assert (Hle : (min_interval env - (clock (tick env 0 w) - _last_call_ts w)
                     <= min_interval env)%Q) by (cbn; lra).
      rewrite sleep_accepts.
      * eexists. split; [reflexivity |]. right. eexists. split; [| split; [exact Hpos | exact Hle]].
        cbn [stamp tick note snd set_last_call_ts pass_time emit trace].
        rewrite <- app_assoc, sleeps_app. reflexivity.
      * lra.
      * assert (60 <= SLEEP_MAX)%Q by (vm_compute; discriminate). lra.
    + eexists. split; [reflexivity |]. left. reflexivity.
Qed.

Lemma throttle_wait_bounded_witness :
  exists w',
    _client_throttle_sleep Scenario.env_down Scenario.world0 = (Ok tt, w') /\
    (sleeps (trace w') = sleeps (trace Scenario.world0) \/
     exists d, sleeps (trace w') = sleeps (trace Scenario.world0) ++ [d] /\
               (0 < d)%Q /\ (d <= min_interval Scenario.env_down)%Q).
Proof.
  refine (proj2 (throttle_wait_bounded Scenario.env_down Scenario.world0) eq_refl _ _ _).
  - reflexivity.
  - intros k. discriminate.
  - discriminate.
Defined.

(** ** Model selection *)

Lemma first_available_spec available preferred want :
  first_available available preferred = Some want <->
  exists before after,
    preferred = before ++ want :: after /\ want ∈ available /\
    Forall (fun p => p ∉ available) before.
Proof.
  induction preferred as [| p rest IH]; cbn.
  - split; [discriminate |]. intros (before & after & E & _). destruct before; discriminate.
  - destruct (bool_decide_reflect (p ∈ available)) as [Hin | Hout].
    + split.
      * intros [= ->]. exists [], rest. split; [reflexivity |]. split; [assumption | constructor].
      * intros (before & after & E & Hw & Hb). destruct before as [| b before].
        -- now injection E as ->.
        -- injection E as -> _. inversion Hb; subst. contradiction.
    + rewrite IH. split.
      * intros (before & after & -> & Hw & Hb). exists (p :: before), after.
        split; [reflexivity |]. split; [assumption | now constructor].
      * intros (before & after & E & Hw & Hb). destruct before as [| b before].
        -- injection E as -> _. contradiction.
        -- injection E as -> ->. inversion Hb; subst. eauto.
Qed.

Lemma first_available_none available preferred :
  first_available available preferred = None <-> Forall (fun p => p ∉ available) preferred.
Proof.
  induction preferred as [| p rest IH]; cbn.
  - split; [constructor | reflexivity].
  - destruct (bool_decide_reflect (p ∈ available)) as [Hin | Hout].
    + split; [discriminate |]. intros H. inversion H; subst. contradiction.
    + rewrite IH. split; [now constructor | intros H; now inversion H].
Qed.

Lemma str_min_cases a b : str_min a b = a \/ str_min a b = b.
Proof. unfold str_min. destruct (str_ltb b a); auto. Qed.

Lemma fold_min_in r x : fold_left str_min r x = x \/ In (fold_left str_min r x) r.
Proof.
  revert x. induction r as [| y r IH]; intros x; cbn; [now left |].
  destruct (IH (str_min x y)) as [H | H].
  - rewrite H. destruct (str_min_cases x y) as [-> | ->]; [now left | right; now left].
  - right. now right.
Qed.

Lemma least_in l m : least l = Some m -> In m l.
Proof.
  destruct l as [| x r]; cbn; [discriminate |]. intros [= <-].
  destruct (fold_min_in r x) as [-> | H]; [now left | now right].
Qed.

Lemma available_models_spec models name :
  name ∈ available_models models <->
  exists m, In m models /\ supports_generate m = true /\
            name = str_replace models_prefix [] (m_name m).
Proof.
  unfold available_models. rewrite elem_of_list_to_set, list_elem_of_In, in_map_iff.
  split.
  - intros (m & <- & Hm). apply filter_In in Hm. destruct Hm as [Hin Hs]. eauto.
  - intros (m & Hin & Hs & ->). exists m. split; [reflexivity |]. apply filter_In. now split.
Qed.

Lemma pick_available_model_in models preferred name :
  pick_available_model models preferred = Ok name -> name ∈ available_models models.
Proof.
  unfold pick_available_model.
  destruct (first_available _ preferred) as [want |] eqn:Ef.
  - intros [= <-]. apply first_available_spec in Ef.
    now destruct Ef as (_ & _ & _ & Hin & _).
  - destruct (least _) as [m |] eqn:El; [| discriminate].
    intros [= <-]. apply least_in in El. now apply list_elem_of_In, elem_of_elements in El.
Qed.

(** X16. Model selection never returns a model the account cannot use:
    the name it returns is the name, without its "models/" prefix, of a
    listed model that supports "generateContent"; and it raises exactly
    when no listed model supports it. *)
Theorem pick_available_model_supported models preferred :
  (forall name,
      pick_available_model models preferred = Ok name ->
      exists m, In m models /\ supports_generate m = true /\
                name = str_replace models_prefix [] (m_name m))
  /\ ((exists e, pick_available_model models preferred = Raise e) <->
      Forall (fun m => supports_generate m = false) models).
Proof.
  split.
  - intros name H. apply available_models_spec. exact (pick_available_model_in _ _ _ H).
  - unfold pick_available_model. split.
    + intros [e He]. destruct (first_available _ preferred); [discriminate |].
      destruct (least _) as [m |] eqn:El; [discriminate |].
      assert (Hnil : elements (available_models models) = [])
        by (destruct (elements _); [reflexivity | discriminate]).
      apply List.Forall_forall. intros m Hm.
      destruct (supports_generate m) eqn:Hs; [| reflexivity]. exfalso.
      assert (Hin : str_replace models_prefix [] (m_name m) ∈ available_models models)
        by (apply available_models_spec; eauto).
      apply elem_of_elements in Hin. rewrite Hnil in Hin. inversion Hin.
    + intros Hnone.
      assert (Hempty : forall name, name ∉ available_models models).
      { intros name Hin. apply available_models_spec in Hin.
        destruct Hin as (m & Hm & Hs & _).
        rewrite List.Forall_forall in Hnone. rewrite (Hnone m Hm) in Hs. discriminate. }
      assert (Hf : first_available (available_models models) preferred = None).
      { apply first_available_none. apply Forall_forall. intros p _. apply Hempty. }
      rewrite Hf. destruct (elements _) as [| x r] eqn:Ee; cbn; [eauto |].
      exfalso. apply (Hempty x). apply elem_of_elements. rewrite Ee. now left.
Qed.

(** X17. Model selection follows the order of preference: it returns a
    preferred model exactly when that model is available and no model
    earlier in the list is. *)
Theorem pick_available_model_prefers models before want after :
  want ∈ available_models models ->
  Forall (fun p => p ∉ available_models models) before ->
  pick_available_model models (before ++ want :: after) = Ok want.
Proof.
  intros Hin Hb. unfold pick_available_model.
  assert (Hf : first_available (available_models models) (before ++ want :: after) = Some want)
    by (apply first_available_spec; eauto).
  now rewrite Hf.
Qed.

Lemma pick_available_model_prefers_witness :
  pick_available_model some_models MODEL_PREF = Ok (lit "gemini-pro").
Proof.
  apply (pick_available_model_prefers some_models
           [lit "gemini-1.5-flash"; lit "gemini-1.5-flash-8b"; lit "gemini-1.5-pro"]
           (lit "gemini-pro") []).
  - apply (bool_decide_unpack _). vm_compute. reflexivity.
  - repeat constructor; apply (bool_decide_unpack _); vm_compute; reflexivity.
Defined.

Lemma str_ltb_irrefl a : str_ltb a a = false.
Proof.
  induction a as [| x a IH]; cbn; [reflexivity |]. now rewrite N.ltb_irrefl.
Qed.

Lemma str_ltb_asym a : forall b, str_ltb a b = true -> str_ltb b a = false.
Proof.
  induction a as [| x a IH]; intros [| y b]; cbn; try discriminate; try reflexivity.
  destruct (N.ltb_spec x y), (N.ltb_spec y x); try lia; try discriminate; try reflexivity.
  apply IH.
Qed.

(** [a <= b] as the program's [sorted] sees it. *)
Lemma str_le_trans a : forall b c,
  str_ltb b a = false -> str_ltb c b = false -> str_ltb c a = false.
Proof.
  induction a as [| x a IH]; intros [| y b] [| z c]; cbn; try discriminate; try reflexivity.
  destruct (N.ltb_spec y x), (N.ltb_spec x y), (N.ltb_spec z y), (N.ltb_spec y z),
    (N.ltb_spec z x), (N.ltb_spec x z); try lia; try discriminate; try reflexivity.
  apply IH.
Qed.

Lemma fold_min_least r : forall x y,
  In y (x :: r) -> str_ltb y (fold_left str_min r x) = false.
Proof.
  induction r as [| z r IH]; intros x y Hy.
  - destruct Hy as [<- | []]. cbn. apply str_ltb_irrefl.
  - cbn [fold_left].
    assert (Hx : str_ltb x (str_min x z) = false /\ str_ltb z (str_min x z) = false).
    { unfold str_min. destruct (str_ltb z x) eqn:E.
      - split; [now apply str_ltb_asym | apply str_ltb_irrefl].
      - split; [apply str_ltb_irrefl | exact E]. }
    destruct Hx as [Hx Hz].
    assert (Hm : str_ltb (str_min x z) (fold_left str_min r (str_min x z)) = false)
      by (apply IH; now left).
    destruct Hy as [<- | [<- | Hy]].
    + exact (str_le_trans _ _ _ Hm Hx).
    + exact (str_le_trans _ _ _ Hm Hz).
    + apply IH. now right.
Qed.

(** X18. When none of the preferred models is available but some model
    is, model selection returns the available name that comes first in
    string order: no available name is smaller. *)
Theorem pick_available_model_fallback models preferred name :
  Forall (fun p => p ∉ available_models models) preferred ->
  pick_available_model models preferred = Ok name ->
  name ∈ available_models models /\
  forall other, other ∈ available_models models -> str_ltb other name = false.
Proof.
  intros Hnone. unfold pick_available_model.
  rewrite (proj2 (first_available_none _ _) Hnone).
  destruct (elements (available_models models)) as [| x r] eqn:Ee; cbn; [discriminate |].
  intros [= <-]. split.
  - apply elem_of_elements. rewrite Ee. apply list_elem_of_In.
    destruct (fold_min_in r x) as [-> | H]; [now left | now right].
  - intros other Ho. apply elem_of_elements in Ho. rewrite Ee in Ho.
    apply list_elem_of_In in Ho. now apply fold_min_least.
Qed.

Lemma pick_available_model_fallback_witness :
  lit "gemini-2.0-flash" ∈ available_models some_models /\
  forall other, other ∈ available_models some_models ->
                str_ltb other (lit "gemini-2.0-flash") = false.
Proof.
  apply (pick_available_model_fallback some_models [lit "gemini-1.5-flash"]
           (lit "gemini-2.0-flash")).
  - repeat constructor; apply (bool_decide_unpack _); vm_compute; reflexivity.
  - vm_compute. reflexivity.
Defined.

(** X19. Start-up yields a model only with a credential: [select_model]
    raises when the key is unset or empty, whatever the account lists, and
    otherwise it is the choice of [pick_available_model] among [MODEL_PREF],
    which is a model of the account that supports "generateContent". *)
Theorem select_model_needs_key api_key models :
  (falsy api_key = true -> select_model api_key models = Raise (Exn RuntimeError msg_no_key))
  /\ (forall name,
         select_model api_key models = Ok name ->
         (exists key, api_key = Some key /\ key <> []) /\
         name ∈ available_models models).
Proof.
  unfold select_model, ensure_gemini. split.
  - intros ->. reflexivity.
  - intros name. destruct api_key as [[| c key] |]; cbn; try discriminate.
    intros H. split; [eexists; split; [reflexivity | discriminate] |].
    exact (pick_available_model_in _ _ _ H).
Qed.

(** ** File names and the consumer's key *)

Lemma basename_join base_dir name :
  Forall (fun c => c <> 47%N) name -> basename (path_join base_dir name) = name.
Proof.
  intros Hname. unfold basename, path_join. rewrite !rev_app_distr. cbn [rev app].
  rewrite <- app_assoc. cbn [app].
  rewrite (span_app (fun c => negb (c =? 47)%N) (rev name) (47%N :: rev base_dir)).
  - cbn [fst]. apply rev_involutive.
  - apply all_rev. unfold all. apply List.Forall_forall. intros c Hc.
    rewrite List.Forall_forall in Hname. specialize (Hname c Hc).
    apply negb_true_iff. now apply N.eqb_neq.
  - reflexivity.
Qed.

Lemma replace_skip old new r : forall k, (length r <= k)%nat -> replace_from old new k r = [].
Proof.
  induction r as [| c r IH]; intros k Hk; [reflexivity |].
  cbn in Hk. destruct k as [| k]; [lia |]. cbn. apply IH. lia.
Qed.

Lemma is_prefix_refl p : is_prefix p p = true.
Proof. induction p as [| a p IH]; cbn; [reflexivity |]. now rewrite N.eqb_refl. Qed.

Lemma is_prefix_length p : forall s, is_prefix p s = true -> (length p <= length s)%nat.
Proof.
  induction p as [| a p IH]; intros [| b s]; cbn; try discriminate; try lia.
  intros H. apply andb_true_iff in H. destruct H as [_ H]. apply IH in H. lia.
Qed.

Lemma replace_end old s :
  old <> [] ->
  (forall a b, s = a ++ b -> b <> [] -> is_prefix old (b ++ old) = false) ->
  str_replace old [] (s ++ old) = s.
Proof.
  intros Hold. unfold str_replace. induction s as [| c s IH]; intros Hfree.
  - destruct old as [| o old']; [congruence |]. cbn [app replace_from].
    rewrite is_prefix_refl. cbn [app]. apply replace_skip. cbn. lia.
  - cbn [app replace_from].
    change (c :: s ++ old) with ((c :: s) ++ old).
    rewrite (Hfree [] (c :: s) eq_refl) by discriminate. f_equal.
    apply IH. intros a b -> Hb. exact (Hfree (c :: a) b eq_refl Hb).
Qed.

Lemma replace_id old new s :
  (forall a b, s = a ++ b -> is_prefix old b = false) -> str_replace old new s = s.
Proof.
  unfold str_replace. induction s as [| c s IH]; intros Hfree; [reflexivity |].
  cbn [replace_from]. rewrite (Hfree [] (c :: s) eq_refl). f_equal.
  apply IH. intros a b ->. exact (Hfree (c :: a) b eq_refl).
Qed.

(** A pattern that begins with exactly two underscores does not occur in a
    text without double underscore, even when the text is followed by two
    underscores, except at that very end. *)
Lemma no_double_free s x pat tail :
  ~ double_underscore s -> x <> 95%N ->
  forall a b, s = a ++ b -> b <> [] ->
    is_prefix (95%N :: 95%N :: x :: pat) (b ++ 95%N :: 95%N :: tail) = false
    /\ is_prefix (95%N :: 95%N :: x :: pat) b = false.
Proof.
  intros Hnd Hx a b -> Hb. destruct b as [| c b]; [congruence |].
  cbn [app is_prefix]. destruct (N.eqb_spec 95 c) as [<- | Hc]; [| split; reflexivity].
  cbn [andb]. destruct b as [| c2 b].
  - cbn. rewrite (proj2 (N.eqb_neq x 95) Hx). split; reflexivity.
  - cbn [app is_prefix]. destruct (N.eqb_spec 95 c2) as [<- | Hc2]; [| split; reflexivity].
    exfalso. apply Hnd. exists a, b. reflexivity.
Qed.

(** X20. The training script finds the pairs that [save_texts] writes: for
    a character database in which "/" is not alphanumeric, its key of
    either file of a pair is the slug of the title, so the two files of a
    pair get the same key and are matched. *)
Theorem base_key_recovers_slug env base_dir title :
  alnum env 47%N = false ->
  base_key (original_path env base_dir title) = slugify (alnum env) title /\
  base_key (ia_path env base_dir title) = slugify (alnum env) title.
Proof.
  intros Hslash.
  destruct (slugify_shape (alnum env) title) as (_ & Hchars & _ & Hnd).
  set (slug := slugify (alnum env) title) in *.
  assert (Hno47 : Forall (fun c => c <> 47%N) slug).
  { apply List.Forall_forall. intros c Hc.
    rewrite Forall_forall in Hchars. apply list_elem_of_In in Hc.
    destruct (Hchars c Hc) as [-> | Hl]; [discriminate |].
    intros ->. unfold slug_letter in Hl. now rewrite Hslash in Hl. }
  assert (Hsuf : forall suf, forallb (fun c => negb (c =? 47)%N) suf = true ->
                             Forall (fun c => c <> 47%N) (slug ++ suf)).
  { intros suf Hs. apply Forall_app. split; [exact Hno47 |].
    apply List.Forall_forall. intros c Hc. rewrite forallb_forall in Hs.
    specialize (Hs c Hc). apply negb_true_iff in Hs. now apply N.eqb_neq. }
  assert (Hfree_slug : forall x pat, x <> 95%N ->
             forall a b, slug = a ++ b -> is_prefix (95%N :: 95%N :: x :: pat) b = false).
  { intros x pat Hx a b E. destruct b as [| c b]; [reflexivity |].
    apply (no_double_free slug x pat [] Hnd Hx a (c :: b) E). discriminate. }
  unfold base_key, original_path, ia_path. fold slug. split.
  - rewrite basename_join by (apply Hsuf; reflexivity).
    rewrite (replace_end original_suffix slug) by
      (discriminate ||
       (intros a b E Hb;
        apply (no_double_free slug 111%N _ _ Hnd ltac:(discriminate) a b E Hb))).
    apply replace_id. apply (Hfree_slug 105%N). discriminate.
  - rewrite basename_join by (apply Hsuf; reflexivity).
    rewrite (replace_id original_suffix [] (slug ++ ia_suffix)).
    + apply (replace_end ia_suffix slug); [discriminate |].
      intros a b E Hb.
      apply (no_double_free slug 105%N _ _ Hnd ltac:(discriminate) a b E Hb).
    + intros a b E. apply app_eq_app in E. destruct E as (l & [[E ->] | [-> E]]).
      * destruct l as [| c l].
        -- reflexivity.
        -- apply (no_double_free slug 111%N _ _ Hnd ltac:(discriminate) a (c :: l) E).
           discriminate.
      * destruct (is_prefix original_suffix b) eqn:Ep; [| reflexivity].
        apply is_prefix_length in Ep. apply (f_equal (@length N)) in E.
        rewrite length_app in E. cbn in E, Ep. lia.
Qed.

Lemma base_key_recovers_slug_witness :
  base_key (original_path Scenario.env_down SAVE_DIR (lit "Big Data"))
  = slugify Scenario.ascii_alnum (lit "Big Data") /\
  base_key (ia_path Scenario.env_down SAVE_DIR (lit "Big Data"))
  = slugify Scenario.ascii_alnum (lit "Big Data").
Proof.
  apply (base_key_recovers_slug Scenario.env_down SAVE_DIR (lit "Big Data")).
  reflexivity.
Defined.

(** ** The waits of an exhausted generation call *)

Lemma retry_sleeps_fresh b t :
  match t with EvSleep _ :: _ => False | _ => True end ->
  retry_sleeps b t = retry_sleeps false t.
Proof. destruct t as [| [| | d | line] t]; intros H; [reflexivity .. | destruct H | reflexivity]. Qed.

Lemma retry_sleeps_app t1 : forall b t2,
  match t2 with EvSleep _ :: _ => False | _ => True end ->
  retry_sleeps b (t1 ++ t2) = retry_sleeps b t1 ++ retry_sleeps false t2.
Proof.
  induction t1 as [| ev t1 IH]; intros b t2 H2.
  - now apply retry_sleeps_fresh.
  - destruct ev as [| | d | line]; cbn [app retry_sleeps].
    + now apply IH.
    + now apply IH.
    + destruct b; cbn [app]; now rewrite IH.
    + destruct line; now apply IH.
Qed.

(** The events of a failed attempt: what the throttle adds, the call, the
    retry line and the wait. *)
Lemma gemini_attempt_failed env model_name prompt max_retries attempt w e :
  stdout_any env -> steady env -> timely w -> (attempt <= 1024)%nat ->
  attempt_failure (generate_content env (n_gen w) model_name prompt) = Some e ->
  is_exception e = true -> hint_ok (exn_msg e) ->
  exists w',
    gemini_attempt env model_name prompt max_retries attempt w = (Ok (Caught e), w') /\
    n_gen w' = S (n_gen w) /\ timely w' /\
    retry_sleeps false (trace w')
    = retry_sleeps false (trace w) ++ [retry_delay (exn_msg e) (Z.of_nat attempt)] /\
    sleeps (trace w') <> sleeps (trace w).
Proof.
  intros Hout Hsteady Hw Hatt Hfail Hexc Hhint.
  destruct (throttle_total env w Hsteady Hw) as (w1 & E1 & Hw1).
  destruct (throttle_frame _ _ _ _ E1) as (_ & Hn1 & thr & Ht1 & Hthr).
  pose proof (generate_run env model_name prompt w1) as E2.
  pose proof (generate_timely _ _ _ Hsteady _ _ _ E2 Hw1) as Hw2.
  destruct (generate_value _ _ _ _ _ _ E2) as (_ & Hn2 & _ & Ht2).
  revert E2 Hw2 Hn2 Ht2. generalize (snd (model_generate env model_name prompt w1)) as w2.
  intros w2 E2 Hw2 Hn2 Ht2. rewrite Hn1 in *.
  unfold attempt_failure in Hfail.
  destruct (response_text (generate_content env (n_gen w) model_name prompt))
    as [text | e'] eqn:Er; [discriminate |]. injection Hfail as ->.
  pose proof (gemini_except_run env max_retries attempt e w2
                (pow_in_range _ _ Hatt) (printable_any _ _ Hout)
                (retry_delay_accepted _ _ Hhint)) as Ex.
  eexists. split.
  { unfold gemini_attempt. erewrite try_caught; [exact Ex | | exact Hexc].
    unfold gemini_try.
    rewrite (bind_ok _ _ _ _ _ E1), (bind_ok _ _ _ _ _ E2), Er. reflexivity. }
  split; [exact Hn2 |]. split.
  { assert (Hq : always (keeps timely) (gemini_except env max_retries attempt e))
      by now apply gemini_except_timely.
    exact (Hq _ _ _ Ex Hw2). }
  cbn [tick note snd pass_time emit trace]. rewrite Ht2, Ht1, <- !app_assoc.
  generalize (retry_delay (exn_msg e) (Z.of_nat attempt)) as d. intros d. split.
  - rewrite retry_sleeps_app.
    + f_equal. destruct Hthr as [-> | [d0 [-> | ->]]]; reflexivity.
    + destruct Hthr as [-> | [d0 [-> | ->]]]; exact I.
  - rewrite !sleeps_app. cbn. intros Habs.
    apply (f_equal (@length Q)) in Habs. rewrite !length_app in Habs. cbn in Habs. lia.
Qed.

(** X21. A generation call whose attempts all fail with errors that carry
    no hint waits after every one of them, the last included: after each
    retry line it sleeps the delay the line announces, [min(2^(k-1), 60)]
    seconds after attempt [k], that is 1, 2, 4, 8, 16 and 32 seconds for
    the six attempts of a rewrite, and only then raises the exhaustion
    error. This holds for up to 1024 attempts, on a standard output that
    can encode the retry lines and with a sound clock. *)
Theorem exhausted_call_waits env model_name prompt max_retries w :
  stdout_any env -> steady env -> timely w -> (max_retries <= 1024)%nat ->
  (forall j, (j < max_retries)%nat ->
     exists e, attempt_failure (generate_content env (n_gen w + j) model_name prompt) = Some e /\
               is_exception e = true /\
               _parse_retry_seconds_from_error (exn_msg e) = None) ->
  fst (call_gemini_with_retry env model_name prompt max_retries w)
  = Raise (gemini_failure max_retries) /\
  retry_sleeps false (trace (snd (call_gemini_with_retry env model_name prompt max_retries w)))
  = retry_sleeps false (trace w)
    ++ map (fun k => Qmin (Qpower 2 (Z.of_nat k - 1)) 60) (seq 1 max_retries).
Proof.
  intros Hout Hsteady Hw Hmax. unfold call_gemini_with_retry.
  assert (Hgen : forall n a w0,
             timely w0 -> (a + n <= 1025)%nat ->
             (forall j, (j < n)%nat ->
                exists e, attempt_failure (generate_content env (n_gen w0 + j) model_name prompt)
                          = Some e /\
                          is_exception e = true /\
                          _parse_retry_seconds_from_error (exn_msg e) = None) ->
             fst (gemini_loop env model_name prompt max_retries (seq a n) w0)
             = Raise (gemini_failure max_retries) /\
             retry_sleeps false (trace (snd (gemini_loop env model_name prompt max_retries
                                               (seq a n) w0)))
             = retry_sleeps false (trace w0)
               ++ map (fun k => Qmin (Qpower 2 (Z.of_nat k - 1)) 60) (seq a n)).
  { induction n as [| n IH]; intros a w0 Hw0 Han Hfail.
    - cbn. now rewrite app_nil_r.
    - cbn [seq gemini_loop map].
      destruct (Hfail 0%nat) as (e & He & Hexc & Hnohint); [lia |].
      rewrite Nat.add_0_r in He.
      assert (Hhint : hint_ok (exn_msg e)) by (unfold hint_ok; now rewrite Hnohint).
      destruct (gemini_attempt_failed env model_name prompt max_retries a w0 e
                  Hout Hsteady Hw0 ltac:(lia) He Hexc Hhint)
        as (w1 & E1 & Hn1 & Hw1 & Hrs & _).
      rewrite (bind_ok _ _ _ _ _ E1).
      destruct (IH (S a) w1 Hw1 ltac:(lia)) as [Hr Htr].
      { intros j Hj. destruct (Hfail (S j)) as (e2 & He2 & Hexc2 & Hno2); [lia |].
        exists e2. split; [| split; assumption]. rewrite Hn1.
        replace (S (n_gen w0) + j)%nat with (n_gen w0 + S j)%nat by lia. exact He2. }
      split; [exact Hr |]. rewrite Htr, Hrs. rewrite <- app_assoc. cbn [app].
      do 2 f_equal. unfold retry_delay. now rewrite Hnohint. }
  intros Hfail. exact (Hgen max_retries 1%nat w Hw ltac:(lia) Hfail).
Qed.

Lemma stdout_any_mute : stdout_any env_mute.
Proof. intros c. unfold encodable. cbn. apply orb_true_r. Qed.

Lemma exhausted_call_waits_witness :
  retry_sleeps false
    (trace (snd (call_gemini_with_retry env_mute (lit "gemini-1.5-flash") (lit "Texto.") 6
                   Scenario.world0)))
  = retry_sleeps false (trace Scenario.world0)
    ++ map (fun k => Qmin (Qpower 2 (Z.of_nat k - 1)) 60) (seq 1 6).
Proof.
  refine (proj2 (exhausted_call_waits env_mute (lit "gemini-1.5-flash") (lit "Texto.") 6
                   Scenario.world0 stdout_any_mute _ timely_world0 _ _)).
  - intros k. discriminate.
  - lia.
  - intros j _. exists empty_response. split; [reflexivity |]. split; reflexivity.
Defined.

(** ** The direct hit *)

(** X22. When the first response to the lookup is a page that is not
    missing and has a non-empty extract, resolution returns at once with
    the page's own title (the requested title when the page gives none)
    and the extract, after a single GET and no wait. *)
Theorem article_direct_hit env depth title lang intro_only w data page rest body :
  attempt_data (requests_get env (n_get w) (ReqQuery title intro_only) lang) = Some data ->
  d_pages data = page :: rest -> page_is_missing page = false ->
  p_extract page = Some body -> body <> [] ->
  exists w',
    get_wikipedia_article env (S depth) title lang intro_only w
    = (Ok (default title (p_title page), body), w') /\
    trace w' = trace w ++ [EvGet (ReqQuery title intro_only) lang].
Proof.
  intros Hd Hpages Hmiss Hex Hbody.
  destruct (wiki_request_first_ok env _ lang w data Hd) as (w1 & E1 & _ & Ht1).
  exists w1. split; [| exact Ht1].
  rewrite get_wikipedia_article_unfold, (bind_ok _ _ _ _ _ E1).
  unfold lookup_missing. rewrite Hpages, Hmiss. cbn zeta. rewrite Hex. cbn [default].
  destruct body as [| c body]; [congruence |]. reflexivity.
Qed.

Lemma article_direct_hit_witness :
  exists w',
    get_wikipedia_article Scenario.env_but_one 1000 (lit "Blockchain") WIKI_LANG false
      Scenario.world0
    = (Ok (lit "Blockchain", lit "Texto sobre Blockchain"), w') /\
    trace w' = trace Scenario.world0 ++ [EvGet (ReqQuery (lit "Blockchain") false) WIKI_LANG].
Proof.
  refine (article_direct_hit Scenario.env_but_one 999 (lit "Blockchain") WIKI_LANG false
            Scenario.world0 (Scenario.found (lit "Blockchain") (lit "Texto sobre Blockchain"))
            {| p_missing := None; p_pageid := Some 42%Z; p_title := Some (lit "Blockchain");
               p_extract := Some (lit "Texto sobre Blockchain") |}
            [] (lit "Texto sobre Blockchain") _ _ _ _ _).
  - reflexivity.
  - reflexivity.
  - reflexivity.
  - reflexivity.
  - discriminate.
Defined.
